(** * KinX: the retrieval, decoding and download core of [kinx.mjs]

    A shallow embedding of the exporter's core (version 1.3.0 of the script):
    the Firestore value decoder with field decryption, the two paginated
    retrieval strategies and the journal fallback, the client-side sort of
    pinned messages and the media download worker pool; followed by the
    properties the specification states about them.

    JavaScript values are modelled on the JSON fragment the program
    handles (everything it decodes comes from [response.json()]).  Node's
    library functions (base64, UTF-8, MD5, AES, [Number], [Date]) are the
    fields of a [Platform] class. *)

From Stdlib Require Import List String Ascii ZArith Lia Bool Arith.
From Stdlib.Strings Require Import Byte.
From Stdlib Require Import Permutation Sorted SpecFloat DecimalString DecimalNat.
From Equations Require Import Equations.
Import ListNotations.
Set Warnings "-register-all".
Open Scope string_scope.
Open Scope list_scope.

(* ================================================================== *)
(** * JavaScript values and exceptions *)
(* ================================================================== *)

(** A JS number is an IEEE 754 double. *)
Definition number := spec_float.

(** Values of the JSON fragment, [undefined], and the built-in function
    objects a property read can reach through a prototype.  An object is
    the list of its own enumerable properties in the order [Object.keys]
    reports them; property names inside one object are distinct. *)
Inductive JsValue : Type :=
| JUndefined
| JNull
| JBool (b : bool)
| JNum (x : number)
| JStr (s : string)
| JArr (elems : list JsValue)
| JObj (props : list (string * JsValue))
| JFun (name : string).

(** A thrown [Error] object. *)
Record Error : Type := mkError { err_name : string; err_message : string }.

Definition TypeError (msg : string) : Error := mkError "TypeError" msg.
Definition newError (msg : string) : Error := mkError "Error" msg.

(** The outcome of evaluating a piece of code that may throw. *)
Inductive Result (A : Type) : Type :=
| Ok (a : A)
| Throw (e : Error).
Arguments Ok {A} a.
Arguments Throw {A} e.

Definition bind {A B} (m : Result A) (k : A -> Result B) : Result B :=
  match m with
  | Ok a => k a
  | Throw e => Throw e
  end.

Declare Scope js_scope.
Delimit Scope js_scope with js.
Notation "x <- m ;; k" := (bind m (fun x => k))
  (at level 61, m at next level, right associativity) : js_scope.
Open Scope js_scope.

(** [Error.prototype.toString], as [String(e)] calls it. *)
Definition String_of_error (e : Error) : string :=
  if (err_name e =? "")%string then err_message e
  else if (err_message e =? "")%string then err_name e
  else err_name e ++ ": " ++ err_message e.

(** [typeof v] *)
Definition typeof (v : JsValue) : string :=
  match v with
  | JUndefined => "undefined"
  | JNull | JArr _ | JObj _ => "object"
  | JBool _ => "boolean"
  | JNum _ => "number"
  | JStr _ => "string"
  | JFun _ => "function"
  end.

(** [v == null] *)
Definition nullish (v : JsValue) : bool :=
  match v with
  | JUndefined | JNull => true
  | _ => false
  end.

(** ToBoolean: [!!v], and the test of [||], [if] and [filter(Boolean)]. *)
Definition truthy (v : JsValue) : bool :=
  match v with
  | JUndefined | JNull => false
  | JBool b => b
  | JNum (S754_zero _) | JNum S754_nan => false
  | JNum _ => true
  | JStr s => negb (s =? "")%string
  | JArr _ | JObj _ | JFun _ => true
  end.

(** [a || b] *)
Definition or_else (a b : JsValue) : JsValue := if truthy a then a else b.

(** Own property lookup in a property list; [found] is applied to the
    property's value and [missing] stands for an absent property. *)
Definition find_prop {A} (k : string) (found : JsValue -> A) (missing : A)
  : list (string * JsValue) -> A :=
  fix go ps :=
    match ps with
    | [] => missing
    | (k', x) :: rest => if (k' =? k)%string then found x else go rest
    end.

Definition lookup (k : string) (ps : list (string * JsValue)) : option JsValue :=
  find_prop k Some None ps.

(** [v.k] for the property names the program reads by name ([fields],
    [values], [document], [documents], [nextPageToken], [name],
    [createTime], [updateTime], [url], [video_url] and the order fields).
    An absent property is [undefined]; reading a property of [null] or
    [undefined] throws.  Of those names only [values] is inherited by
    arrays ([Array.prototype.values]). *)
Definition get (v : JsValue) (k : string) : Result JsValue :=
  match v with
  | JUndefined => Throw (TypeError ("Cannot read properties of undefined (reading '" ++ k ++ "')"))
  | JNull => Throw (TypeError ("Cannot read properties of null (reading '" ++ k ++ "')"))
  | JObj ps => Ok (find_prop k (fun x => x) JUndefined ps)
  | JArr _ => Ok (if (k =? "values")%string then JFun "values" else JUndefined)
  | _ => Ok JUndefined
  end.

(** The decimal text of an array index, as property name. *)
Definition index_key (i : nat) : string := NilEmpty.string_of_uint (Nat.to_uint i).

(** [String(n)] for a natural number [n]. *)
Definition String_of_nat (n : nat) : string := NilEmpty.string_of_uint (Nat.to_uint n).

(** The characters of a string, each as a one-character string. *)
Fixpoint chars (s : string) : list JsValue :=
  match s with
  | EmptyString => []
  | String c r => JStr (String c EmptyString) :: chars r
  end.

Fixpoint indexed_from {A} (i : nat) (l : list A) : list (string * A) :=
  match l with
  | [] => []
  | x :: r => (index_key i, x) :: indexed_from (S i) r
  end.

(** [Object.entries(v)] for a value that is neither [null] nor
    [undefined]. *)
Definition entries (v : JsValue) : list (string * JsValue) :=
  match v with
  | JObj ps => ps
  | JArr l => indexed_from 0 l
  | JStr s => indexed_from 0 (chars s)
  | _ => []
  end.

Fixpoint replace_prop (k : string) (x : JsValue) (ps : list (string * JsValue))
  : option (list (string * JsValue)) :=
  match ps with
  | [] => None
  | (k', y) :: rest =>
      if (k' =? k)%string then Some ((k, x) :: rest)
      else option_map (cons (k', y)) (replace_prop k x rest)
  end.

(** [out[k] = x] on an object created by [{}].  Writing [__proto__] goes
    to the prototype setter and creates no own property. *)
Definition set_prop (out : list (string * JsValue)) (k : string) (x : JsValue)
  : list (string * JsValue) :=
  if (k =? "__proto__")%string then out
  else match replace_prop k x out with
       | Some out' => out'
       | None => out ++ [(k, x)]
       end.

(** [s.startsWith(p)] and [s.slice(n)] (for [n] within the string). *)
Definition startsWith (s p : string) : bool := String.prefix p s.

Fixpoint slice_from (n : nat) (s : string) : string :=
  match n, s with
  | 0, _ => s
  | S n', String _ r => slice_from n' r
  | S _, EmptyString => EmptyString
  end.

(** [s.includes(p)] *)
Fixpoint includes (s p : string) : bool :=
  String.prefix p s ||
  match s with
  | EmptyString => false
  | String _ r => includes r p
  end.

(* ================================================================== *)
(** * Configuration *)
(* ================================================================== *)

Record Config : Type := mkConfig {
  PROJECT_ID : string;
  QUERY_PAGE_SIZE : nat;
  MAX_LIST_PAGE_SIZE : nat;
  DOWNLOAD_CONCURRENCY : nat
}.

Definition CONFIG : Config := {|
  PROJECT_ID := "kindroid-ai";
  QUERY_PAGE_SIZE := 100;
  MAX_LIST_PAGE_SIZE := 300;
  DOWNLOAD_CONCURRENCY := 8
|}.

(* ================================================================== *)
(** * Library functions of the Node runtime *)
(* ================================================================== *)

(** An MD5 digest: sixteen bytes. *)
Record Digest : Type := mkDigest {
  digest_bytes : list byte;
  digest_length : List.length digest_bytes = 16
}.

Class Platform : Type := {
  (** [Number(v)]; never throws on the values modelled here. *)
  Number : JsValue -> number;
  (** [String(v)] for a [v] that is not a string. *)
  ToString : JsValue -> string;
  (** [Buffer.from(s, 'base64')]; lenient, never throws. *)
  Buffer_from_base64 : string -> list byte;
  (** [Buffer.from(s, 'utf8')] *)
  Buffer_from_utf8 : string -> list byte;
  (** [buf.toString('utf8')]; never throws. *)
  Buffer_toString_utf8 : list byte -> string;
  (** [crypto.createHash('md5').update(m).digest()] *)
  md5 : list byte -> Digest;
  (** [createDecipheriv('aes-256-cbc', key, iv)], auto padding, [update]
      then [final]: throws on a key or IV of the wrong length, on a body
      that is not a whole number of blocks and on bad PKCS#7 padding. *)
  aes_256_cbc_decrypt : list byte -> list byte -> list byte -> Result (list byte);
  (** [new Date(v).getTime()]: milliseconds since the epoch, [None] for
      NaN (an invalid date). *)
  Date_getTime : JsValue -> option Z;
  (** [path.basename(p)] *)
  path_basename : string -> string
}.

(* ================================================================== *)
(** * Decryption and data decoding *)
(* ================================================================== *)

Section Decoding.
Context {P : Platform}.

(** Bytes still to derive: the variant of the loop of [evpBytesToKey]. *)
Definition missing_bytes (derived : list byte) : nat := 48 - List.length derived.
Arguments missing_bytes : simpl never.

(** The [while (derived.length < 48)] loop of [evpBytesToKey]. *)
Equations? evpBytesToKey_loop (passwordBuffer salt derived digest : list byte)
  : list byte by wf (missing_bytes derived) lt :=
  evpBytesToKey_loop passwordBuffer salt derived digest
    with lt_dec (List.length derived) 48 := {
    | left _ =>
        let digest' := digest_bytes (md5 (digest ++ passwordBuffer ++ salt)) in
        evpBytesToKey_loop passwordBuffer salt (derived ++ digest') digest'
    | right _ => derived }.
Proof.
  unfold missing_bytes. subst digest'.
  rewrite length_app, (digest_length (md5 _)). lia.
Qed.

Definition subarray (a b : nat) (buf : list byte) : list byte :=
  firstn (b - a) (skipn a buf).

Definition evpBytesToKey (passwordBuffer salt : list byte) : list byte * list byte :=
  let derived := evpBytesToKey_loop passwordBuffer salt [] [] in
  (subarray 0 32 derived, subarray 32 48 derived).

(** [decryptEncString]: [None] is the [null] it returns on failure; the
    [catch] clause turns whatever the [try] block throws into [null]. *)
Definition decryptEncString (opensslBase64 uidPassword : string) : option string :=
  let attempt : Result (option string) :=
    let raw := Buffer_from_base64 opensslBase64 in
    if Nat.ltb (List.length raw) 16
       || negb (Buffer_toString_utf8 (subarray 0 8 raw) =? "Salted__")%string
    then Ok None
    else
      let salt := subarray 8 16 raw in
      let data := skipn 16 raw in
      let '(key, iv) := evpBytesToKey (Buffer_from_utf8 uidPassword) salt in
      decrypted <- aes_256_cbc_decrypt key iv data ;;
      Ok (Some (Buffer_toString_utf8 decrypted)) in
  match attempt with
  | Ok r => r
  | Throw _ => None
  end.

(** [(values || []).map(f)] when [values] is not an array: the empty
    array for a falsy [values], a TypeError otherwise (no JSON value and no
    built-in function has a callable [map]). *)
Definition map_of_non_array (values : JsValue) : Result JsValue :=
  if truthy values then Throw (TypeError "(value.values || []).map is not a function")
  else Ok (JArr []).

(** [decodeValue]: the guard, then the [switch] on the first key. *)
Fixpoint decodeValue (uid : string) (firestoreValue : JsValue) {struct firestoreValue}
  : Result JsValue :=
  if nullish firestoreValue || negb (typeof firestoreValue =? "object")%string
  then Ok firestoreValue
  else
  match firestoreValue with
  | JObj ((key, value) :: _) =>
      if (key =? "stringValue")%string then
        match value with
        | JStr s =>
            if startsWith s "!enc:" then
              match decryptEncString (slice_from 5 s) uid with
              | Some text => Ok (JStr text)
              | None => Ok value
              end
            else Ok value
        | _ => Ok value
        end
      else if (key =? "integerValue")%string then Ok (JNum (Number value))
      else if (key =? "doubleValue")%string then Ok (JNum (Number value))
      else if (key =? "booleanValue")%string then Ok (JBool (truthy value))
      else if (key =? "timestampValue")%string then Ok value
      else if (key =? "nullValue")%string then Ok JNull
      else if (key =? "mapValue")%string then
        (* for (const [k, v] of Object.entries(value.fields || {})) out[k] = ... *)
        let decode_entries :=
          fix loop (out : list (string * JsValue)) (es : list (string * JsValue)) :=
            match es with
            | [] => Ok (JObj out)
            | (k, v) :: rest =>
                d <- decodeValue uid v ;; loop (set_prop out k d) rest
            end in
        let decode_elements :=
          fix loop (i : nat) (out : list (string * JsValue)) (es : list JsValue) :=
            match es with
            | [] => Ok (JObj out)
            | v :: rest =>
                d <- decodeValue uid v ;; loop (S i) (set_prop out (index_key i) d) rest
            end in
        let of_fields (fields : JsValue) : Result JsValue :=
          match fields with
          | JObj fs => decode_entries [] fs
          | JArr l => decode_elements 0 [] l
          | JStr s =>
              (* the entries of a string are its characters, decoded to themselves *)
              Ok (JObj (fold_left (fun out kv => set_prop out (fst kv) (snd kv))
                                  (indexed_from 0 (chars s)) []))
          | _ => Ok (JObj [])
          end in
        match value with
        | JObj vs => find_prop "fields" of_fields (Ok (JObj [])) vs
        | _ => _ <- get value "fields" ;; Ok (JObj [])
        end
      else if (key =? "arrayValue")%string then
        (* (value.values || []).map(v => decodeValue(v, uid)) *)
        let map_decode :=
          fix loop (es : list JsValue) : Result (list JsValue) :=
            match es with
            | [] => Ok []
            | v :: rest =>
                d <- decodeValue uid v ;; ds <- loop rest ;; Ok (d :: ds)
            end in
        let of_values (values : JsValue) : Result JsValue :=
          match values with
          | JArr l => ds <- map_decode l ;; Ok (JArr ds)
          | _ => map_of_non_array values
          end in
        match value with
        | JObj vs => find_prop "values" of_values (Ok (JArr [])) vs
        | _ => values <- get value "values" ;; map_of_non_array values
        end
      else Ok firestoreValue
  | _ => Ok firestoreValue
  end.

(** [values.map(v => decodeValue(v, uid))] on an array, as a function
    of its own. *)
Fixpoint map_decodeValue (uid : string) (es : list JsValue) : Result (list JsValue) :=
  match es with
  | [] => Ok []
  | v :: rest =>
      d <- decodeValue uid v ;; ds <- map_decodeValue uid rest ;; Ok (d :: ds)
  end.

(** The loop of [decodeFields]. *)
Fixpoint decodeFields_loop (uid : string) (decoded : list (string * JsValue))
  (es : list (string * JsValue)) : Result JsValue :=
  match es with
  | [] => Ok (JObj decoded)
  | (key, value) :: rest =>
      d <- decodeValue uid value ;; decodeFields_loop uid (set_prop decoded key d) rest
  end.

Definition decodeFields (fields : JsValue) (uid : string) : Result JsValue :=
  decodeFields_loop uid [] (entries (or_else fields (JObj []))).

End Decoding.

(* ================================================================== *)
(** * HTTP *)
(* ================================================================== *)

Definition Headers : Type := list (string * string).

(** A URL: the text before [?] and the entries of its [URLSearchParams]. *)
Record Url : Type := mkUrl {
  url_path : string;
  url_query : list (string * string)
}.

(** [params.set(k, v)] *)
Fixpoint params_set (params : list (string * string)) (k v : string)
  : list (string * string) :=
  match params with
  | [] => [(k, v)]
  | (k', v') :: rest =>
      if (k' =? k)%string then (k, v) :: rest else (k', v') :: params_set rest k v
  end.

Fixpoint params_get (params : list (string * string)) (k : string) : option string :=
  match params with
  | [] => None
  | (k', v) :: rest => if (k' =? k)%string then Some v else params_get rest k
  end.

(** The JSON body of a [runQuery] request, [{ structuredQuery: ... }]. *)
Inductive Direction : Type := ASCENDING | DESCENDING.

Record Order : Type := mkOrder { fieldPath : string; direction : Direction }.

Record Cursor : Type := mkCursor { values : list JsValue; before : bool }.

Record StructuredQuery : Type := mkQuery {
  from : list string;
  orderBy : list Order;
  limit : nat;
  startAt : option Cursor
}.

Inductive Request : Type :=
| GET (url : Url) (headers : Headers)
| POST (url : Url) (headers : Headers) (body : StructuredQuery).

(** What the program reads of a [fetch] response: [ok], [status],
    [await text()] and [await json()]. *)
Record Response : Type := mkResponse {
  ok : bool;
  status : nat;
  text : string;
  json : Result JsValue
}.

(** The remote end: [fetch] resolves to a response or rejects. *)
Definition Fetch : Type := Request -> Result Response.

Definition firestoreUrl (documentPath : string) : string :=
  "https://firestore.googleapis.com/v1/projects/" ++ PROJECT_ID CONFIG
    ++ "/databases/(default)/documents/" ++ documentPath.

Section Fetching.
Context {P : Platform}.
Variable fetch : Fetch.

Definition httpGET (url : Url) (headers : Headers) : Result JsValue :=
  response <- fetch (GET url headers) ;;
  if negb (ok response)
  then Throw (newError ("HTTP GET failed: " ++ String_of_nat (status response)
                          ++ " " ++ text response))
  else json response.

Definition httpPOST (url : Url) (headers : Headers) (body : StructuredQuery)
  : Result JsValue :=
  response <- fetch (POST url headers body) ;;
  if negb (ok response)
  then Throw (newError ("HTTP POST failed: " ++ String_of_nat (status response)
                          ++ " " ++ text response))
  else json response.

(** [String(v)] *)
Definition String_of (v : JsValue) : string :=
  match v with
  | JStr s => s
  | _ => ToString v
  end.

(** [...v] in an argument list. *)
Definition spread (v : JsValue) : Result (list JsValue) :=
  match v with
  | JArr l => Ok l
  | JStr s => Ok (chars s)
  | _ => Throw (TypeError "Spread syntax requires ...iterable[Symbol.iterator] to be a function")
  end.

(** The request one iteration of [listAll] sends. *)
Definition listAll_url (collectionPath : string) (orderByClause : option string)
  (pageToken : JsValue) : Url :=
  let params := [("pageSize", String_of_nat (MAX_LIST_PAGE_SIZE CONFIG))] in
  let params :=
    match orderByClause with
    | Some clause =>
        if negb (clause =? "")%string then params_set params "orderBy" clause else params
    | None => params
    end in
  let params :=
    if truthy pageToken then params_set params "pageToken" (String_of pageToken)
    else params in
  mkUrl (firestoreUrl collectionPath) params.

(** The [do ... while (pageToken)] loop of [listAll]; [None] when the
    fuel runs out before the loop ends. *)
Fixpoint listAll_loop (fuel : nat) (collectionPath : string) (headers : Headers)
  (orderByClause : option string) (documents : list JsValue) (pageToken : JsValue)
  : option (Result (list JsValue)) :=
  match fuel with
  | 0 => None
  | S fuel' =>
      let url := listAll_url collectionPath orderByClause pageToken in
      let body : Result (list JsValue * JsValue) :=
        response <- httpGET url headers ;;
        docs <- get response "documents" ;;
        documents' <- (if truthy docs
                       then page <- spread docs ;; Ok (documents ++ page)
                       else Ok documents) ;;
        next <- get response "nextPageToken" ;;
        Ok (documents', or_else next (JStr "")) in
      match body with
      | Throw e => Some (Throw e)
      | Ok (documents', pageToken') =>
          if truthy pageToken'
          then listAll_loop fuel' collectionPath headers orderByClause documents' pageToken'
          else Some (Ok documents')
      end
  end.

Definition listAll (fuel : nat) (collectionPath : string) (headers : Headers)
  (orderByClause : option string) : option (Result (list JsValue)) :=
  listAll_loop fuel collectionPath headers orderByClause [] (JStr "").

Definition valueForCursor (doc : JsValue) (field : string) : Result JsValue :=
  if (field =? "__name__")%string then
    name <- get doc "name" ;; Ok (JObj [("referenceValue", name)])
  else
    fields <- get doc "fields" ;;
    v <- (if nullish fields then Ok JUndefined else get fields field) ;;
    Ok (or_else v (JObj [("nullValue", JNull)])).

(** [rows.map(r => r.document)] *)
Fixpoint map_document (rows : list JsValue) : Result (list JsValue) :=
  match rows with
  | [] => Ok []
  | r :: rest =>
      d <- get r "document" ;; ds <- map_document rest ;; Ok (d :: ds)
  end.

(** The query one iteration of [runQueryAll] posts. *)
Definition runQueryAll_query (collectionId orderField : string) (lastDoc : JsValue)
  : Result StructuredQuery :=
  let query := {|
    from := [collectionId];
    orderBy := [ mkOrder orderField ASCENDING; mkOrder "__name__" ASCENDING ];
    limit := QUERY_PAGE_SIZE CONFIG;
    startAt := None |} in
  if truthy lastDoc then
    c1 <- valueForCursor lastDoc orderField ;;
    c2 <- valueForCursor lastDoc "__name__" ;;
    Ok {| from := from query; orderBy := orderBy query; limit := limit query;
          startAt := Some {| values := [c1; c2]; before := false |} |}
  else Ok query.

(** One request of [runQueryAll]: the documents of the page,
    [rows.map(r => r.document).filter(Boolean)]. *)
Definition runQueryAll_page (parentDocPath collectionId : string) (headers : Headers)
  (orderField : string) (lastDoc : JsValue) : Result (list JsValue) :=
  query <- runQueryAll_query collectionId orderField lastDoc ;;
  rows <- httpPOST (mkUrl (firestoreUrl parentDocPath ++ ":runQuery") []) headers query ;;
  match rows with
  | JArr rs => ds <- map_document rs ;; Ok (filter truthy ds)
  | _ => Throw (TypeError "rows.map is not a function")
  end.

(** The [while (true)] loop of [runQueryAll]; [None] when the fuel runs
    out before a [break]. *)
Fixpoint runQueryAll_loop (fuel : nat) (parentDocPath collectionId : string)
  (headers : Headers) (orderField : string) (documents : list JsValue)
  (lastDoc : JsValue) : option (Result (list JsValue)) :=
  match fuel with
  | 0 => None
  | S fuel' =>
      match runQueryAll_page parentDocPath collectionId headers orderField lastDoc with
      | Throw e => Some (Throw e)
      | Ok docsInPage =>
          if Nat.eqb (List.length docsInPage) 0 then Some (Ok documents)
          else
            let documents' := documents ++ docsInPage in
            let lastDoc' := last docsInPage JUndefined in
            if Nat.ltb (List.length docsInPage) (QUERY_PAGE_SIZE CONFIG)
            then Some (Ok documents')
            else runQueryAll_loop fuel' parentDocPath collectionId headers orderField
                                  documents' lastDoc'
      end
  end.

Definition runQueryAll (fuel : nat) (parentDocPath collectionId : string)
  (headers : Headers) (orderField : string) : option (Result (list JsValue)) :=
  runQueryAll_loop fuel parentDocPath collectionId headers orderField [] JNull.

(** The test of the [catch] clause of [fetchJournalAll]. *)
Definition is_permission_error (e : Error) : bool :=
  includes (String_of_error e) "PERMISSION_DENIED" || includes (String_of_error e) "403".

Definition fetchJournalAll (fuel : nat) (parentDocPath collectionId : string)
  (headers : Headers) : option (Result (list JsValue)) :=
  match runQueryAll fuel parentDocPath collectionId headers "created" with
  | None => None
  | Some (Ok documents) => Some (Ok documents)
  | Some (Throw e) =>
      if is_permission_error e
      then listAll fuel (parentDocPath ++ "/" ++ collectionId) headers
                   (Some "created asc,__name__ asc")
      else Some (Throw e)
  end.

End Fetching.

(* ================================================================== *)
(** * Export and download logic *)
(* ================================================================== *)

Section Sorting.
Context {P : Platform}.

(** The comparator of [sortByCreateTimeAsc]: [timeA - timeB], [None]
    for NaN.  Only the sign of the difference matters to [sort]. *)
Definition compare_createTime (a b : JsValue) : Result (option Z) :=
  ca <- get a "createTime" ;;
  let timeA := Date_getTime (or_else ca (JNum (S754_zero false))) in
  cb <- get b "createTime" ;;
  let timeB := Date_getTime (or_else cb (JNum (S754_zero false))) in
  Ok (match timeA, timeB with
      | Some ta, Some tb => Some (ta - tb)%Z
      | _, _ => None
      end).

(** [Array.prototype.sort(comparefn)] is stable (ECMAScript 2019): an
    element moves in front of another only when the comparator says it
    sorts strictly before it; a NaN result counts as [+0].  A stable
    sort is determined by the comparator whenever that is consistent, so
    the list insertion sort stands for the engine's algorithm. *)
Definition sorts_after (c : option Z) : bool :=
  match c with
  | Some d => (0 <? d)%Z
  | None => false
  end.

Fixpoint sort_insert (comparefn : JsValue -> JsValue -> Result (option Z))
  (x : JsValue) (sorted : list JsValue) : Result (list JsValue) :=
  match sorted with
  | [] => Ok [x]
  | y :: rest =>
      c <- comparefn x y ;;
      if sorts_after c
      then r <- sort_insert comparefn x rest ;; Ok (y :: r)
      else Ok (x :: y :: rest)
  end.

Fixpoint sort_defined (comparefn : JsValue -> JsValue -> Result (option Z))
  (l : list JsValue) : Result (list JsValue) :=
  match l with
  | [] => Ok []
  | x :: rest => s <- sort_defined comparefn rest ;; sort_insert comparefn x s
  end.

Definition is_undefined (v : JsValue) : bool :=
  match v with
  | JUndefined => true
  | _ => false
  end.

(** [undefined] elements go to the end without being compared. *)
Definition Array_sort (comparefn : JsValue -> JsValue -> Result (option Z))
  (l : list JsValue) : Result (list JsValue) :=
  s <- sort_defined comparefn (filter (fun v => negb (is_undefined v)) l) ;;
  Ok (s ++ filter is_undefined l).

Definition sortByCreateTimeAsc (docs : list JsValue) : Result (list JsValue) :=
  Array_sort compare_createTime docs.

(** The pinned messages of [exportKin] and [exportGroup]:
    [listAll(`${path}/PinnedMessages`, headers)], then
    [sortByCreateTimeAsc]. *)
Definition export_pinnedDocs (fetch : Fetch) (fuel : nat) (path : string)
  (headers : Headers) : option (Result (list JsValue)) :=
  match listAll fetch fuel (path ++ "/PinnedMessages") headers None with
  | None => None
  | Some (Throw e) => Some (Throw e)
  | Some (Ok pinnedDocs) => Some (sortByCreateTimeAsc pinnedDocs)
  end.

End Sorting.

(** ** The media download worker pool *)

Record DownloadTask : Type := mkTask { url : string; dest : string }.

(** What can be observed of a run: which worker took which item off the
    shared array, the network fetches issued, the counter updates and the
    warnings written to the console. *)
Inductive Event : Type :=
| Claimed (w : nat) (item : DownloadTask)
| FetchCalled (w : nat) (item : DownloadTask)
| Completed (w : nat) (item : DownloadTask)
| Failed (w : nat) (item : DownloadTask) (warning : string).

(** What the program reads of a media response. *)
Record MediaResponse : Type := mkMedia {
  media_ok : bool;
  media_status : nat;
  arrayBuffer : Result (list byte)
}.

(** The surroundings of a download: the media source and the disk.  Both
    may answer differently as the run proceeds, so they see the events so
    far. *)
Record World : Type := mkWorld {
  fetch_media : list Event -> string -> Result MediaResponse;
  fs_writeFile : list Event -> string -> list byte -> Result unit
}.

(** Where a worker is suspended: at the loop test, or at one of its four
    [await]s. *)
Inductive Worker : Type :=
| Ready
| Accessing (item : DownloadTask)
| Fetching (item : DownloadTask)
| Reading (item : DownloadTask) (response : MediaResponse)
| Writing (item : DownloadTask) (buffer : list byte)
| Finished.

(** The variables [downloadMedia] shares among its workers, the files on
    disk, the workers and the events so far. *)
Record State : Type := mkState {
  itemsToProcess : list DownloadTask;
  completed : nat;
  failed : nat;
  files : list string;
  workers : list Worker;
  trace : list Event
}.

Fixpoint set_worker (ws : list Worker) (w : nat) (x : Worker) : list Worker :=
  match ws, w with
  | [], _ => []
  | _ :: rest, 0 => x :: rest
  | y :: rest, S w' => y :: set_worker rest w' x
  end.

(** [fs.access(p)] resolves when the file is there. *)
Definition file_exists (fs : list string) (p : string) : bool :=
  existsb (String.eqb p) fs.

Section Download.
Context {P : Platform}.
Variable world : World.

(** The text [console.warn] prints in the [catch] clause. *)
Definition failure_warning (item : DownloadTask) (e : Error) : string :=
  String "010" "  - Failed to download " ++ path_basename (dest item) ++ ": " ++ err_message e.

(** The [catch (e)] clause: count, warn, [continue]. *)
Definition fail (w : nat) (item : DownloadTask) (e : Error) (st : State) : State :=
  {| itemsToProcess := itemsToProcess st;
     completed := completed st;
     failed := S (failed st);
     files := files st;
     workers := set_worker (workers st) w Ready;
     trace := trace st ++ [Failed w item (failure_warning item e)] |}.

(** [completed++] at the end of the loop body. *)
Definition complete (w : nat) (item : DownloadTask) (fs : list string) (st : State)
  : State :=
  {| itemsToProcess := itemsToProcess st;
     completed := S (completed st);
     failed := failed st;
     files := fs;
     workers := set_worker (workers st) w Ready;
     trace := trace st ++ [Completed w item] |}.

Definition suspend (w : nat) (x : Worker) (st : State) : State :=
  {| itemsToProcess := itemsToProcess st;
     completed := completed st;
     failed := failed st;
     files := files st;
     workers := set_worker (workers st) w x;
     trace := trace st |}.

(** Worker [w] runs from where it is suspended to its next suspension.
    Nothing happens for a worker that has returned.  The workers call
    [updateProgress] after the first call, in [downloadMedia], has
    returned, on the same stream: their calls return as well, and what
    they draw on the terminal is left out. *)
Definition step (w : nat) (st : State) : State :=
  match nth_error (workers st) w with
  | None => st
  | Some Ready =>
      (* while (itemsToProcess.length > 0) { const item = itemsToProcess.pop();
         an item is an object, so [if (!item) continue] never fires *)
      match itemsToProcess st with
      | [] => suspend w Finished st
      | first :: _ =>
          let item := last (itemsToProcess st) first in
          {| itemsToProcess := removelast (itemsToProcess st);
             completed := completed st;
             failed := failed st;
             files := files st;
             workers := set_worker (workers st) w (Accessing item);
             trace := trace st ++ [Claimed w item] |}
      end
  | Some (Accessing item) =>
      (* await fs.access(item.dest) *)
      if file_exists (files st) (dest item)
      then complete w item (files st) st
      else
        {| itemsToProcess := itemsToProcess st;
           completed := completed st;
           failed := failed st;
           files := files st;
           workers := set_worker (workers st) w (Fetching item);
           trace := trace st ++ [FetchCalled w item] |}
  | Some (Fetching item) =>
      (* const response = await fetch(item.url); if (!response.ok) throw ... *)
      match fetch_media world (trace st) (url item) with
      | Throw e => fail w item e st
      | Ok response =>
          if negb (media_ok response)
          then fail w item (newError ("HTTP " ++ String_of_nat (media_status response))) st
          else suspend w (Reading item response) st
      end
  | Some (Reading item response) =>
      (* const buffer = Buffer.from(await response.arrayBuffer()); *)
      match arrayBuffer response with
      | Throw e => fail w item e st
      | Ok buffer => suspend w (Writing item buffer) st
      end
  | Some (Writing item buffer) =>
      (* await fs.writeFile(item.dest, buffer); *)
      match fs_writeFile world (trace st) (dest item) buffer with
      | Throw e => fail w item e st
      | Ok _ => complete w item (dest item :: files st) st
      end
  | Some Finished => st
  end.

(** A schedule names, turn by turn, the worker the event loop resumes. *)
Definition run (schedule : list nat) (st : State) : State :=
  fold_left (fun s w => step w s) schedule st.

Definition is_finished (x : Worker) : bool :=
  match x with
  | Finished => true
  | _ => false
  end.

(** [Promise.all(workers)] has resolved. *)
Definition all_finished (st : State) : bool := forallb is_finished (workers st).

(** A pool of [n] workers over a copy of [items]. *)
Definition start (n : nat) (fs : list string) (items : list DownloadTask) : State :=
  {| itemsToProcess := items;
     completed := 0;
     failed := 0;
     files := fs;
     workers := repeat Ready n;
     trace := [] |}.

(** The number of workers [downloadMedia] starts:
    [Math.min(CONFIG.DOWNLOAD_CONCURRENCY, items.length)]. *)
Definition pool_size (items : list DownloadTask) : nat :=
  Nat.min (DOWNLOAD_CONCURRENCY CONFIG) (List.length items).

(** [updateProgress()].  [output] is [process.stdout]; [clearLine] and
    [cursorTo] are methods of a terminal stream only, so on a pipe or a
    file the call throws.  On a terminal it redraws the progress line. *)
Definition updateProgress (isTTY : bool) : Result unit :=
  if isTTY then Ok tt else Throw (TypeError "output.clearLine is not a function").

(** [downloadMedia(items)], with [output] a terminal or not, under a
    schedule, from the files [fs].  Without items it returns at once.
    Otherwise it calls [updateProgress()], which may throw, and only then
    starts the workers: the result is the state in which it returns, or
    the error, and [None] while [Promise.all] is pending. *)
Definition downloadMedia (isTTY : bool) (schedule : list nat) (fs : list string)
  (items : list DownloadTask) : option (Result State) :=
  if Nat.eqb (List.length items) 0 then Some (Ok (start 0 fs items))
  else
    match updateProgress isTTY with
    | Throw e => Some (Throw e)
    | Ok _ =>
        let st := run schedule (start (pool_size items) fs items) in
        if all_finished st then Some (Ok st) else None
    end.

End Download.

(** What a trace records. *)
Definition claims (t : list Event) : list (nat * DownloadTask) :=
  flat_map (fun e => match e with Claimed w i => [(w, i)] | _ => [] end) t.

Definition fetched (t : list Event) : list DownloadTask :=
  flat_map (fun e => match e with FetchCalled _ i => [i] | _ => [] end) t.

Definition succeeded (t : list Event) : list DownloadTask :=
  flat_map (fun e => match e with Completed _ i => [i] | _ => [] end) t.

Definition failures (t : list Event) : list DownloadTask :=
  flat_map (fun e => match e with Failed _ i _ => [i] | _ => [] end) t.

Definition warnings (t : list Event) : list string :=
  flat_map (fun e => match e with Failed _ _ m => [m] | _ => [] end) t.

(* ================================================================== *)
(** * Well-formed wire values *)
(* ================================================================== *)

Definition is_string (v : JsValue) : bool :=
  match v with JStr _ => true | _ => false end.

Definition is_number (v : JsValue) : bool :=
  match v with JNum _ => true | _ => false end.

Definition is_boolean (v : JsValue) : bool :=
  match v with JBool _ => true | _ => false end.

(** The kinds [decodeValue] interprets. *)
Definition recognized (key : string) : bool :=
  existsb (String.eqb key)
    [ "stringValue"; "integerValue"; "doubleValue"; "booleanValue";
      "timestampValue"; "nullValue"; "mapValue"; "arrayValue" ].

(** The JSON shape of a Firestore [Value]: an object with one key that
    names the kind.  Integers travel as decimal strings, a map as
    [{ fields: { ... } }] and an array as [{ values: [ ... ] }], both
    possibly empty; any other kind (bytes, references, geo points) is
    opaque, whatever its payload. *)
Fixpoint wire (v : JsValue) : bool :=
  match v with
  | JObj [(key, payload)] =>
      if (key =? "nullValue")%string then nullish payload
      else if (key =? "booleanValue")%string then is_boolean payload
      else if (key =? "integerValue")%string then is_string payload || is_number payload
      else if (key =? "doubleValue")%string then is_number payload || is_string payload
      else if (key =? "timestampValue")%string then is_string payload
      else if (key =? "stringValue")%string then is_string payload
      else if (key =? "mapValue")%string then
        match payload with
        | JObj m =>
            find_prop "fields"
              (fun fields =>
                 match fields with
                 | JObj fs => forallb (fun kv => wire (snd kv)) fs
                 | _ => false
                 end)
              true m
        | _ => false
        end
      else if (key =? "arrayValue")%string then
        match payload with
        | JObj m =>
            find_prop "values"
              (fun vs =>
                 match vs with
                 | JArr l => forallb wire l
                 | _ => false
                 end)
              true m
        | _ => false
        end
      else true
  | _ => false
  end.

(** The treatment each kind receives, read off the decoded value. *)
Definition treated_as (v decoded : JsValue) : bool :=
  match v with
  | JObj ((key, payload) :: _) =>
      if (key =? "nullValue")%string then nullish decoded
      else if (key =? "booleanValue")%string then is_boolean decoded
      else if (key =? "integerValue")%string then is_number decoded
      else if (key =? "doubleValue")%string then is_number decoded
      else if (key =? "timestampValue")%string then is_string decoded
      else if (key =? "stringValue")%string then is_string decoded
      else if (key =? "mapValue")%string then
        match decoded with JObj _ => true | _ => false end
      else if (key =? "arrayValue")%string then
        match decoded with JArr _ => true | _ => false end
      else true
  | _ => true
  end.

(* ================================================================== *)
(** * The key derivation and decryption in the words of the specification *)
(* ================================================================== *)

Section Reference.
Context {P : Platform}.

(** [digest_i = MD5(digest_{i-1} || secret || salt)], [digest_0] empty. *)
Fixpoint spec_digest (secret salt : list byte) (i : nat) : list byte :=
  match i with
  | 0 => []
  | S j => digest_bytes (md5 (spec_digest secret salt j ++ secret ++ salt))
  end.

(** [digest_1 || ... || digest_n] *)
Fixpoint spec_material (secret salt : list byte) (n : nat) : list byte :=
  match n with
  | 0 => []
  | S m => spec_material secret salt m ++ spec_digest secret salt (S m)
  end.

(** The number of digests concatenated: the first count, searched
    upwards from [n], that yields 48 bytes or more. *)
Fixpoint spec_rounds (secret salt : list byte) (fuel n : nat) : nat :=
  match fuel with
  | 0 => n
  | S fuel' =>
      if Nat.leb 48 (List.length (spec_material secret salt n)) then n
      else spec_rounds secret salt fuel' (S n)
  end.

(** A 32-byte key, then a 16-byte IV. *)
Definition spec_key_iv (secret salt : list byte) : list byte * list byte :=
  let material := spec_material secret salt (spec_rounds secret salt 48 0) in
  (firstn 32 material, firstn 16 (skipn 32 material)).

Definition Salted__ : list byte := list_byte_of_string "Salted__".

Definition bytes_eqb (a b : list byte) : bool :=
  if list_eq_dec Byte.byte_eq_dec a b then true else false.

(** Marker, salt, body; derive; decrypt and unpad; [None] on any failure. *)
Definition spec_decrypt (ciphertext secret : list byte) : option (list byte) :=
  if Nat.leb 16 (List.length ciphertext) && bytes_eqb (firstn 8 ciphertext) Salted__
  then
    let salt := firstn 8 (skipn 8 ciphertext) in
    let body := skipn 16 ciphertext in
    let '(key, iv) := spec_key_iv secret salt in
    match aes_256_cbc_decrypt key iv body with
    | Ok plain => Some plain
    | Throw _ => None
    end
  else None.

(** UTF-8 decoding yields the text [Salted__] for these eight bytes only. *)
Definition utf8_reads_marker_exactly : Prop :=
  forall bs : list byte,
    List.length bs = 8 ->
    (Buffer_toString_utf8 bs =? "Salted__")%string = bytes_eqb bs Salted__.

(** The creation time [sortByCreateTimeAsc] reads off a document. *)
Definition createTime_ms (doc : JsValue) : option Z :=
  match get doc "createTime" with
  | Ok c => Date_getTime (or_else c (JNum (S754_zero false)))
  | Throw _ => None
  end.

Definition dated (doc : JsValue) : bool :=
  match createTime_ms doc with
  | Some _ => true
  | None => false
  end.

Definition time_of (doc : JsValue) : Z :=
  match createTime_ms doc with
  | Some t => t
  | None => 0%Z
  end.

End Reference.

(* ================================================================== *)
(** * Names, paths and packaging *)
(* ================================================================== *)

(** [s.split(sep)] for a separator of one character, here any character
    that [is_sep] accepts: the segments between separators, at least one. *)
Fixpoint split_on (is_sep : ascii -> bool) (s : string) : list string :=
  match s with
  | EmptyString => [EmptyString]
  | String c r =>
      if is_sep c then EmptyString :: split_on is_sep r
      else match split_on is_sep r with
           | segment :: segments => String c segment :: segments
           | [] => [String c EmptyString]
           end
  end.

(** [s.split(sep).pop()] *)
Definition split_pop_on (is_sep : ascii -> bool) (s : string) : string :=
  last (split_on is_sep s) EmptyString.

Definition is_char (sep c : ascii) : bool := Ascii.eqb c sep.

Definition split_pop (sep : ascii) (s : string) : string := split_pop_on (is_char sep) s.

(** Whether every character of a string passes a test. *)
Fixpoint all_chars (test : ascii -> bool) (s : string) : bool :=
  match s with
  | EmptyString => true
  | String c r => test c && all_chars test r
  end.

Definition lacks (sep : ascii) (s : string) : bool :=
  all_chars (fun c => negb (is_char sep c)) s.

(** [docId]: [doc.name.split('/').pop()]. *)
Definition docId (doc : JsValue) : Result string :=
  name <- get doc "name" ;;
  match name with
  | JStr s => Ok (split_pop "/" s)
  | JUndefined | JNull =>
      Throw (TypeError "Cannot read properties of undefined (reading 'split')")
  | _ => Throw (TypeError "doc.name.split is not a function")
  end.

(** [s] without the prefix [p], when it starts with it. *)
Fixpoint drop_prefix (p s : string) : option string :=
  match p, s with
  | EmptyString, _ => Some s
  | String a p', String b s' => if Ascii.eqb a b then drop_prefix p' s' else None
  | String _ _, EmptyString => None
  end.

(** The leading characters other than [/], and what follows them. *)
Fixpoint span_segment (s : string) : string * string :=
  match s with
  | EmptyString => (EmptyString, EmptyString)
  | String c r =>
      if is_char "/" c then (EmptyString, s)
      else let '(segment, rest) := span_segment r in (String c segment, rest)
  end.

(** [name.replace(/^projects\/[^/]+\/databases\/\(default\)\/documents\//, '')]
    on a string. *)
Definition strip_resource_prefix (name : string) : string :=
  match drop_prefix "projects/" name with
  | Some rest =>
      let '(project, rest') := span_segment rest in
      if (project =? "")%string then name
      else match drop_prefix "/databases/(default)/documents/" rest' with
           | Some path => path
           | None => name
           end
  | None => name
  end.

Definition stripDocPrefix (name : JsValue) : Result string :=
  match name with
  | JStr s => Ok (strip_resource_prefix s)
  | JUndefined | JNull =>
      Throw (TypeError "Cannot read properties of undefined (reading 'replace')")
  | _ => Throw (TypeError "name.replace is not a function")
  end.

(** The characters [sanitize] replaces: [<], [>], [:], the double quote,
    [/], the backslash, [|], [?], [*] and the control characters below
    the space. *)
Definition forbidden (c : ascii) : bool :=
  Nat.ltb (nat_of_ascii c) 32
  || existsb (Ascii.eqb c)
       [ "<"%char; ">"%char; ":"%char; "034"%char; "/"%char; "\"%char;
         "|"%char; "?"%char; "*"%char ].

Fixpoint replace_forbidden (s : string) : string :=
  match s with
  | EmptyString => EmptyString
  | String c r => String (if forbidden c then "_"%char else c) (replace_forbidden r)
  end.

(** [s.slice(0, n)] *)
Fixpoint slice_to (n : nat) (s : string) : string :=
  match n, s with
  | S n', String c r => String c (slice_to n' r)
  | _, _ => EmptyString
  end.

(** [sanitize], on the strings its callers build. *)
Definition sanitize (name : string) : string := slice_to 150 (replace_forbidden name).

(** The URL functions [filenameFromUrl] relies on: [new URL(u).pathname]
    and [decodeURIComponent], both of which may throw, and the reading of
    the clock [Date.now()]. *)
Class UrlLibrary : Type := {
  URL_pathname : string -> Result string;
  decodeURIComponent : string -> Result string;
  Date_now : nat
}.

(** The characters [.] of a regular expression does not match, among
    the characters of these strings.  A character here is a code unit
    below 256, so of the four line terminators of JavaScript the line
    feed and the carriage return are there; U+2028 and U+2029 are not
    characters of these strings, and a path that holds one is outside what
    the file name functions below are stated for. *)
Definition is_line_terminator (c : ascii) : bool :=
  Ascii.eqb c "010" || Ascii.eqb c "013".

(** [A-Za-z0-9] *)
Definition is_alnum (c : ascii) : bool :=
  let n := nat_of_ascii c in
  (Nat.leb 48 n && Nat.leb n 57) || (Nat.leb 65 n && Nat.leb n 90)
  || (Nat.leb 97 n && Nat.leb n 122).

(** [toLowerCase] on the characters of an extension. *)
Definition lower (c : ascii) : ascii :=
  let n := nat_of_ascii c in
  if Nat.leb 65 n && Nat.leb n 90 then ascii_of_nat (n + 32) else c.

Fixpoint toLowerCase (s : string) : string :=
  match s with
  | EmptyString => EmptyString
  | String c r => String (lower c) (toLowerCase r)
  end.

(** What precedes the last separator, if there is one. *)
Fixpoint before_last (sep : ascii) (s : string) : option string :=
  match s with
  | EmptyString => None
  | String c r =>
      match before_last sep r with
      | Some front => Some (String c front)
      | None => if is_char sep c then Some EmptyString else None
      end
  end.

(** [base.match(/(.+)\.([A-Za-z0-9]+)$/)]: the extension is what follows
    the last dot, letters and digits only; the stem is what precedes that
    dot back to the last line terminator, and is not empty. *)
Definition match_extension (base : string) : option (string * string) :=
  match before_last "." base with
  | None => None
  | Some front =>
      let ext := split_pop "." base in
      let stem := split_pop_on is_line_terminator front in
      if negb (stem =? "")%string && negb (ext =? "")%string && all_chars is_alnum ext
      then Some (stem, ext)
      else None
  end.

(** The [try] block of [filenameFromUrl], from the decoded path on. *)
Definition filename_of_path (decoded : string) : string :=
  let base := split_pop "\" (split_pop "/" decoded) in
  match match_extension base with
  | None => base
  | Some (stem, ext) =>
      let id := if includes stem "_" then split_pop "_" stem else stem in
      id ++ "." ++ toLowerCase ext
  end.

Definition filenameFromUrl {U : UrlLibrary} (urlString : string) : string :=
  let attempt :=
    pathname <- URL_pathname urlString ;;
    decoded <- decodeURIComponent pathname ;;
    Ok (filename_of_path decoded) in
  match attempt with
  | Ok name => name
  | Throw _ => "download_" ++ String_of_nat Date_now ++ ".bin"
  end.

Section Packaging.
Context {P : Platform}.

(** The record [packDocs] builds for one document. *)
Definition packDoc (uid : string) (doc : JsValue) : Result JsValue :=
  id <- docId doc ;;
  name <- get doc "name" ;;
  path <- stripDocPrefix name ;;
  createTime <- get doc "createTime" ;;
  updateTime <- get doc "updateTime" ;;
  fields <- get doc "fields" ;;
  data <- decodeFields (or_else fields (JObj [])) uid ;;
  Ok (JObj [ ("id", JStr id); ("path", JStr path); ("createTime", createTime);
             ("updateTime", updateTime); ("data", data) ]).

(** [docs.map(doc => ...)] *)
Fixpoint packDocs (docs : list JsValue) (uid : string) : Result (list JsValue) :=
  match docs with
  | [] => Ok []
  | doc :: rest =>
      packed <- packDoc uid doc ;; others <- packDocs rest uid ;; Ok (packed :: others)
  end.

(** The chat messages of [exportKin] and [exportGroup]: the query
    strategy ordered by [timestamp] and, whatever it throws, the listing
    strategy instead. *)
Definition export_chatDocs (fetch : Fetch) (fuel : nat) (path : string)
  (headers : Headers) : option (Result (list JsValue)) :=
  match runQueryAll fetch fuel path "ChatMessages" headers "timestamp" with
  | None => None
  | Some (Ok chatDocs) => Some (Ok chatDocs)
  | Some (Throw _) =>
      listAll fetch fuel (path ++ "/ChatMessages") headers
              (Some "timestamp asc,__name__ asc")
  end.

End Packaging.

(** The folder of a Kin or a group, as [exportKin] and [exportGroup]
    name it: [sanitize(`${name} (${id})`)]. *)
Definition export_subfolder (name id : string) : string :=
  sanitize (name ++ " (" ++ id ++ ")").

(** A character [sanitize] leaves in place. *)
Definition allowed (c : ascii) : bool := negb (forbidden c).

Section PackagingShapes.
Context {P : Platform}.

(** A key that [decoded[key] = ...] stores as an own property. *)
Definition own_key (k : string) : bool := negb (k =? "__proto__")%string.

(** A decoded entry: the key of a field with the decoded value of the
    field. *)
Definition decoded_from (uid : string) (kv kd : string * JsValue) : Prop :=
  fst kd = fst kv /\ decodeValue uid (snd kv) = Ok (snd kd).

(** A document as Firestore sends it: a string [name] and, when there are
    [fields], an object of wire values. *)
Definition wire_document (doc : JsValue) : bool :=
  match doc with
  | JObj props =>
      match lookup "name" props with
      | Some (JStr _) => true
      | _ => false
      end
      && match lookup "fields" props with
         | None => true
         | Some (JObj fs) => forallb (fun kv => wire (snd kv)) fs
         | Some _ => false
         end
  | _ => false
  end.

(** What a packed record keeps of its document: the two times as they
    are, the name without the resource prefix as [path], the last segment
    of either as [id], and the decoded fields as [data]. *)
Definition packed_from (uid : string) (doc packed : JsValue) : Prop :=
  get packed "createTime" = get doc "createTime"
  /\ get packed "updateTime" = get doc "updateTime"
  /\ (exists name,
        get doc "name" = Ok (JStr name)
        /\ get packed "path" = Ok (JStr (strip_resource_prefix name))
        /\ get packed "id" = Ok (JStr (split_pop "/" name))
        /\ split_pop "/" (strip_resource_prefix name) = split_pop "/" name)
  /\ (exists fields data,
        get doc "fields" = Ok fields
        /\ decodeFields (or_else fields (JObj [])) uid = Ok (JObj data)
        /\ get packed "data" = Ok (JObj data)).

End PackagingShapes.

(** A store that refuses every query with the given status and text, and
    serves listings as [listing] does. *)
Definition refusing (status : nat) (text : string) (listing : Fetch) : Fetch :=
  fun request =>
    match request with
    | POST _ _ _ => Ok (mkResponse false status text (Ok JNull))
    | GET _ _ => listing request
    end.

(** The class of errors the journal recovers from, in the words of the
    specification: an index or precondition error, which the store
    reports as [FAILED_PRECONDITION], or a permission error, which it
    reports as [PERMISSION_DENIED] with status 403. *)
Definition spec_index_or_permission_error (status : nat) (text : string) : bool :=
  Nat.eqb status 403 || includes text "PERMISSION_DENIED"
  || includes text "FAILED_PRECONDITION".

(** The error [httpPOST] throws for a response that is not ok. *)
Definition post_failure (status : nat) (text : string) : Error :=
  newError ("HTTP POST failed: " ++ String_of_nat status ++ " " ++ text).

Section Payloads.
Context {P : Platform}.

(** What [exportKin] and [exportGroup] write for a collection:
    [{ count: docs.length, items: packDocs(docs, uid) }]. *)
Definition json_payload (docs : list JsValue) (uid : string)
  : Result (nat * list JsValue) :=
  items <- packDocs docs uid ;; Ok (List.length docs, items).

(** The content of [pinned_messages.json]. *)
Definition export_pinned (fetch : Fetch) (fuel : nat) (path : string)
  (headers : Headers) (uid : string) : option (Result (nat * list JsValue)) :=
  match export_pinnedDocs fetch fuel path headers with
  | None => None
  | Some (Throw e) => Some (Throw e)
  | Some (Ok pinnedDocs) => Some (json_payload pinnedDocs uid)
  end.

End Payloads.

(* ================================================================== *)
(** * A paginating backend *)
(* ================================================================== *)

(** The remote store the retrieval strategies are checked against: one
    collection, served a page at a time. *)

Definition parse_nat (s : string) : option nat :=
  option_map Nat.of_uint (NilEmpty.uint_of_string s).

Definition is_object (v : JsValue) : bool :=
  match v with JObj _ => true | _ => false end.

Definition doc_name (doc : JsValue) : JsValue :=
  match get doc "name" with
  | Ok n => n
  | Throw _ => JUndefined
  end.

Definition doc_field (doc : JsValue) (field : string) : JsValue :=
  match get doc "fields" with
  | Ok fields =>
      match get fields field with
      | Ok v => v
      | Throw _ => JUndefined
      end
  | Throw _ => JUndefined
  end.

(** The listing endpoint over the documents [ds], already in the order
    asked for: pages of at most [cap] documents, the continuation token
    being the offset of the next page; [documents] is left out of an
    empty page and [nextPageToken] of the last one. *)
Definition list_backend (cap : nat) (ds : list JsValue) : Fetch :=
  fun request =>
    match request with
    | GET u _ =>
        let requested :=
          match params_get (url_query u) "pageSize" with
          | Some s => match parse_nat s with Some n => n | None => cap end
          | None => cap
          end in
        let size := Nat.min cap requested in
        let offset :=
          match params_get (url_query u) "pageToken" with
          | Some t => match parse_nat t with Some n => n | None => 0 end
          | None => 0
          end in
        let page := firstn size (skipn offset ds) in
        let documents :=
          match page with
          | [] => []
          | _ => [("documents", JArr page)]
          end in
        let token :=
          if Nat.ltb (offset + size) (List.length ds)
          then [("nextPageToken", JStr (String_of_nat (offset + size)))]
          else [] in
        Ok (mkResponse true 200 "" (Ok (JObj (documents ++ token))))
    | POST _ _ _ =>
        Ok (mkResponse false 404 "Not Found" (Throw (mkError "SyntaxError" "Unexpected token")))
    end.

(** The values a document is ordered by under an [orderBy] list: the
    named fields, [__name__] standing for the reference to the document. *)
Definition key_component (field : string) (doc : JsValue) : JsValue :=
  if (field =? "__name__")%string then JObj [("referenceValue", doc_name doc)]
  else doc_field doc field.

Definition order_key (order : list Order) (doc : JsValue) : list JsValue :=
  map (fun o => key_component (fieldPath o) doc) order.

(** The rows of a [runQuery] answer: one per document, or a single row
    without [document] when there is none. *)
Definition rows_of (page : list JsValue) : list JsValue :=
  match page with
  | [] => [JObj [("readTime", JStr "2024-01-01T00:00:00Z")]]
  | _ => map (fun d => JObj [("document", d); ("readTime", JStr "2024-01-01T00:00:00Z")]) page
  end.

(** The query endpoint over the documents [ds], held in ascending order
    of their keys: [sorts_before a b] tells whether the key tuple [a]
    sorts strictly before [b].  A cursor with [before: false] starts
    after the documents at or before it; [limit] bounds the page. *)
Definition query_backend (sorts_before : list JsValue -> list JsValue -> bool)
  (ds : list JsValue) : Fetch :=
  fun request =>
    match request with
    | POST _ _ q =>
        let key := order_key (orderBy q) in
        let candidates :=
          match startAt q with
          | None => ds
          | Some c =>
              if before c
              then filter (fun d => negb (sorts_before (key d) (values c))) ds
              else filter (fun d => sorts_before (values c) (key d)) ds
          end in
        Ok (mkResponse true 200 "" (Ok (JArr (rows_of (firstn (limit q) candidates)))))
    | GET _ _ =>
        Ok (mkResponse false 404 "Not Found" (Throw (mkError "SyntaxError" "Unexpected token")))
    end.

(** A document the query can order: an object whose order field is set. *)
Definition indexed (orderField : string) (doc : JsValue) : bool :=
  is_object doc && ((orderField =? "__name__")%string || truthy (doc_field doc orderField)).

(** The key order of [runQueryAll]: the order field, then the name. *)
Definition query_order (orderField : string) : list Order :=
  [ mkOrder orderField ASCENDING; mkOrder "__name__" ASCENDING ].

(* ================================================================== *)
(** * A small platform for the examples *)
(* ================================================================== *)

Module Sample.

Definition zero16 : list byte := repeat x00 16.

Definition sample_md5 (m : list byte) : Digest := mkDigest zero16 eq_refl.

Definition sample_decrypt (key iv data : list byte) : Result (list byte) :=
  if Nat.eqb (List.length key) 32 && Nat.eqb (List.length iv) 16
     && Nat.eqb (List.length data mod 16) 0 && negb (Nat.eqb (List.length data) 0)
  then Ok (removelast data)
  else Throw (newError "bad decrypt").

(** Dates are read off decimal texts of milliseconds. *)
Definition sample_getTime (v : JsValue) : option Z :=
  match v with
  | JStr s => option_map Z.of_nat (parse_nat s)
  | JNum (S754_zero _) => Some 0%Z
  | _ => None
  end.

#[export] Instance platform : Platform := {|
  Number := fun _ => S754_zero false;
  ToString := fun _ => "";
  Buffer_from_base64 := list_byte_of_string;
  Buffer_from_utf8 := list_byte_of_string;
  Buffer_toString_utf8 := string_of_list_byte;
  md5 := sample_md5;
  aes_256_cbc_decrypt := sample_decrypt;
  Date_getTime := sample_getTime;
  path_basename := fun p => p
|}.

(** Documents [doc-001], [doc-002], ... with a [created] field. *)
Definition pad3 (n : nat) : string :=
  let s := String_of_nat n in
  match String.length s with
  | 1 => "00" ++ s
  | 2 => "0" ++ s
  | _ => s
  end.

Definition document (n : nat) : JsValue :=
  JObj [ ("name", JStr ("projects/kindroid-ai/databases/(default)/documents/Users/u/J/doc-" ++ pad3 n));
         ("fields", JObj [ ("created", JObj [("integerValue", JStr (String_of_nat n))]) ]);
         ("createTime", JStr (String_of_nat n)) ].

Definition collection (m : nat) : list JsValue := map document (seq 1 m).

(** Key tuples ordered by the decimal number in the order field. *)
Definition rank (key : list JsValue) : nat :=
  match key with
  | JObj [(_, JStr s)] :: _ =>
      match parse_nat s with Some n => n | None => 0 end
  | _ => 0
  end.

Definition sorts_before (a b : list JsValue) : bool := Nat.ltb (rank a) (rank b).

Definition headers : Headers := [("Authorization", "Bearer token")].

(** The record of the specification's decoding example. *)
Definition ada : JsValue :=
  JObj [("mapValue",
         JObj [("fields",
                JObj [ ("name", JObj [("stringValue", JStr "Ada")]);
                       ("age", JObj [("integerValue", JStr "37")]) ])])].

(** A store without the index the query needs: queries are refused,
    listing works. *)
Definition unindexed : Fetch :=
  fun request =>
    match request with
    | POST _ _ _ => Ok (mkResponse false 403 "PERMISSION_DENIED" (Ok JNull))
    | GET _ _ => list_backend 2 (collection 3) request
    end.

(** Pinned messages as the listing returns them, in no particular order. *)
Definition pinned : list JsValue := [document 3; document 1; document 2; document 1].

(** A media source that refuses URLs starting with [bad]; the disk
    accepts every write. *)
Definition world : World := {|
  fetch_media := fun _ u =>
    if String.prefix "bad" u then Throw (TypeError "fetch failed")
    else Ok (mkMedia true 200 (Ok [x00]));
  fs_writeFile := fun _ _ _ => Ok tt
|}.

Definition selfie (n : nat) : DownloadTask :=
  mkTask ("https://media/selfie_" ++ pad3 n ++ ".jpeg") ("Selfies/" ++ pad3 n ++ ".jpeg").

Definition broken : DownloadTask := mkTask "bad://url" "Selfies/broken.jpeg".

(** Fields as [JSON.parse] gives them, one of them named [__proto__]. *)
Definition fields_with_proto : list (string * JsValue) :=
  [ ("note", JObj [("stringValue", JStr "hi")]);
    ("__proto__", JObj [("stringValue", JStr "x")]);
    ("gone", JObj [("nullValue", JNull)]) ].

(** A document with a map that has lost its payload. *)
Definition broken_document : JsValue :=
  JObj [ ("name", JStr "projects/kindroid-ai/databases/(default)/documents/Users/u/AIs/k1");
         ("fields", JObj [ ("note", JObj [("stringValue", JStr "hi")]);
                           ("broken", JObj [("mapValue", JNull)]) ]) ].

Definition wire_documents : list JsValue := [document 2; document 1].

Definition packed_documents : list JsValue :=
  match packDocs wire_documents "u" with
  | Ok packed => packed
  | Throw _ => []
  end.

(** A store that always has more: every listing carries a continuation
    token and every query returns a full page. *)
Definition endless : Fetch :=
  fun request =>
    match request with
    | GET _ _ =>
        Ok (mkResponse true 200 ""
              (Ok (JObj [ ("documents", JArr [document 1]);
                          ("nextPageToken", JStr "more") ])))
    | POST _ _ _ =>
        Ok (mkResponse true 200 ""
              (Ok (JArr (repeat (JObj [("document", document 1)]) 100))))
    end.

(** A name of [n] characters. *)
Definition long_name (n : nat) : string := string_of_list_ascii (repeat "a"%char n).

(** A disk that refuses one destination; the media source serves every
    URL. *)
Definition locked_disk : World := {|
  fetch_media := fun _ _ => Ok (mkMedia true 200 (Ok [x00]));
  fs_writeFile := fun _ p _ =>
    if (p =? "Selfies/locked.jpeg")%string
    then Throw (newError "EACCES: permission denied, open 'Selfies/locked.jpeg'")
    else Ok tt
|}.

Definition locked : DownloadTask :=
  mkTask "https://media/selfie_locked.jpeg" "Selfies/locked.jpeg".

(** [n] workers resumed in turn. *)
Definition round_robin (n rounds : nat) : list nat :=
  List.concat (repeat (seq 0 n) rounds).

End Sample.

(** Strict sortedness, decided. *)
Fixpoint strictly_sorted {A} (before : A -> A -> bool) (l : list A) : bool :=
  match l with
  | [] => true
  | x :: rest => forallb (before x) rest && strictly_sorted before rest
  end.

(* ================================================================== *)
(** * Measures and invariants *)
(* ================================================================== *)

(** The size of a value: the number of its nodes. *)
Fixpoint size (v : JsValue) : nat :=
  match v with
  | JArr l => S (fold_right (fun x n => size x + n) 0 l)
  | JObj ps => S (fold_right (fun kv n => size (snd kv) + n) 0 ps)
  | _ => 1
  end.

(** The token that stands for an offset: none at the start. *)
Definition token_at (offset : nat) : JsValue :=
  match offset with
  | 0 => JStr ""
  | _ => JStr (String_of_nat offset)
  end.

Section SortOrder.
Context {P : Platform}.

(** Not later than, by the creation time read off the documents. *)
Definition earlier_or_same (a b : JsValue) : Prop := (time_of a <= time_of b)%Z.

Definition at_time (t : Z) (d : JsValue) : bool := (time_of d =? t)%Z.

End SortOrder.

(** The item a suspended worker holds. *)
Definition holding (x : Worker) : list DownloadTask :=
  match x with
  | Accessing item | Fetching item | Reading item _ | Writing item _ => [item]
  | Ready | Finished => []
  end.

Definition in_flight (st : State) : list DownloadTask := flat_map holding (workers st).

(** The items whose outcome has been counted. *)
Definition outcomes (t : list Event) : list DownloadTask :=
  flat_map (fun e => match e with
                     | Completed _ i | Failed _ i _ => [i]
                     | _ => []
                     end) t.

(** Every submitted item is in exactly one place: still in the shared
    array, held by one worker, or counted; and the counters agree with
    the events. *)
Record Accounted (items : list DownloadTask) (st : State) : Prop := {
  acc_items : Permutation items (itemsToProcess st ++ in_flight st ++ outcomes (trace st));
  acc_claims : Permutation (map snd (claims (trace st)))
                 (in_flight st ++ outcomes (trace st));
  acc_completed : completed st = List.length (succeeded (trace st));
  acc_failed : failed st = List.length (failures (trace st));
  acc_drained : existsb is_finished (workers st) = true -> itemsToProcess st = []
}.

(** How far a worker is from the loop test, in steps; the variant of a
    run counts six steps for an item still in the array. *)
Definition distance (x : Worker) : nat :=
  match x with
  | Finished => 0
  | Ready => 1
  | Writing _ _ => 2
  | Reading _ _ => 3
  | Fetching _ => 4
  | Accessing _ => 5
  end.

Definition potential (st : State) : nat :=
  6 * List.length (itemsToProcess st) + list_sum (map distance (workers st)).

(** A worker that is not in the middle of a download. *)
Definition calm (x : Worker) : Prop :=
  match x with
  | Fetching _ | Reading _ _ | Writing _ _ => False
  | _ => True
  end.

(** A run over destinations that were all there at the start. *)
Record Resumed (fs0 : list string) (st : State) : Prop := {
  res_files : forall p, file_exists fs0 p = true -> file_exists (files st) p = true;
  res_calm : Forall calm (workers st);
  res_fetched : fetched (trace st) = [];
  res_failures : failures (trace st) = []
}.

(** Files stay, and a fetch is issued only for a submitted item whose
    destination was missing at the start. *)
Record Needed (fs0 : list string) (items : list DownloadTask) (st : State) : Prop := {
  need_files : forall p, file_exists fs0 p = true -> file_exists (files st) p = true;
  need_fetched : Forall (fun item => In item items
                                     /\ file_exists fs0 (dest item) = false)
                        (fetched (trace st))
}.

(** The destination of every item counted as succeeded is on disk. *)
Definition Kept (st : State) : Prop :=
  Forall (fun item => file_exists (files st) (dest item) = true) (succeeded (trace st)).

(** The error a fetch of the item's URL ends in, if it does: what
    [fetch] throws, or [HTTP <status>] for a response that is not ok. *)
Definition fetch_error (world : World) (h : list Event) (item : DownloadTask)
  : option Error :=
  match fetch_media world h (url item) with
  | Throw e => Some e
  | Ok response =>
      if negb (media_ok response)
      then Some (newError ("HTTP " ++ String_of_nat (media_status response)))
      else None
  end.

(** The errors an attempt on an item can end in: that of the fetch, what
    reading the body of an ok response throws, and what writing the body
    to the destination throws. *)
Inductive attempt_error (world : World) (item : DownloadTask) (e : Error) : Prop :=
| fails_at_fetch (h : list Event) :
    fetch_error world h item = Some e -> attempt_error world item e
| fails_at_read (h : list Event) (response : MediaResponse) :
    fetch_media world h (url item) = Ok response ->
    media_ok response = true ->
    arrayBuffer response = Throw e ->
    attempt_error world item e
| fails_at_write (h h' : list Event) (response : MediaResponse) (buffer : list byte) :
    fetch_media world h (url item) = Ok response ->
    media_ok response = true ->
    arrayBuffer response = Ok buffer ->
    fs_writeFile world h' (dest item) buffer = Throw e ->
    attempt_error world item e.

(** An item set up to fail: whenever it is tried, the fetch throws or
    answers with a status that is not ok, or the body cannot be read, or
    the body cannot be written to the destination. *)
Definition always_fails (world : World) (item : DownloadTask) : Prop :=
  forall h,
    match fetch_media world h (url item) with
    | Throw _ => True
    | Ok response =>
        media_ok response = false
        \/ match arrayBuffer response with
           | Throw _ => True
           | Ok buffer =>
               forall h', exists e, fs_writeFile world h' (dest item) buffer = Throw e
           end
    end.

(** A schedule that resumes each of [n] workers often enough to see
    [k] items through: six resumptions an item and one more to return. *)
Definition fair (n k : nat) (schedule : list nat) : Prop :=
  forall w, w < n -> 6 * k + n < count_occ Nat.eq_dec schedule w.

(** An item that downloads: whenever tried, the fetch answers ok, the
    body can be read and the destination written. *)
Definition downloads (world : World) (item : DownloadTask) : Prop :=
  forall h, exists response buffer,
    fetch_media world h (url item) = Ok response
    /\ media_ok response = true
    /\ arrayBuffer response = Ok buffer
    /\ forall h', fs_writeFile world h' (dest item) buffer = Ok tt.

Definition task_eq_dec (a b : DownloadTask) : {a = b} + {a <> b}.
Proof. decide equality; apply string_dec. Defined.

(** A worker past the fetch holds [t0] with what a fetch of [t0] gave,
    or another item, whose body can be read and written. *)
Definition sound (world : World) (t0 : DownloadTask) (x : Worker) : Prop :=
  match x with
  | Reading item response =>
      (item = t0 ->
       exists h, fetch_media world h (url t0) = Ok response /\ media_ok response = true)
      /\ (item <> t0 ->
          exists buffer, arrayBuffer response = Ok buffer
                         /\ forall h, fs_writeFile world h (dest item) buffer = Ok tt)
  | Writing item buffer =>
      (item = t0 ->
       exists h response, fetch_media world h (url t0) = Ok response
                          /\ media_ok response = true
                          /\ arrayBuffer response = Ok buffer)
      /\ (item <> t0 -> forall h, fs_writeFile world h (dest item) buffer = Ok tt)
  | _ => True
  end.

(** A failure event is the failure of [t0], with the warning for it. *)
Definition failure_of {P : Platform} (world : World) (t0 : DownloadTask) (e : Event)
  : Prop :=
  match e with
  | Failed _ item message =>
      item = t0
      /\ exists err, attempt_error world t0 err /\ message = failure_warning t0 err
  | _ => True
  end.

(** A run in which only [t0] can fail. *)
Record Isolated {P : Platform} (world : World) (t0 : DownloadTask) (st : State)
  : Prop := {
  iso_missing : file_exists (files st) (dest t0) = false;
  iso_workers : Forall (sound world t0) (workers st);
  iso_succeeded : Forall (fun item => item <> t0) (succeeded (trace st));
  iso_failures : Forall (failure_of world t0) (trace st)
}.

(** The cases of [step], by where the worker is suspended and what it
    meets. *)
Ltac step_cases w st :=
  unfold step;
  let Hw := fresh "Hw" in
  destruct (nth_error (workers st) w) as [[|item|item|item response|item buffer|]|] eqn:Hw;
  [ let Hq := fresh "Hq" in destruct (itemsToProcess st) as [|first rest] eqn:Hq
  | let Hx := fresh "Hx" in destruct (file_exists (files st) (dest item)) eqn:Hx
  | let Hf := fresh "Hf" in
    destruct (fetch_media _ (trace st) (url item)) as [response|e] eqn:Hf;
    [ let Hok := fresh "Hok" in destruct (media_ok response) eqn:Hok; cbn [negb] | ]
  | let Hb := fresh "Hb" in destruct (arrayBuffer response) as [buffer|e] eqn:Hb
  | let Hwr := fresh "Hwr" in
    destruct (fs_writeFile _ (trace st) (dest item) buffer) as [[]|e] eqn:Hwr
  | | ].

Ltac trace_events :=
  unfold in_flight, outcomes, claims, succeeded, failures, fetched, warnings in *;
  cbn [itemsToProcess completed failed files workers trace fail complete suspend] in *;
  rewrite ?flat_map_app, ?map_app, ?length_app; cbn [flat_map map app List.length snd];
  rewrite ?app_nil_r.

(** The item of a worker that has found the destination missing. *)
Definition past_access (x : Worker) : list DownloadTask :=
  match x with
  | Fetching item | Reading item _ | Writing item _ => [item]
  | _ => []
  end.

(** Every file is one that was there at the start or the destination of a
    submitted item. *)
Definition Contained (fs0 : list string) (items : list DownloadTask) (st : State) : Prop :=
  forall p, file_exists (files st) p = true ->
            file_exists fs0 p = true \/ exists item, In item items /\ dest item = p.

(** Under a way [m] of counting items, the fetches issued are no more
    than the items that are past the access test or counted. *)
Definition FetchBound (m : list DownloadTask -> nat) (st : State) : Prop :=
  m (fetched (trace st))
  <= m (flat_map past_access (workers st)) + m (outcomes (trace st)).

(* ================================================================== *)
(** * Properties of the decoder *)
(* ================================================================== *)

Section DecoderFacts.
Context {P : Platform}.

Lemma find_prop_lookup {A} (k : string) (found : JsValue -> A) (missing : A) ps :
  find_prop k found missing ps =
  match lookup k ps with
  | Some x => found x
  | None => missing
  end.
Proof.
  unfold lookup. induction ps as [|[k' x] ps IH]; simpl; [reflexivity|].
  destruct (k' =? k)%string; [reflexivity | exact IH].
Qed.

Lemma lookup_In k ps x : lookup k ps = Some x -> In (k, x) ps.
Proof.
  unfold lookup. induction ps as [|[k' y] ps IH]; simpl; [discriminate|].
  destruct (k' =? k)%string eqn:E.
  - apply String.eqb_eq in E. intros [= ->]. left. now subst.
  - intros H. right. auto.
Qed.

Lemma decodeValue_mapValue uid m rest :
  decodeValue uid (JObj (("mapValue", JObj m) :: rest)) =
  match lookup "fields" m with
  | Some (JObj fs) => decodeFields_loop uid [] fs
  | Some (JArr l) => decodeFields_loop uid [] (indexed_from 0 l)
  | Some (JStr s) => decodeFields_loop uid [] (indexed_from 0 (chars s))
  | _ => Ok (JObj [])
  end.
Proof.
  cbn -[find_prop]. rewrite find_prop_lookup.
  destruct (lookup "fields" m) as [[]|]; try reflexivity.
  - (* a string: its characters decode to themselves *)
    generalize 0 (@nil (string * JsValue)).
    induction s as [|c s IH]; intros i out; [reflexivity|].
    cbn -[set_prop]. apply IH.
  - (* an array *)
    generalize 0 (@nil (string * JsValue)).
    induction elems as [|v l IH]; intros i out; [reflexivity|].
    cbn -[set_prop decodeValue]. destruct (decodeValue uid v); [|reflexivity].
    cbn -[set_prop decodeValue]. apply IH.
  - (* an object *)
    generalize (@nil (string * JsValue)).
    induction props as [|[k v] fs IH]; intros out; [reflexivity|].
    cbn -[set_prop decodeValue]. destruct (decodeValue uid v); [|reflexivity].
    cbn -[set_prop decodeValue]. apply IH.
Qed.

Lemma decodeValue_arrayValue uid m rest :
  decodeValue uid (JObj (("arrayValue", JObj m) :: rest)) =
  match lookup "values" m with
  | Some (JArr l) => ds <- map_decodeValue uid l ;; Ok (JArr ds)
  | Some values => map_of_non_array values
  | None => Ok (JArr [])
  end.
Proof.
  cbn -[find_prop]. rewrite find_prop_lookup.
  destruct (lookup "values" m) as [[]|]; try reflexivity.
  f_equal. induction elems as [|v l IH]; [reflexivity|].
  cbn -[decodeValue]. destruct (decodeValue uid v); [|reflexivity].
  cbn -[decodeValue]. now rewrite IH.
Qed.

Lemma size_element x l : In x l -> size x < size (JArr l).
Proof.
  induction l as [|y l IH]; simpl; [tauto|].
  intros [->|H]; [lia|]. specialize (IH H). simpl in IH. lia.
Qed.

Lemma size_property k x ps : In (k, x) ps -> size x < size (JObj ps).
Proof.
  induction ps as [|[k' y] ps IH]; simpl; [tauto|].
  intros [[= -> ->]|H]; [lia|]. specialize (IH H). simpl in IH. lia.
Qed.

Lemma decodeFields_loop_total uid fs :
  (forall k v, In (k, v) fs -> exists d, decodeValue uid v = Ok d) ->
  forall out, exists out', decodeFields_loop uid out fs = Ok (JObj out').
Proof.
  induction fs as [|[k v] fs IH]; intros Hfs out; simpl.
  - eauto.
  - destruct (Hfs k v (or_introl eq_refl)) as [d ->]. simpl.
    apply IH. intros k' v' Hin. apply (Hfs k' v'). now right.
Qed.

Lemma map_decodeValue_total uid l :
  (forall v, In v l -> exists d, decodeValue uid v = Ok d) ->
  exists ds, map_decodeValue uid l = Ok ds.
Proof.
  induction l as [|v l IH]; intros Hl; simpl.
  - eauto.
  - destruct (Hl v (or_introl eq_refl)) as [d ->].
    destruct IH as [ds ->]; [intros; apply Hl; now right|]. simpl. eauto.
Qed.

Lemma decodeValue_wire_sized uid n :
  forall v, size v < n -> wire v = true ->
  exists d, decodeValue uid v = Ok d /\ treated_as v d = true.
Proof.
  induction n as [|n IH]; intros v Hsize Hwire; [lia|].
  destruct v as [| | | | | |ps|]; try discriminate.
  destruct ps as [|[key payload] [|]]; try discriminate.
  cbn -[find_prop] in Hwire. unfold treated_as.
  destruct (key =? "nullValue")%string eqn:Enull.
  { apply String.eqb_eq in Enull. subst key. simpl. eauto. }
  destruct (key =? "booleanValue")%string eqn:Ebool.
  { apply String.eqb_eq in Ebool. subst key. simpl. eauto. }
  destruct (key =? "integerValue")%string eqn:Eint.
  { apply String.eqb_eq in Eint. subst key. simpl. eauto. }
  destruct (key =? "doubleValue")%string eqn:Edbl.
  { apply String.eqb_eq in Edbl. subst key. simpl. eauto. }
  destruct (key =? "timestampValue")%string eqn:Ets.
  { apply String.eqb_eq in Ets. subst key. simpl. eauto. }
  destruct (key =? "stringValue")%string eqn:Estr.
  { apply String.eqb_eq in Estr. subst key.
    destruct payload; try discriminate. simpl.
    destruct (startsWith s "!enc:"); [|eauto].
    destruct (decryptEncString _ uid); eauto. }
  destruct (key =? "mapValue")%string eqn:Emap.
  { apply String.eqb_eq in Emap. subst key.
    destruct payload as [| | | | | |m|]; try discriminate.
    rewrite decodeValue_mapValue. rewrite find_prop_lookup in Hwire.
    destruct (lookup "fields" m) as [fields|] eqn:Efields; [|eauto].
    destruct fields as [| | | | | |fs|]; try discriminate.
    destruct (decodeFields_loop_total uid fs) with (out := @nil (string * JsValue))
      as [out' ->]; [|eauto].
    intros k v Hin.
    destruct (IH v) as [d [Hd _]]; [| |eauto].
    - apply lookup_In in Efields.
      pose proof (size_property _ _ _ Hin). pose proof (size_property _ _ _ Efields).
      change (size (JObj [("mapValue", JObj m)])) with (S (size (JObj m) + 0)) in Hsize.
      lia.
    - rewrite forallb_forall in Hwire. apply (Hwire (k, v) Hin). }
  destruct (key =? "arrayValue")%string eqn:Earr.
  { apply String.eqb_eq in Earr. subst key.
    destruct payload as [| | | | | |m|]; try discriminate.
    rewrite decodeValue_arrayValue. rewrite find_prop_lookup in Hwire.
    destruct (lookup "values" m) as [vs|] eqn:Evalues; [|eauto].
    destruct vs as [| | | | |l| |]; try discriminate.
    destruct (map_decodeValue_total uid l) as [ds ->]; [|simpl; eauto].
    intros v Hin.
    destruct (IH v) as [d [Hd _]]; [| |eauto].
    - apply lookup_In in Evalues.
      pose proof (size_element _ _ Hin). pose proof (size_property _ _ _ Evalues).
      change (size (JObj [("arrayValue", JObj m)])) with (S (size (JObj m) + 0)) in Hsize.
      lia.
    - rewrite forallb_forall in Hwire. apply (Hwire v Hin). }
  simpl. rewrite Estr, Eint, Edbl, Ebool, Ets, Enull, Emap, Earr. eauto.
Qed.

End DecoderFacts.

Section DecoderClaims.
Context {P : Platform}.

(** C10. Applied to [null], [undefined] or anything that is not an
    object, [decodeValue] returns its argument unchanged; it does not
    throw. *)
Theorem decodeValue_passes_non_objects (uid : string) (v : JsValue) :
  nullish v = true \/ typeof v <> "object" ->
  decodeValue uid v = Ok v.
Proof.
  destruct v; intros [H|H]; try reflexivity; try discriminate H;
    exfalso; apply H; reflexivity.
Qed.

(** Every way [decryptEncString] can fail ends in [null]: too few bytes
    after base64 decoding, no [Salted__] marker, or a decipher that throws
    (wrong secret, bad padding, a body that is not a whole number of
    blocks). *)
Lemma decryptEncString_failures (opensslBase64 uid : string) :
  let raw := Buffer_from_base64 opensslBase64 in
  let '(key, iv) := evpBytesToKey (Buffer_from_utf8 uid) (subarray 8 16 raw) in
  List.length raw < 16
  \/ Buffer_toString_utf8 (subarray 0 8 raw) <> "Salted__"
  \/ (exists e, aes_256_cbc_decrypt key iv (skipn 16 raw) = Throw e) ->
  decryptEncString opensslBase64 uid = None.
Proof.
  intros raw. unfold decryptEncString. fold raw.
  destruct (evpBytesToKey _ _) as [key iv].
  intros [H|[H|[e H]]].
  - apply Nat.ltb_lt in H. now rewrite H.
  - apply String.eqb_neq in H. rewrite H, orb_true_r. reflexivity.
  - destruct (_ || _); [reflexivity|]. now rewrite H.
Qed.

(** C2. A string value that starts with [!enc:] and whose remainder
    fails to decrypt, for whatever reason, decodes to the original text,
    prefix included: not an error, not [null]; and the loop that decodes
    the enclosing record goes on with that text. *)
Theorem decodeValue_decrypt_failure_keeps_text
  (uid s : string) (rest : list (string * JsValue)) :
  startsWith s "!enc:" = true ->
  decryptEncString (slice_from 5 s) uid = None ->
  decodeValue uid (JObj (("stringValue", JStr s) :: rest)) = Ok (JStr s)
  /\ forall decoded key more,
       decodeFields_loop uid decoded
         ((key, JObj (("stringValue", JStr s) :: rest)) :: more)
       = decodeFields_loop uid (set_prop decoded key (JStr s)) more.
Proof.
  intros Hprefix Hfail.
  assert (E : decodeValue uid (JObj (("stringValue", JStr s) :: rest)) = Ok (JStr s)).
  { cbn -[slice_from startsWith]. now rewrite Hprefix, Hfail. }
  split; [exact E|].
  intros decoded key more.
  change (decodeFields_loop uid decoded
            ((key, JObj (("stringValue", JStr s) :: rest)) :: more))
    with (d <- decodeValue uid (JObj (("stringValue", JStr s) :: rest)) ;;
          decodeFields_loop uid (set_prop decoded key d) more).
  now rewrite E.
Qed.

(** C3. [decodeValue] is total on wire values: every well-formed value,
    whatever its kind, decodes to a value of the shape its kind calls
    for; a value of a kind the decoder does not interpret is returned as
    it is; and [decodeFields] decodes every record of wire values. *)
Theorem decodeValue_total (uid : string) :
  (forall v, wire v = true ->
     exists d, decodeValue uid v = Ok d /\ treated_as v d = true)
  /\ (forall key payload rest, recognized key = false ->
        decodeValue uid (JObj ((key, payload) :: rest))
        = Ok (JObj ((key, payload) :: rest)))
  /\ (forall fs, forallb (fun kv => wire (snd kv)) fs = true ->
        exists out, decodeFields (JObj fs) uid = Ok (JObj out)).
Proof.
  split; [|split].
  - intros v Hwire. apply (decodeValue_wire_sized uid (S (size v))); [lia|exact Hwire].
  - intros key payload rest Hkey. unfold recognized in Hkey. simpl in Hkey.
    repeat (apply orb_false_elim in Hkey; destruct Hkey as [? Hkey]).
    simpl.
    repeat match goal with
           | H : (key =? _)%string = false |- _ => rewrite H; clear H
           end.
    reflexivity.
  - intros fs Hfs. unfold decodeFields. simpl.
    apply decodeFields_loop_total. intros k v Hin.
    rewrite forallb_forall in Hfs. specialize (Hfs (k, v) Hin).
    destruct (decodeValue_wire_sized uid (S (size v)) v) as [d [Hd _]]; eauto.
Qed.

End DecoderClaims.

(* ================================================================== *)
(** * The key derivation and the reference algorithm *)
(* ================================================================== *)

Section DecryptionClaims.
Context {P : Platform}.

Lemma evpBytesToKey_loop_more pw salt derived digest :
  List.length derived < 48 ->
  evpBytesToKey_loop pw salt derived digest =
  evpBytesToKey_loop pw salt (derived ++ digest_bytes (md5 (digest ++ pw ++ salt)))
    (digest_bytes (md5 (digest ++ pw ++ salt))).
Proof.
  intros H. rewrite evpBytesToKey_loop_equation_1.
  destruct (lt_dec _ _); [reflexivity | contradiction].
Qed.

Lemma evpBytesToKey_loop_done pw salt derived digest :
  48 <= List.length derived ->
  evpBytesToKey_loop pw salt derived digest = derived.
Proof.
  intros H. rewrite evpBytesToKey_loop_equation_1.
  destruct (lt_dec _ _); [lia | reflexivity].
Qed.

Lemma spec_digest_length secret salt i :
  List.length (spec_digest secret salt (S i)) = 16.
Proof. simpl. apply digest_length. Qed.

Lemma spec_material_length secret salt n :
  List.length (spec_material secret salt n) = 16 * n.
Proof.
  induction n as [|n IH]; [reflexivity|].
  change (spec_material secret salt (S n))
    with (spec_material secret salt n ++ spec_digest secret salt (S n)).
  rewrite length_app, IH, spec_digest_length. lia.
Qed.

Lemma spec_rounds_three secret salt : spec_rounds secret salt 48 0 = 3.
Proof.
  do 3 (cbv beta iota delta [spec_rounds]; fold spec_rounds;
        rewrite spec_material_length;
        match goal with |- context [Nat.leb 48 ?n] =>
          replace (Nat.leb 48 n) with false by (symmetry; apply Nat.leb_gt; lia) end).
  cbv beta iota delta [spec_rounds]; fold spec_rounds.
  rewrite spec_material_length. reflexivity.
Qed.

Lemma evpBytesToKey_loop_material pw salt :
  evpBytesToKey_loop pw salt [] [] = spec_material pw salt 3.
Proof.
  pose proof (spec_material_length pw salt 1) as L1.
  pose proof (spec_material_length pw salt 2) as L2.
  pose proof (spec_material_length pw salt 3) as L3.
  rewrite evpBytesToKey_loop_more by (simpl; lia).
  change ([] ++ digest_bytes (md5 ([] ++ pw ++ salt))) with (spec_material pw salt 1).
  change (digest_bytes (md5 ([] ++ pw ++ salt))) with (spec_digest pw salt 1).
  rewrite evpBytesToKey_loop_more by lia.
  change (digest_bytes (md5 (spec_digest pw salt 1 ++ pw ++ salt)))
    with (spec_digest pw salt 2).
  change (spec_material pw salt 1 ++ spec_digest pw salt 2) with (spec_material pw salt 2).
  rewrite evpBytesToKey_loop_more by lia.
  change (digest_bytes (md5 (spec_digest pw salt 2 ++ pw ++ salt)))
    with (spec_digest pw salt 3).
  change (spec_material pw salt 2 ++ spec_digest pw salt 3) with (spec_material pw salt 3).
  apply evpBytesToKey_loop_done. lia.
Qed.

Lemma evpBytesToKey_reference pw salt : evpBytesToKey pw salt = spec_key_iv pw salt.
Proof.
  unfold evpBytesToKey, spec_key_iv.
  rewrite evpBytesToKey_loop_material, spec_rounds_three. reflexivity.
Qed.

(** C5. [decryptEncString] is the reference algorithm: without the
    eight-byte [Salted__] marker, or with fewer than sixteen bytes, it
    returns [null]; otherwise the next eight bytes are the salt, the rest
    is the body, key and IV are the first 32 and the next 16 bytes of
    [digest_1 || digest_2 || digest_3] with
    [digest_i = MD5(digest_{i-1} || secret || salt)], three being the
    first count that yields 48 bytes, and the body goes through
    AES-256-CBC with padding removal, any failure giving [null]. *)
Theorem decryptEncString_reference (opensslBase64 uid : string) :
  utf8_reads_marker_exactly ->
  decryptEncString opensslBase64 uid
  = option_map Buffer_toString_utf8
      (spec_decrypt (Buffer_from_base64 opensslBase64) (Buffer_from_utf8 uid))
  /\ forall secret salt,
       evpBytesToKey secret salt = spec_key_iv secret salt
       /\ spec_rounds secret salt 48 0 = 3
       /\ List.length (fst (evpBytesToKey secret salt)) = 32
       /\ List.length (snd (evpBytesToKey secret salt)) = 16.
Proof.
  intros Hutf8. split.
  - unfold decryptEncString, spec_decrypt.
    set (raw := Buffer_from_base64 opensslBase64).
    destruct (Nat.ltb (List.length raw) 16) eqn:Hshort.
    + apply Nat.ltb_lt in Hshort.
      replace (Nat.leb 16 (List.length raw)) with false
        by (symmetry; apply Nat.leb_gt; exact Hshort).
      reflexivity.
    + apply Nat.ltb_ge in Hshort.
      replace (Nat.leb 16 (List.length raw)) with true
        by (symmetry; apply Nat.leb_le; exact Hshort).
      change (subarray 0 8 raw) with (firstn 8 raw).
      change (subarray 8 16 raw) with (firstn 8 (skipn 8 raw)).
      rewrite Hutf8 by (rewrite length_firstn; lia).
      destruct (bytes_eqb (firstn 8 raw) Salted__); [|reflexivity].
      cbn [orb negb andb]. rewrite evpBytesToKey_reference.
      destruct (spec_key_iv _ _) as [key iv].
      destruct (aes_256_cbc_decrypt key iv (skipn 16 raw)); reflexivity.
  - intros secret salt.
    pose proof (spec_material_length secret salt 3) as L3.
    split; [apply evpBytesToKey_reference|].
    split; [apply spec_rounds_three|].
    rewrite evpBytesToKey_reference. unfold spec_key_iv.
    rewrite spec_rounds_three. cbn [fst snd].
    rewrite !length_firstn, length_skipn. lia.
Qed.

End DecryptionClaims.

(* ================================================================== *)
(** * Pagination *)
(* ================================================================== *)

Section ListingFacts.
Context {P : Platform}.

Lemma parse_String_of_nat n : parse_nat (String_of_nat n) = Some n.
Proof.
  unfold parse_nat, String_of_nat. rewrite NilEmpty.usu. simpl.
  now rewrite DecimalNat.Unsigned.of_to.
Qed.

Lemma String_of_nat_nonempty n : (String_of_nat n =? "")%string = false.
Proof.
  apply String.eqb_neq. intros H.
  pose proof (parse_String_of_nat n) as Hp. rewrite H in Hp.
  injection Hp as <-. discriminate H.
Qed.

Lemma truthy_token_at offset : truthy (token_at offset) = negb (Nat.eqb offset 0).
Proof.
  destruct offset; [reflexivity|].
  unfold token_at, truthy. now rewrite String_of_nat_nonempty.
Qed.

Lemma listAll_url_pageSize path clause token :
  params_get (url_query (listAll_url path clause token)) "pageSize"
  = Some (String_of_nat (MAX_LIST_PAGE_SIZE CONFIG)).
Proof.
  unfold listAll_url.
  destruct clause as [c|]; [destruct (negb (c =? "")%string)|];
    destruct (truthy token); reflexivity.
Qed.

Lemma listAll_url_pageToken path clause token :
  params_get (url_query (listAll_url path clause token)) "pageToken"
  = if truthy token then Some (String_of token) else None.
Proof.
  unfold listAll_url.
  destruct clause as [c|]; [destruct (negb (c =? "")%string)|];
    destruct (truthy token); reflexivity.
Qed.

(** The page the listing backend serves at an offset. *)
Lemma list_backend_page cap ds path clause headers offset :
  let size := Nat.min cap (MAX_LIST_PAGE_SIZE CONFIG) in
  let page := firstn size (skipn offset ds) in
  httpGET (list_backend cap ds) (listAll_url path clause (token_at offset)) headers
  = Ok (JObj ((match page with [] => [] | _ => [("documents", JArr page)] end)
              ++ (if Nat.ltb (offset + size) (List.length ds)
                  then [("nextPageToken", JStr (String_of_nat (offset + size)))]
                  else []))).
Proof.
  intros size page. unfold httpGET, list_backend.
  cbn [bind ok negb json].
  rewrite listAll_url_pageSize, listAll_url_pageToken, parse_String_of_nat.
  rewrite truthy_token_at.
  destruct offset as [|o]; [reflexivity|].
  cbn [Nat.eqb negb token_at String_of]. rewrite parse_String_of_nat. reflexivity.
Qed.

Lemma listAll_loop_complete cap ds path clause headers :
  1 <= cap ->
  forall fuel offset documents,
    List.length ds - offset < fuel ->
    listAll_loop (list_backend cap ds) fuel path headers clause documents
      (token_at offset)
    = Some (Ok (documents ++ skipn offset ds)).
Proof.
  intros Hcap. induction fuel as [|fuel IH]; intros offset documents Hfuel; [lia|].
  cbn [listAll_loop]. rewrite list_backend_page.
  set (size := Nat.min cap (MAX_LIST_PAGE_SIZE CONFIG)).
  assert (Hsize : 1 <= size) by (unfold size; simpl; lia).
  assert (Hsplit : firstn size (skipn offset ds) ++ skipn (offset + size) ds
                   = skipn offset ds).
  { rewrite (Nat.add_comm offset size), <- skipn_skipn. apply firstn_skipn. }
  destruct (Nat.ltb (offset + size) (List.length ds)) eqn:Hmore.
  - apply Nat.ltb_lt in Hmore.
    destruct (firstn size (skipn offset ds)) as [|d page] eqn:Hpage.
    + exfalso. apply (f_equal (@List.length _)) in Hpage.
      rewrite length_firstn, length_skipn in Hpage. simpl in Hpage. lia.
    + replace (JStr (String_of_nat (offset + size))) with (token_at (offset + size))
        by (destruct (offset + size) eqn:E; [lia|reflexivity]).
      assert (Htoken : truthy (token_at (offset + size)) = true).
      { rewrite truthy_token_at. destruct (offset + size) eqn:E; [lia|reflexivity]. }
      cbn -[token_at listAll_loop]. unfold or_else. rewrite Htoken.
      cbn -[token_at listAll_loop]. rewrite Htoken.
      rewrite IH by lia. rewrite <- app_assoc, Hsplit. reflexivity.
  - apply Nat.ltb_ge in Hmore.
    rewrite (skipn_all2 (n := offset + size)) in Hsplit by lia.
    rewrite app_nil_r in Hsplit. rewrite Hsplit.
    destruct (skipn offset ds) as [|d page]; cbn.
    + now rewrite app_nil_r.
    + reflexivity.
Qed.

End ListingFacts.

Section QueryFacts.
Context {P : Platform}.
Variable sorts_before : list JsValue -> list JsValue -> bool.
Hypothesis sorts_before_irrefl : forall a, sorts_before a a = false.
Hypothesis sorts_before_trans :
  forall a b c, sorts_before a b = true -> sorts_before b c = true ->
                sorts_before a c = true.
Variable orderField : string.

Let key := order_key (query_order orderField).
Let precedes (a b : JsValue) : Prop := sorts_before (key a) (key b) = true.

Lemma indexed_truthy d : indexed orderField d = true -> truthy d = true.
Proof. destruct d; try discriminate. reflexivity. Qed.

Lemma valueForCursor_name d :
  is_object d = true ->
  valueForCursor d "__name__" = Ok (key_component "__name__" d).
Proof. destruct d; try discriminate. reflexivity. Qed.

Lemma valueForCursor_field d :
  indexed orderField d = true ->
  valueForCursor d orderField = Ok (key_component orderField d).
Proof.
  destruct d as [| | | | | |ps|]; try discriminate.
  unfold indexed, valueForCursor, key_component. cbn [is_object andb].
  destruct (orderField =? "__name__")%string; [reflexivity|].
  cbn [orb]. unfold doc_field. cbn [get bind].
  set (fields := find_prop "fields" (fun x => x) JUndefined ps).
  destruct fields; cbn [nullish get bind]; intros H; try discriminate H;
    unfold or_else; rewrite H; reflexivity.
Qed.

Lemma runQueryAll_query_first collectionId :
  runQueryAll_query collectionId orderField JNull
  = Ok (mkQuery [collectionId] (query_order orderField) (QUERY_PAGE_SIZE CONFIG) None).
Proof. reflexivity. Qed.

Lemma runQueryAll_query_next collectionId d :
  indexed orderField d = true ->
  runQueryAll_query collectionId orderField d
  = Ok (mkQuery [collectionId] (query_order orderField) (QUERY_PAGE_SIZE CONFIG)
          (Some (mkCursor (key d) false))).
Proof.
  intros Hd. unfold runQueryAll_query.
  rewrite (indexed_truthy d Hd), (valueForCursor_field d Hd).
  rewrite valueForCursor_name by (unfold indexed in Hd; now destruct (is_object d)).
  reflexivity.
Qed.

Lemma map_document_rows page :
  map_document (map (fun d => JObj [("document", d);
                                    ("readTime", JStr "2024-01-01T00:00:00Z")]) page)
  = Ok page.
Proof.
  induction page as [|d page IH]; [reflexivity|].
  cbn -[map_document]. cbn [map_document]. cbn [get find_prop String.eqb Ascii.eqb
    Bool.eqb bind]. fold (map (fun d => JObj [("document", d);
                                    ("readTime", JStr "2024-01-01T00:00:00Z")]) page).
  now rewrite IH.
Qed.

Lemma filter_truthy_indexed page :
  forallb (indexed orderField) page = true -> filter truthy page = page.
Proof.
  induction page as [|d page IH]; [reflexivity|]. simpl.
  intros H. apply andb_prop in H. destruct H as [Hd Hpage].
  now rewrite (indexed_truthy d Hd), IH.
Qed.

(** The documents of the page the backend answers a query with. *)
Lemma query_backend_page ds parentDocPath headers q candidates :
  candidates = match startAt q with
               | None => ds
               | Some c =>
                   if before c
                   then filter (fun d => negb (sorts_before
                                  (order_key (orderBy q) d) (values c))) ds
                   else filter (fun d => sorts_before (values c)
                                  (order_key (orderBy q) d)) ds
               end ->
  forallb (indexed orderField) candidates = true ->
  (rows <- httpPOST (query_backend sorts_before ds)
             (mkUrl (firestoreUrl parentDocPath ++ ":runQuery") []) headers q ;;
   match rows with
   | JArr rs => docs <- map_document rs ;; Ok (filter truthy docs)
   | _ => Throw (TypeError "rows.map is not a function")
   end)
  = Ok (firstn (limit q) candidates).
Proof.
  intros -> Hall. unfold httpPOST, query_backend. cbn [bind ok negb json].
  set (candidates := match startAt q with None => ds | Some _ => _ end) in *.
  assert (Hpage : forallb (indexed orderField) (firstn (limit q) candidates) = true).
  { rewrite forallb_forall in *. intros d Hd. apply Hall.
    rewrite <- (firstn_skipn (limit q) candidates). apply in_or_app. now left. }
  unfold rows_of. destruct (firstn (limit q) candidates) as [|d page] eqn:E.
  - reflexivity.
  - rewrite map_document_rows. cbn [bind]. now rewrite filter_truthy_indexed.
Qed.

(** Strictly sorted documents: those that sort after one of them are the
    ones that follow it. *)
Lemma sorted_after pre d rest :
  StronglySorted precedes (pre ++ d :: rest) ->
  filter (fun x => sorts_before (key d) (key x)) (pre ++ d :: rest) = rest.
Proof.
  induction pre as [|p pre IH]; intros Hs; simpl.
  - rewrite sorts_before_irrefl.
    apply StronglySorted_inv in Hs. destruct Hs as [_ Hd].
    induction rest as [|r rest IHr]; [reflexivity|]. simpl.
    inversion Hd as [|? ? Hr Hrest]; subst. unfold precedes in Hr. rewrite Hr.
    f_equal. now apply IHr.
  - apply StronglySorted_inv in Hs. destruct Hs as [Hs Hp].
    assert (Hpd : precedes p d).
    { rewrite Forall_forall in Hp. apply Hp. apply in_or_app. right. now left. }
    destruct (sorts_before (key d) (key p)) eqn:E.
    + exfalso. pose proof (sorts_before_trans _ _ _ E Hpd) as H.
      now rewrite sorts_before_irrefl in H.
    + now apply IH.
Qed.

Lemma sorted_NoDup ds : StronglySorted precedes ds -> NoDup ds.
Proof.
  induction 1 as [|d ds Hs IH Hd]; constructor; [|exact IH].
  intros Hin. rewrite Forall_forall in Hd. specialize (Hd d Hin).
  unfold precedes in Hd. now rewrite sorts_before_irrefl in Hd.
Qed.

(** The loop of [runQueryAll] with the documents [pre] fetched so far,
    [rest] still to come, and the last document of [pre] as cursor. *)
Lemma runQueryAll_loop_complete parentDocPath collectionId headers ds :
  StronglySorted precedes ds ->
  forallb (indexed orderField) ds = true ->
  forall fuel pre rest,
    ds = pre ++ rest ->
    List.length rest < fuel ->
    runQueryAll_loop (query_backend sorts_before ds) fuel parentDocPath collectionId
      headers orderField pre (last pre JNull)
    = Some (Ok ds).
Proof.
  intros Hsorted Hindexed.
  assert (Hlimit : 1 <= QUERY_PAGE_SIZE CONFIG) by (simpl; lia).
  induction fuel as [|fuel IH]; intros pre rest Hds Hfuel; [lia|].
  assert (Hrest : forallb (indexed orderField) rest = true).
  { rewrite forallb_forall in *. intros d Hd. apply Hindexed. subst ds.
    apply in_or_app. now right. }
  assert (Hpage : runQueryAll_page (query_backend sorts_before ds) parentDocPath
                    collectionId headers orderField (last pre JNull)
                  = Ok (firstn (QUERY_PAGE_SIZE CONFIG) rest)).
  { unfold runQueryAll_page.
    destruct pre as [|p pre'] using rev_ind.
    - cbn [last]. rewrite runQueryAll_query_first. cbn [bind].
      simpl in Hds. subst rest.
      rewrite (query_backend_page ds parentDocPath headers _ ds);
        [reflexivity | reflexivity | exact Hindexed].
    - rewrite last_last. clear IHpre'.
      assert (Hp : indexed orderField p = true).
      { rewrite forallb_forall in Hindexed. apply Hindexed. subst ds.
        apply in_or_app. left. apply in_or_app. right. now left. }
      rewrite (runQueryAll_query_next collectionId p Hp). cbn [bind].
      rewrite (query_backend_page ds parentDocPath headers _ rest); try reflexivity.
      + cbn [startAt before values orderBy]. fold key.
        subst ds. rewrite <- app_assoc. simpl app.
        symmetry. apply sorted_after. rewrite <- app_assoc in Hsorted. exact Hsorted.
      + exact Hrest. }
  cbn [runQueryAll_loop]. rewrite Hpage.
  set (n := QUERY_PAGE_SIZE CONFIG) in *.
  destruct rest as [|r rest'].
  - rewrite firstn_nil. cbn. subst ds. now rewrite app_nil_r.
  - assert (Hlen : List.length (firstn n (r :: rest')) = Nat.min n (List.length (r :: rest')))
      by apply length_firstn.
    change (List.length (r :: rest')) with (S (List.length rest')) in Hlen, Hfuel.
    clearbody n.
    destruct (Nat.eqb (List.length (firstn n (r :: rest'))) 0) eqn:E0.
    { apply Nat.eqb_eq in E0. lia. }
    destruct (Nat.ltb (List.length (firstn n (r :: rest'))) n) eqn:Elt.
    + apply Nat.ltb_lt in Elt.
      rewrite firstn_all2 by (change (List.length (r :: rest')) with (S (List.length rest')); lia).
      now subst ds.
    + apply Nat.ltb_ge in Elt.
      assert (Hne : firstn n (r :: rest') <> []).
      { intros H. rewrite H in Hlen. simpl in Hlen. lia. }
      replace (last (firstn n (r :: rest')) JUndefined)
        with (last (pre ++ firstn n (r :: rest')) JNull).
      * apply (IH _ (skipn n (r :: rest'))).
        -- rewrite <- app_assoc, firstn_skipn. exact Hds.
        -- rewrite length_skipn.
           change (List.length (r :: rest')) with (S (List.length rest')). lia.
      * destruct (exists_last Hne) as [front [z Hz]]. rewrite Hz.
        now rewrite app_assoc, !last_last.
Qed.

End QueryFacts.

Section PaginationClaims.
Context {P : Platform}.

(** C1. Over a collection of M documents held in ascending order of
    (order field, name), both strategies return the M documents, each
    once and in that order, however many pages it takes: [runQueryAll]
    against the query endpoint, which it asks for pages of
    [QUERY_PAGE_SIZE] starting after the last document received, and
    [listAll] against the listing endpoint, whose continuation tokens it
    follows.  [runQueryAll] stops at the first page with fewer documents
    than it asked for; the query it posts after a page is ordered by
    (order field, name) ascending and starts after the key of the last
    document received. *)
Theorem pagination_complete
  (sorts_before : list JsValue -> list JsValue -> bool) (orderField : string)
  (ds : list JsValue) (cap fuel : nat)
  (parentDocPath collectionId collectionPath : string) (headers : Headers)
  (orderByClause : option string) :
  (forall a, sorts_before a a = false) ->
  (forall a b c, sorts_before a b = true -> sorts_before b c = true ->
                 sorts_before a c = true) ->
  StronglySorted
    (fun a b => sorts_before (order_key (query_order orderField) a)
                             (order_key (query_order orderField) b) = true) ds ->
  forallb (indexed orderField) ds = true ->
  1 <= cap ->
  List.length ds < fuel ->
  runQueryAll (query_backend sorts_before ds) fuel parentDocPath collectionId headers
    orderField = Some (Ok ds)
  /\ listAll (list_backend cap ds) fuel collectionPath headers orderByClause
     = Some (Ok ds)
  /\ NoDup ds
  /\ (forall fetch documents lastDoc page,
        runQueryAll_page fetch parentDocPath collectionId headers orderField lastDoc
        = Ok page ->
        List.length page < QUERY_PAGE_SIZE CONFIG ->
        runQueryAll_loop fetch 1 parentDocPath collectionId headers orderField
          documents lastDoc
        = Some (Ok (documents ++ page)))
  /\ (forall lastDoc, indexed orderField lastDoc = true ->
        runQueryAll_query collectionId orderField lastDoc
        = Ok (mkQuery [collectionId] (query_order orderField) (QUERY_PAGE_SIZE CONFIG)
                (Some (mkCursor (order_key (query_order orderField) lastDoc) false)))).
Proof.
  intros Hirrefl Htrans Hsorted Hindexed Hcap Hfuel.
  split; [|split; [|split; [|split]]];
    [ | | | | intros lastDoc Hlast; now apply runQueryAll_query_next ].
  - unfold runQueryAll.
    apply (runQueryAll_loop_complete sorts_before Hirrefl Htrans orderField
             parentDocPath collectionId headers ds Hsorted Hindexed fuel [] ds);
      [reflexivity | exact Hfuel].
  - unfold listAll.
    apply (listAll_loop_complete cap ds collectionPath orderByClause headers Hcap
             fuel 0 []). lia.
  - apply (sorted_NoDup sorts_before Hirrefl orderField ds Hsorted).
  - intros fetch documents lastDoc page Hpage Hshort.
    cbn [runQueryAll_loop]. rewrite Hpage.
    destruct page as [|d page].
    + cbn. now rewrite app_nil_r.
    + apply Nat.ltb_lt in Hshort. rewrite Hshort. reflexivity.
Qed.

End PaginationClaims.

(* ================================================================== *)
(** * The client-side sort of pinned messages *)
(* ================================================================== *)

Section SortingClaims.
Context {P : Platform}.

Lemma dated_not_undefined d : dated d = true -> is_undefined d = false.
Proof. destruct d; try reflexivity. discriminate. Qed.

Lemma compare_createTime_dated a b :
  dated a = true -> dated b = true ->
  compare_createTime a b = Ok (Some (time_of a - time_of b)%Z).
Proof.
  unfold dated, time_of, createTime_ms, compare_createTime. intros Ha Hb.
  destruct (get a "createTime"); [|discriminate]. cbn [bind].
  destruct (get b "createTime"); [|discriminate]. cbn [bind].
  destruct (Date_getTime _); [|discriminate].
  destruct (Date_getTime _); [|discriminate]. reflexivity.
Qed.

Lemma sort_insert_dated x l :
  dated x = true -> forallb dated l = true ->
  exists r, sort_insert compare_createTime x l = Ok r
    /\ Permutation (x :: l) r
    /\ (StronglySorted earlier_or_same l -> StronglySorted earlier_or_same r)
    /\ (forall t, filter (at_time t) r = filter (at_time t) (x :: l)).
Proof.
  intros Hx. induction l as [|y l IH]; intros Hl.
  - exists [x]. repeat split; auto. intros _. repeat constructor.
  - simpl in Hl. apply andb_prop in Hl. destruct Hl as [Hy Hl].
    cbn [sort_insert]. rewrite (compare_createTime_dated x y Hx Hy). cbn [bind sorts_after].
    destruct (0 <? time_of x - time_of y)%Z eqn:E.
    + apply Z.ltb_lt in E.
      destruct (IH Hl) as [r [-> [Hperm [Hsorted Hstable]]]]. cbn [bind].
      exists (y :: r). split; [reflexivity|]. split; [|split].
      * rewrite perm_swap. now constructor.
      * intros Hs. apply StronglySorted_inv in Hs. destruct Hs as [Hs Hall].
        constructor; [now apply Hsorted|].
        apply (Permutation_Forall Hperm). constructor; [|exact Hall].
        unfold earlier_or_same. lia.
      * intros t. cbn [filter]. rewrite Hstable. cbn [filter].
        assert (Hxy : at_time t y = true -> at_time t x = false).
        { unfold at_time. intros H. apply Z.eqb_eq in H. apply Z.eqb_neq. lia. }
        destruct (at_time t y); destruct (at_time t x); try reflexivity.
        specialize (Hxy eq_refl). discriminate Hxy.
    + apply Z.ltb_ge in E.
      exists (x :: y :: l). split; [reflexivity|]. split; [reflexivity|]. split; [|reflexivity].
      intros Hs. constructor; [exact Hs|].
      apply StronglySorted_inv in Hs. destruct Hs as [_ Hall].
      constructor; [unfold earlier_or_same; lia|].
      eapply Forall_impl; [|exact Hall]. unfold earlier_or_same. intros; lia.
Qed.

Lemma sort_defined_dated l :
  forallb dated l = true ->
  exists r, sort_defined compare_createTime l = Ok r
    /\ Permutation l r
    /\ StronglySorted earlier_or_same r
    /\ (forall t, filter (at_time t) r = filter (at_time t) l).
Proof.
  induction l as [|x l IH]; intros Hl.
  - exists []. repeat split; auto. constructor.
  - simpl in Hl. apply andb_prop in Hl. destruct Hl as [Hx Hl].
    destruct (IH Hl) as [s [Hs [Hperm [Hsorted Hstable]]]].
    cbn [sort_defined]. rewrite Hs. cbn [bind].
    assert (Hds : forallb dated s = true).
    { rewrite forallb_forall in *. intros d Hd. apply Hl.
      apply (Permutation_in d (Permutation_sym Hperm) Hd). }
    destruct (sort_insert_dated x s Hx Hds) as [r [-> [Hperm' [Hsorted' Hstable']]]].
    exists r. split; [reflexivity|]. split; [|split].
    + rewrite <- Hperm'. now constructor.
    + now apply Hsorted'.
    + intros t. rewrite Hstable'. cbn [filter]. now rewrite Hstable.
Qed.

(** C8. Pinned messages are fetched by plain listing, without an order
    clause, and then always sorted on the client: for documents with a
    readable creation time the result is a permutation of what the
    listing returned, in non-decreasing creation time, documents of equal
    creation time keeping their order. *)
Theorem pinned_messages_sorted (fetch : Fetch) (fuel : nat) (path : string)
  (headers : Headers) (docs : list JsValue) :
  listAll fetch fuel (path ++ "/PinnedMessages") headers None = Some (Ok docs) ->
  forallb dated docs = true ->
  exists sorted,
    export_pinnedDocs fetch fuel path headers = Some (Ok sorted)
    /\ sortByCreateTimeAsc docs = Ok sorted
    /\ Permutation docs sorted
    /\ StronglySorted earlier_or_same sorted
    /\ (forall t, filter (at_time t) sorted = filter (at_time t) docs)
    /\ (forall token,
          params_get (url_query (listAll_url (path ++ "/PinnedMessages") None token))
            "orderBy" = None).
Proof.
  intros Hlist Hdated.
  assert (Hdef : filter (fun v => negb (is_undefined v)) docs = docs).
  { clear Hlist. induction docs as [|d docs IH]; [reflexivity|].
    simpl in Hdated. apply andb_prop in Hdated. destruct Hdated as [Hd Hdocs].
    cbn [filter]. rewrite (dated_not_undefined d Hd). cbn [negb]. now rewrite IH. }
  assert (Hundef : filter is_undefined docs = []).
  { clear Hlist Hdef. induction docs as [|d docs IH]; [reflexivity|].
    simpl in Hdated. apply andb_prop in Hdated. destruct Hdated as [Hd Hdocs].
    cbn [filter]. rewrite (dated_not_undefined d Hd). now apply IH. }
  destruct (sort_defined_dated docs Hdated) as [sorted [Hs [Hperm [Hsorted Hstable]]]].
  assert (Hsort : sortByCreateTimeAsc docs = Ok sorted).
  { unfold sortByCreateTimeAsc, Array_sort. rewrite Hdef, Hundef, Hs. cbn [bind].
    now rewrite app_nil_r. }
  exists sorted. unfold export_pinnedDocs. rewrite Hlist, Hsort.
  repeat split; auto.
  intros token. unfold listAll_url. destruct (truthy token); reflexivity.
Qed.

End SortingClaims.

(* ================================================================== *)
(** * The download worker pool *)
(* ================================================================== *)

Section PoolFacts.
Context {P : Platform}.
Variable world : World.

Lemma set_worker_length ws w x : List.length (set_worker ws w x) = List.length ws.
Proof.
  revert w. induction ws as [|y ws IH]; intros [|w]; simpl; auto.
Qed.

Lemma set_worker_holding ws w old x :
  nth_error ws w = Some old ->
  Permutation (holding old ++ flat_map holding (set_worker ws w x))
              (holding x ++ flat_map holding ws).
Proof.
  revert w. induction ws as [|y ws IH]; intros [|w]; simpl; try discriminate.
  - intros [= ->]. apply Permutation_app_swap_app.
  - intros Hw. rewrite Permutation_app_swap_app, (IH w Hw).
    apply Permutation_app_swap_app.
Qed.

Lemma set_worker_keeps ws w old x :
  nth_error ws w = Some old -> holding old = holding x ->
  Permutation (flat_map holding (set_worker ws w x)) (flat_map holding ws).
Proof.
  intros Hw Hx. pose proof (set_worker_holding ws w old x Hw) as H.
  rewrite Hx in H. now apply Permutation_app_inv_l in H.
Qed.

Lemma set_worker_finished ws w x :
  existsb is_finished (set_worker ws w x) = true ->
  is_finished x = true \/ existsb is_finished ws = true.
Proof.
  revert w. induction ws as [|y ws IH]; intros [|w]; simpl; auto.
  - intros H. apply orb_prop in H. destruct H as [H|H]; [now left|].
    right. rewrite H. apply orb_true_r.
  - intros H. apply orb_prop in H. destruct H as [H|H].
    + right. now rewrite H.
    + destruct (IH w H) as [Hx|Hws]; [now left|]. right. rewrite Hws. apply orb_true_r.
Qed.

Lemma set_worker_Forall (Q : Worker -> Prop) ws w x :
  Forall Q ws -> Q x -> Forall Q (set_worker ws w x).
Proof.
  intros Hws Hx. revert w. induction Hws as [|y ws Hy Hws IH]; intros [|w]; simpl;
    constructor; auto.
Qed.

Lemma nth_error_Forall (Q : Worker -> Prop) ws w x :
  Forall Q ws -> nth_error ws w = Some x -> Q x.
Proof.
  intros Hws Hw. rewrite Forall_forall in Hws. apply Hws.
  eapply nth_error_In; eauto.
Qed.

Lemma pop_last (q : list DownloadTask) first rest :
  q = first :: rest -> q = removelast q ++ [last q first].
Proof. intros Hq. apply app_removelast_last. now rewrite Hq. Qed.

Lemma released (item : DownloadTask) held counted :
  Permutation ((item :: held) ++ counted) (held ++ counted ++ [item]).
Proof. cbn [app]. rewrite app_assoc. apply Permutation_cons_append. Qed.

Lemma step_accounted items w st :
  Accounted items st -> Accounted items (step world w st).
Proof.
  intros [Hitems Hclaims Hcompleted Hfailed Hdrained].
  step_cases w st; try (constructor; assumption).
  - (* the array is empty: the worker returns *)
    constructor; trace_events; rewrite ?Hq; auto; try lia.
    + now rewrite (set_worker_keeps _ _ _ Finished Hw eq_refl).
    + now rewrite (set_worker_keeps _ _ _ Finished Hw eq_refl).
  - (* an item is popped *)
    pose proof (set_worker_holding (workers st) w Ready
                  (Accessing (last (first :: rest) first)) Hw) as Hset.
    cbn [holding app] in Hset.
    constructor; trace_events; auto; try lia.
    + rewrite Hset. rewrite Hitems.
      rewrite (pop_last (first :: rest) first rest eq_refl) at 1.
      rewrite <- app_assoc. apply Permutation_app_head. reflexivity.
    + rewrite Hset, Hclaims. cbn [app]. symmetry. apply Permutation_cons_append.
    + intros Hfin. apply set_worker_finished in Hfin.
      destruct Hfin as [Hfin|Hfin]; [discriminate|].
      specialize (Hdrained Hfin). discriminate.
  - (* the destination exists *)
    pose proof (set_worker_holding (workers st) w (Accessing item) Ready Hw) as Hset.
    cbn [holding app] in Hset.
    constructor; trace_events; auto; try lia.
    + rewrite Hitems, <- Hset. apply Permutation_app_head. apply released.
    + rewrite Hclaims, <- Hset. apply released.
    + intros Hfin. apply set_worker_finished in Hfin.
      destruct Hfin as [Hfin|Hfin]; [discriminate|auto].
  - (* the destination is missing: fetch *)
    constructor; trace_events; auto; try lia.
    + now rewrite (set_worker_keeps _ _ _ (Fetching item) Hw eq_refl).
    + now rewrite (set_worker_keeps _ _ _ (Fetching item) Hw eq_refl).
    + intros Hfin. apply set_worker_finished in Hfin.
      destruct Hfin as [Hfin|Hfin]; [discriminate|auto].
  - (* the response is ok *)
    constructor; trace_events; auto; try lia.
    + now rewrite (set_worker_keeps _ _ _ (Reading item response) Hw eq_refl).
    + now rewrite (set_worker_keeps _ _ _ (Reading item response) Hw eq_refl).
    + intros Hfin. apply set_worker_finished in Hfin.
      destruct Hfin as [Hfin|Hfin]; [discriminate|auto].
  - (* the response is not ok *)
    pose proof (set_worker_holding (workers st) w (Fetching item) Ready Hw) as Hset.
    cbn [holding app] in Hset.
    constructor; trace_events; auto; try lia.
    + rewrite Hitems, <- Hset. apply Permutation_app_head. apply released.
    + rewrite Hclaims, <- Hset. apply released.
    + intros Hfin. apply set_worker_finished in Hfin.
      destruct Hfin as [Hfin|Hfin]; [discriminate|auto].
  - (* fetch throws *)
    pose proof (set_worker_holding (workers st) w (Fetching item) Ready Hw) as Hset.
    cbn [holding app] in Hset.
    constructor; trace_events; auto; try lia.
    + rewrite Hitems, <- Hset. apply Permutation_app_head. apply released.
    + rewrite Hclaims, <- Hset. apply released.
    + intros Hfin. apply set_worker_finished in Hfin.
      destruct Hfin as [Hfin|Hfin]; [discriminate|auto].
  - (* the body is read *)
    constructor; trace_events; auto; try lia.
    + now rewrite (set_worker_keeps _ _ _ (Writing item buffer) Hw eq_refl).
    + now rewrite (set_worker_keeps _ _ _ (Writing item buffer) Hw eq_refl).
    + intros Hfin. apply set_worker_finished in Hfin.
      destruct Hfin as [Hfin|Hfin]; [discriminate|auto].
  - (* reading the body throws *)
    pose proof (set_worker_holding (workers st) w (Reading item response) Ready Hw) as Hset.
    cbn [holding app] in Hset.
    constructor; trace_events; auto; try lia.
    + rewrite Hitems, <- Hset. apply Permutation_app_head. apply released.
    + rewrite Hclaims, <- Hset. apply released.
    + intros Hfin. apply set_worker_finished in Hfin.
      destruct Hfin as [Hfin|Hfin]; [discriminate|auto].
  - (* the file is written *)
    pose proof (set_worker_holding (workers st) w (Writing item buffer) Ready Hw) as Hset.
    cbn [holding app] in Hset.
    constructor; trace_events; auto; try lia.
    + rewrite Hitems, <- Hset. apply Permutation_app_head. apply released.
    + rewrite Hclaims, <- Hset. apply released.
    + intros Hfin. apply set_worker_finished in Hfin.
      destruct Hfin as [Hfin|Hfin]; [discriminate|auto].
  - (* writing throws *)
    pose proof (set_worker_holding (workers st) w (Writing item buffer) Ready Hw) as Hset.
    cbn [holding app] in Hset.
    constructor; trace_events; auto; try lia.
    + rewrite Hitems, <- Hset. apply Permutation_app_head. apply released.
    + rewrite Hclaims, <- Hset. apply released.
    + intros Hfin. apply set_worker_finished in Hfin.
      destruct Hfin as [Hfin|Hfin]; [discriminate|auto].
Qed.

End PoolFacts.

Section PoolRuns.
Context {P : Platform}.
Variable world : World.

Lemma run_accounted items schedule :
  forall st, Accounted items st -> Accounted items (run world schedule st).
Proof.
  induction schedule as [|w schedule IH]; intros st Hst; [exact Hst|].
  apply IH. now apply step_accounted.
Qed.

Lemma in_flight_repeat_Ready n : flat_map holding (repeat Ready n) = [].
Proof. induction n; simpl; auto. Qed.

Lemma start_accounted n fs items : Accounted items (start n fs items).
Proof.
  constructor; unfold in_flight; cbn [start itemsToProcess workers trace completed failed].
  - rewrite in_flight_repeat_Ready. cbn. now rewrite app_nil_r.
  - rewrite in_flight_repeat_Ready. reflexivity.
  - reflexivity.
  - reflexivity.
  - intros H. exfalso. induction n; simpl in H; [discriminate|auto].
Qed.

Lemma step_workers_length w st :
  List.length (workers (step world w st)) = List.length (workers st).
Proof.
  unfold step.
  destruct (nth_error (workers st) w) as [[| | | | |]|]; try reflexivity;
    repeat match goal with
           | |- context [match ?x with _ => _ end] => destruct x
           end;
    cbn [workers fail complete suspend]; apply set_worker_length.
Qed.

Lemma run_workers_length schedule :
  forall st, List.length (workers (run world schedule st)) = List.length (workers st).
Proof.
  induction schedule as [|w schedule IH]; intros st; [reflexivity|].
  cbn [run fold_left]. fold (run world schedule (step world w st)).
  now rewrite IH, step_workers_length.
Qed.

Lemma all_finished_idle st :
  all_finished st = true -> in_flight st = [].
Proof.
  unfold all_finished, in_flight. induction (workers st) as [|x ws IH]; [reflexivity|].
  simpl. intros H. apply andb_prop in H. destruct H as [Hx Hws].
  destruct x; try discriminate. now apply IH.
Qed.

Lemma all_finished_some st :
  1 <= List.length (workers st) -> all_finished st = true ->
  existsb is_finished (workers st) = true.
Proof.
  unfold all_finished. destruct (workers st) as [|x ws]; simpl; [lia|].
  intros _ H. apply andb_prop in H. destruct H as [-> _]. reflexivity.
Qed.

Lemma outcomes_length t :
  List.length (outcomes t) = List.length (succeeded t) + List.length (failures t).
Proof.
  unfold outcomes, succeeded, failures.
  induction t as [|[] t IH]; cbn [flat_map app List.length]; lia.
Qed.

Lemma outcomes_split t : Permutation (succeeded t ++ failures t) (outcomes t).
Proof.
  unfold outcomes, succeeded, failures.
  induction t as [|[] t IH]; cbn [flat_map app]; auto.
  rewrite <- IH. symmetry. apply Permutation_middle.
Qed.

(** What holds when the pool has come to rest. *)
Lemma accounted_at_rest items st :
  Accounted items st ->
  1 <= List.length (workers st) ->
  all_finished st = true ->
  completed st + failed st = List.length items
  /\ Permutation (map snd (claims (trace st))) items
  /\ Permutation (succeeded (trace st) ++ failures (trace st)) items
  /\ itemsToProcess st = [].
Proof.
  intros [Hitems Hclaims Hcompleted Hfailed Hdrained] Hn Hfin.
  pose proof (Hdrained (all_finished_some st Hn Hfin)) as Hq.
  rewrite (all_finished_idle st Hfin) in Hitems, Hclaims.
  rewrite Hq in Hitems. cbn [app] in Hitems, Hclaims.
  repeat split.
  - rewrite Hcompleted, Hfailed, <- outcomes_length.
    symmetry. now apply Permutation_length.
  - now rewrite Hclaims.
  - now rewrite outcomes_split.
  - exact Hq.
Qed.

Lemma set_worker_distance ws w old x :
  nth_error ws w = Some old ->
  list_sum (map distance (set_worker ws w x)) + distance old
  = list_sum (map distance ws) + distance x.
Proof.
  revert w. induction ws as [|y ws IH]; intros [|w]; simpl; try discriminate.
  - intros [= ->]. lia.
  - intros Hw. specialize (IH w Hw). lia.
Qed.

(** A worker that has not returned makes progress when resumed. *)
Lemma step_potential w st x :
  nth_error (workers st) w = Some x -> is_finished x = false ->
  potential (step world w st) < potential st.
Proof.
  intros Hw Hx. unfold step. rewrite Hw. unfold potential.
  destruct x; try discriminate.
  - (* at the loop test *)
    destruct (itemsToProcess st) as [|d l] eqn:Hq.
    + pose proof (set_worker_distance (workers st) w _ Finished Hw) as Hd.
      cbn [itemsToProcess workers suspend distance] in *. rewrite Hq. lia.
    + pose proof (set_worker_distance (workers st) w _
                    (Accessing (last (d :: l) d)) Hw) as Hd.
      assert (Hlen : List.length (removelast (d :: l)) = List.length l).
      { pose proof (app_removelast_last (l := d :: l) d) as E.
        specialize (E ltac:(discriminate)).
        apply (f_equal (@List.length _)) in E. rewrite length_app in E.
        cbn [List.length] in E. lia. }
      cbn [itemsToProcess workers distance] in *. rewrite Hlen.
      cbn [List.length]. lia.
  - destruct (file_exists _ _); cbn [itemsToProcess workers fail complete suspend];
      match goal with
      | |- context [set_worker _ _ ?new] =>
          pose proof (set_worker_distance (workers st) w _ new Hw) as Hd
      end; cbn [itemsToProcess workers complete distance] in *; lia.
  - destruct (fetch_media _ _ _) as [r|e]; [destruct (negb (media_ok r))|];
      cbn [itemsToProcess workers fail complete suspend];
      match goal with
      | |- context [set_worker _ _ ?new] =>
          pose proof (set_worker_distance (workers st) w _ new Hw) as Hd
      end; cbn [itemsToProcess workers fail suspend distance] in *; lia.
  - destruct (arrayBuffer _); cbn [itemsToProcess workers fail complete suspend];
      match goal with
      | |- context [set_worker _ _ ?new] =>
          pose proof (set_worker_distance (workers st) w _ new Hw) as Hd
      end; cbn [itemsToProcess workers fail suspend distance] in *; lia.
  - destruct (fs_writeFile _ _ _ _); cbn [itemsToProcess workers fail complete suspend];
      match goal with
      | |- context [set_worker _ _ ?new] =>
          pose proof (set_worker_distance (workers st) w _ new Hw) as Hd
      end; cbn [itemsToProcess workers fail complete distance] in *; lia.
Qed.

Lemma step_potential_le w st : potential (step world w st) <= potential st.
Proof.
  destruct (nth_error (workers st) w) as [x|] eqn:Hw.
  - destruct (is_finished x) eqn:Hx.
    + destruct x; try discriminate. unfold step. now rewrite Hw.
    + apply Nat.lt_le_incl. eapply step_potential; eauto.
  - unfold step. now rewrite Hw.
Qed.

Lemma set_worker_other ws v w x :
  v <> w -> nth_error (set_worker ws v x) w = nth_error ws w.
Proof.
  revert v w. induction ws as [|y ws IH]; intros [|v] [|w] H; simpl; auto;
    try contradiction.
Qed.

Lemma step_finished_stays v w st :
  nth_error (workers st) w = Some Finished ->
  nth_error (workers (step world v st)) w = Some Finished.
Proof.
  intros Hw. destruct (Nat.eq_dec v w) as [->|Hv].
  - unfold step. now rewrite Hw.
  - unfold step.
    destruct (nth_error (workers st) v) as [[| | | | |]|]; try exact Hw;
      repeat match goal with
             | |- context [match ?y with _ => _ end] => destruct y
             end;
      cbn [workers fail complete suspend]; now rewrite set_worker_other.
Qed.

Lemma run_finished_stays schedule w :
  forall st, nth_error (workers st) w = Some Finished ->
             nth_error (workers (run world schedule st)) w = Some Finished.
Proof.
  induction schedule as [|v schedule IH]; intros st Hw; [exact Hw|].
  apply IH. now apply step_finished_stays.
Qed.

(** A worker resumed more often than the potential allows has returned. *)
Lemma resumed_enough schedule w :
  forall st,
    w < List.length (workers st) ->
    potential st < count_occ Nat.eq_dec schedule w ->
    nth_error (workers (run world schedule st)) w = Some Finished.
Proof.
  induction schedule as [|v schedule IH]; intros st Hw Hcount; [simpl in Hcount; lia|].
  cbn [run fold_left]. fold (run world schedule (step world v st)).
  destruct (nth_error (workers st) w) as [x|] eqn:Hx;
    [|apply nth_error_None in Hx; lia].
  destruct (is_finished x) eqn:Hfin.
  - destruct x; try discriminate.
    apply run_finished_stays. now apply step_finished_stays.
  - apply IH; [now rewrite step_workers_length|].
    cbn [count_occ] in Hcount. destruct (Nat.eq_dec v w) as [->|Hv].
    + pose proof (step_potential w st x Hx Hfin). lia.
    + pose proof (step_potential_le v st). lia.
Qed.

Lemma fair_schedule_finishes schedule st :
  (forall w, w < List.length (workers st) ->
             potential st < count_occ Nat.eq_dec schedule w) ->
  all_finished (run world schedule st) = true.
Proof.
  intros Hfair. unfold all_finished. apply forallb_forall. intros x Hx.
  apply In_nth_error in Hx. destruct Hx as [w Hw].
  assert (Hlt : w < List.length (workers st)).
  { rewrite <- (run_workers_length schedule st). apply nth_error_Some. now rewrite Hw. }
  rewrite (resumed_enough schedule w st Hlt (Hfair w Hlt)) in Hw.
  now injection Hw as <-.
Qed.

Lemma start_potential n fs items :
  potential (start n fs items) = 6 * List.length items + n.
Proof.
  unfold potential. cbn [start itemsToProcess workers]. f_equal.
  induction n; simpl; auto.
Qed.

End PoolRuns.

Section PoolReturns.
Context {P : Platform}.
Variable world : World.

Lemma run_no_workers schedule fs items :
  run world schedule (start 0 fs items) = start 0 fs items.
Proof.
  induction schedule as [|w schedule IH]; [reflexivity|].
  change (run world (w :: schedule) (start 0 fs items))
    with (run world schedule (step world w (start 0 fs items))).
  replace (step world w (start 0 fs items)) with (start 0 fs items); [exact IH|].
  unfold step. cbn [start workers]. now destruct w.
Qed.

Lemma fair_pool_finishes n fs items schedule :
  fair n (List.length items) schedule ->
  all_finished (run world schedule (start n fs items)) = true.
Proof.
  intros Hfair. apply fair_schedule_finishes.
  cbn [start workers]. rewrite repeat_length, start_potential. exact Hfair.
Qed.

Lemma pool_size_positive items : items <> [] -> 1 <= pool_size items.
Proof.
  intros Hne. unfold pool_size. change (DOWNLOAD_CONCURRENCY CONFIG) with 8.
  destruct items; [contradiction|]. cbn [List.length]. lia.
Qed.

Lemma pool_at_rest n fs items schedule :
  1 <= n ->
  let st := run world schedule (start n fs items) in
  all_finished st = true ->
  completed st + failed st = List.length items
  /\ Permutation (map snd (claims (trace st))) items
  /\ Permutation (succeeded (trace st) ++ failures (trace st)) items
  /\ itemsToProcess st = [].
Proof.
  intros Hn st Hfin. apply accounted_at_rest.
  - apply run_accounted, start_accounted.
  - unfold st. rewrite run_workers_length. cbn [start workers].
    now rewrite repeat_length.
  - exact Hfin.
Qed.

(** On a terminal [downloadMedia] is the pool of [pool_size] workers. *)
Lemma downloadMedia_on_terminal schedule fs items :
  1 <= pool_size items ->
  fair (pool_size items) (List.length items) schedule ->
  downloadMedia world true schedule fs items
  = Some (Ok (run world schedule (start (pool_size items) fs items))).
Proof.
  intros Hn Hfair. unfold downloadMedia.
  destruct (Nat.eqb (List.length items) 0) eqn:E.
  { apply Nat.eqb_eq in E. unfold pool_size in Hn. rewrite E, Nat.min_0_r in Hn. lia. }
  cbn [updateProgress]. now rewrite fair_pool_finishes.
Qed.

(** Off a terminal it throws before the pool is started. *)
Lemma downloadMedia_redirected schedule fs items :
  items <> [] ->
  downloadMedia world false schedule fs items
  = Some (Throw (TypeError "output.clearLine is not a function")).
Proof.
  intros Hne. unfold downloadMedia.
  destruct (Nat.eqb (List.length items) 0) eqn:E; [|reflexivity].
  apply Nat.eqb_eq, length_zero_iff_nil in E. contradiction.
Qed.

(** What it returns is the state of that pool at rest. *)
Lemma downloadMedia_returned isTTY schedule fs items final :
  downloadMedia world isTTY schedule fs items = Some (Ok final) ->
  final = run world schedule (start (pool_size items) fs items)
  /\ all_finished final = true
  /\ (items = [] \/ (isTTY = true /\ 1 <= pool_size items)).
Proof.
  unfold downloadMedia. destruct (Nat.eqb (List.length items) 0) eqn:E.
  - apply Nat.eqb_eq, length_zero_iff_nil in E. subst items. intros [= <-].
    change (pool_size []) with 0. rewrite run_no_workers. auto.
  - apply Nat.eqb_neq in E.
    destruct isTTY; cbn [updateProgress]; [|discriminate].
    destruct (all_finished (run world schedule (start (pool_size items) fs items)))
      eqn:Hfin; [|discriminate].
    intros [= <-]. split; [reflexivity|]. split; [exact Hfin|]. right.
    split; [reflexivity|]. apply pool_size_positive. now intros ->.
Qed.

Lemma returned_at_rest isTTY schedule fs items final :
  downloadMedia world isTTY schedule fs items = Some (Ok final) ->
  completed final + failed final = List.length items
  /\ Permutation (map snd (claims (trace final))) items
  /\ Permutation (succeeded (trace final) ++ failures (trace final)) items
  /\ itemsToProcess final = [].
Proof.
  intros H. destruct (downloadMedia_returned _ _ _ _ _ H) as [-> [Hfin [->|[_ Hn]]]].
  - rewrite run_no_workers. cbn. repeat split; constructor.
  - now apply pool_at_rest.
Qed.

End PoolReturns.

Section PoolClaims.
Context {P : Platform}.
Variable world : World.


End PoolClaims.

Section ResumeFacts.
Context {P : Platform}.
Variable world : World.

Lemma file_exists_cons p q fs :
  file_exists fs p = true -> file_exists (q :: fs) p = true.
Proof. unfold file_exists. simpl. intros ->. apply orb_true_r. Qed.

Lemma file_exists_head p fs : file_exists (p :: fs) p = true.
Proof. unfold file_exists. simpl. now rewrite String.eqb_refl. Qed.

Lemma held_in_flight st w x item :
  nth_error (workers st) w = Some x -> In item (holding x) -> In item (in_flight st).
Proof.
  intros Hw Hx. unfold in_flight. apply in_flat_map. exists x. split; [|exact Hx].
  eapply nth_error_In; eauto.
Qed.

Lemma held_submitted items st w x item :
  Accounted items st ->
  nth_error (workers st) w = Some x -> In item (holding x) -> In item items.
Proof.
  intros Hacc Hw Hx. apply (Permutation_in item (Permutation_sym (acc_items _ _ Hacc))).
  apply in_or_app. right. apply in_or_app. left. eapply held_in_flight; eauto.
Qed.

Lemma step_resumed items fs0 w st :
  (forall item, In item items -> file_exists fs0 (dest item) = true) ->
  Accounted items st -> Resumed fs0 st -> Resumed fs0 (step world w st).
Proof.
  intros Hthere Hacc [Hfiles Hcalm Hfetched Hfailures].
  step_cases w st; try (constructor; assumption);
    try (exfalso; apply (nth_error_Forall calm _ _ _ Hcalm Hw)).
  - constructor; trace_events; auto. apply set_worker_Forall; simpl; auto.
  - constructor; trace_events; auto. apply set_worker_Forall; simpl; auto.
  - constructor; trace_events; auto. apply set_worker_Forall; simpl; auto.
  - exfalso.
    assert (Hin : In item items)
      by (eapply held_submitted; eauto; now left).
    rewrite (Hfiles _ (Hthere item Hin)) in Hx. discriminate.
Qed.

Lemma run_resumed items fs0 schedule :
  (forall item, In item items -> file_exists fs0 (dest item) = true) ->
  forall st, Accounted items st -> Resumed fs0 st ->
             Resumed fs0 (run world schedule st).
Proof.
  intros Hthere. induction schedule as [|w schedule IH]; intros st Hacc Hres; [exact Hres|].
  apply IH; [now apply step_accounted | now apply (step_resumed items)].
Qed.

Lemma start_resumed n fs items : Resumed fs (start n fs items).
Proof.
  constructor; cbn [start files workers trace]; auto.
  induction n; simpl; constructor; simpl; auto.
Qed.

Lemma step_kept w st : Kept st -> Kept (step world w st).
Proof.
  unfold Kept. intros Hkept.
  step_cases w st; try assumption; trace_events; rewrite ?app_nil_r; auto.
  - apply Forall_app. split; [assumption|]. repeat constructor. assumption.
  - apply Forall_app. split.
    + eapply Forall_impl; [|exact Hkept]. intros i Hi. now apply file_exists_cons.
    + repeat constructor. apply file_exists_head.
Qed.

Lemma run_kept schedule : forall st, Kept st -> Kept (run world schedule st).
Proof.
  induction schedule as [|w schedule IH]; intros st Hst; [exact Hst|].
  apply IH. now apply step_kept.
Qed.

Lemma step_needed items fs0 w st :
  Accounted items st -> Needed fs0 items st -> Needed fs0 items (step world w st).
Proof.
  intros Hacc [Hfiles Hfetched].
  step_cases w st; try (constructor; assumption);
    constructor; trace_events; auto.
  - (* a fetch is called: the destination is missing *)
    apply Forall_app. split; [assumption|]. repeat constructor.
    + eapply held_submitted; eauto. now left.
    + destruct (file_exists fs0 (dest item)) eqn:E; [|reflexivity].
      rewrite (Hfiles _ E) in Hx. discriminate.
  - intros p Hp. apply file_exists_cons. auto.
Qed.

Lemma run_needed items fs0 schedule :
  forall st, Accounted items st -> Needed fs0 items st ->
             Needed fs0 items (run world schedule st).
Proof.
  induction schedule as [|w schedule IH]; intros st Hacc Hneed; [exact Hneed|].
  apply IH; [now apply step_accounted | now apply step_needed].
Qed.

Lemma resumed_at_rest n fs items schedule :
  1 <= n ->
  (forall item, In item items -> file_exists fs (dest item) = true) ->
  let st := run world schedule (start n fs items) in
  all_finished st = true ->
  fetched (trace st) = [] /\ completed st = List.length items /\ failed st = 0.
Proof.
  intros Hn Hthere st Hfin.
  assert (Hacc : Accounted items st) by apply run_accounted, start_accounted.
  assert (Hres : Resumed fs st).
  { apply (run_resumed items); auto using start_accounted, start_resumed. }
  destruct (accounted_at_rest items st Hacc) as [Hcount _]; auto.
  { unfold st. rewrite run_workers_length. cbn [start workers]. now rewrite repeat_length. }
  pose proof (acc_failed _ _ Hacc) as Hfailed.
  rewrite (res_failures _ _ Hres) in Hfailed. cbn in Hfailed.
  split; [exact (res_fetched _ _ Hres)|]. split; lia.
Qed.

End ResumeFacts.

Section ResumeReturns.
Context {P : Platform}.
Variable world : World.

(** What a run that has returned leaves behind: every item failed or has
    its destination on disk, and [failed] counts the failures. *)
Lemma returned_files isTTY schedule fs items first :
  downloadMedia world isTTY schedule fs items = Some (Ok first) ->
  failed first = List.length (failures (trace first))
  /\ forall item, In item items ->
       In item (failures (trace first))
       \/ file_exists (files first) (dest item) = true.
Proof.
  intros H. destruct (returned_at_rest world _ _ _ _ _ H) as [_ [_ [Hall _]]].
  destruct (downloadMedia_returned world _ _ _ _ _ H) as [-> _].
  set (first := run world schedule (start (pool_size items) fs items)) in *.
  assert (Hacc : Accounted items first) by apply run_accounted, start_accounted.
  assert (Hkept : Kept first).
  { apply run_kept. unfold Kept. cbn. constructor. }
  split; [exact (acc_failed _ _ Hacc)|].
  intros item Hin. apply (Permutation_in item (Permutation_sym Hall)) in Hin.
  apply in_app_or in Hin. destruct Hin as [Hin|Hin]; [right|now left].
  unfold Kept in Hkept. rewrite Forall_forall in Hkept. now apply Hkept.
Qed.

End ResumeReturns.

Section ResumeClaims.
Context {P : Platform}.
Variable world : World.


End ResumeClaims.

Section IsolationFacts.
Context {P : Platform}.
Variable world : World.
Variables (t0 : DownloadTask) (others : list DownloadTask).
Hypothesis t0_fails : always_fails world t0.
Hypothesis others_download :
  Forall (fun item => dest item <> dest t0 /\ downloads world item) others.

Lemma other_not_t0 item : In item others -> item <> t0.
Proof.
  intros Hin ->. rewrite Forall_forall in others_download.
  destruct (others_download t0 Hin) as [H _]. now apply H.
Qed.

(** What a fetch of [t0] gave is never written to its destination. *)
Lemma t0_never_written h h' response buffer :
  fetch_media world h (url t0) = Ok response ->
  media_ok response = true ->
  arrayBuffer response = Ok buffer ->
  fs_writeFile world h' (dest t0) buffer <> Ok tt.
Proof.
  intros Hf Hok Hb Hwr. pose proof (t0_fails h) as H. rewrite Hf in H.
  destruct H as [H|H]; [congruence|].
  rewrite Hb in H. destruct (H h') as [e He]. congruence.
Qed.

Lemma failed_t0 (t : list Event) w message :
  (exists err, attempt_error world t0 err /\ message = failure_warning t0 err) ->
  Forall (failure_of world t0) t ->
  Forall (failure_of world t0) (t ++ [Failed w t0 message]).
Proof.
  intros Herr Ht. apply Forall_app. split; [exact Ht|].
  apply Forall_cons; [|apply Forall_nil]. cbn [failure_of]. now split.
Qed.

Lemma step_isolated items w st :
  (forall item, In item items -> item = t0 \/ In item others) ->
  Accounted items st -> Isolated world t0 st -> Isolated world t0 (step world w st).
Proof.
  intros Hitems Hacc [Hmissing Hworkers Hsucceeded Hfailures].
  pose proof others_download as Hothers. rewrite Forall_forall in Hothers.
  step_cases w st; try (constructor; assumption).
  - constructor; trace_events; auto. apply set_worker_Forall; simpl; auto.
  - constructor; trace_events; auto.
    + apply set_worker_Forall; simpl; auto.
    + apply Forall_app. split; [assumption|]. repeat constructor.
  - (* the destination exists: not that of [t0] *)
    constructor; trace_events; auto.
    + apply set_worker_Forall; simpl; auto.
    + apply Forall_app. split; [assumption|]. repeat constructor.
      intros ->. rewrite Hmissing in Hx. discriminate.
    + apply Forall_app. split; [assumption|]. repeat constructor.
  - constructor; trace_events; auto.
    + apply set_worker_Forall; simpl; auto.
    + apply Forall_app. split; [assumption|]. repeat constructor.
  - (* the response is ok *)
    assert (Hin : In item items) by (eapply held_submitted; eauto; now left).
    constructor; trace_events; auto.
    apply set_worker_Forall; [assumption|]. cbn [sound]. split.
    + intros ->. exists (trace st). now split.
    + intros Hne. destruct (Hitems item Hin) as [->|Hother]; [contradiction|].
      destruct (Hothers item Hother) as [_ Hd].
      destruct (Hd (trace st)) as [r [buffer [Hr [_ [Hbuf Hwrite]]]]].
      rewrite Hf in Hr. injection Hr as <-. eauto.
  - (* the response is not ok: the item is [t0] *)
    assert (Hin : In item items) by (eapply held_submitted; eauto; now left).
    assert (Ht0 : item = t0).
    { destruct (Hitems item Hin) as [->|Hother]; [reflexivity|].
      exfalso. destruct (Hothers item Hother) as [_ Hd].
      destruct (Hd (trace st)) as [r [buffer [Hr [Hrok _]]]].
      rewrite Hf in Hr. injection Hr as <-. rewrite Hrok in Hok. discriminate. }
    subst item.
    constructor; trace_events; auto.
    + apply set_worker_Forall; simpl; auto.
    + apply failed_t0; [|assumption]. eexists. split; [|reflexivity].
      apply (fails_at_fetch world t0 _ (trace st)).
      unfold fetch_error. now rewrite Hf, Hok.
  - (* fetch throws: the item is [t0] *)
    assert (Hin : In item items) by (eapply held_submitted; eauto; now left).
    assert (Ht0 : item = t0).
    { destruct (Hitems item Hin) as [->|Hother]; [reflexivity|].
      exfalso. destruct (Hothers item Hother) as [_ Hd].
      destruct (Hd (trace st)) as [r [buffer [Hr _]]].
      rewrite Hf in Hr. discriminate. }
    subst item.
    constructor; trace_events; auto.
    + apply set_worker_Forall; simpl; auto.
    + apply failed_t0; [|assumption]. exists e. split; [|reflexivity].
      apply (fails_at_fetch world t0 e (trace st)).
      unfold fetch_error. now rewrite Hf.
  - (* the body is read *)
    pose proof (nth_error_Forall _ _ _ _ Hworkers Hw) as Hs. cbn [sound] in Hs.
    destruct Hs as [Hs0 Hs1].
    constructor; trace_events; auto.
    apply set_worker_Forall; [assumption|]. cbn [sound]. split.
    + intros Ht0. destruct (Hs0 Ht0) as [h [Hfh Hokh]]. exists h, response. auto.
    + intros Hne. destruct (Hs1 Hne) as [buf [Hbuf Hwrite]].
      rewrite Hb in Hbuf. injection Hbuf as <-. exact Hwrite.
  - (* the body cannot be read: the item is [t0] *)
    pose proof (nth_error_Forall _ _ _ _ Hworkers Hw) as Hs. cbn [sound] in Hs.
    destruct Hs as [Hs0 Hs1].
    destruct (task_eq_dec item t0) as [->|Hne].
    + destruct (Hs0 eq_refl) as [h [Hfh Hokh]].
      constructor; trace_events; auto.
      * apply set_worker_Forall; simpl; auto.
      * apply failed_t0; [|assumption]. exists e. split; [|reflexivity].
        now apply (fails_at_read world t0 e h response).
    + exfalso. destruct (Hs1 Hne) as [buf [Hbuf _]]. rewrite Hb in Hbuf. discriminate.
  - (* the file is written: not the destination of [t0] *)
    pose proof (nth_error_Forall _ _ _ _ Hworkers Hw) as Hs. cbn [sound] in Hs.
    destruct Hs as [Hs0 Hs1].
    assert (Hne : item <> t0).
    { intros ->. destruct (Hs0 eq_refl) as [h [r [Hfh [Hokh Hbh]]]].
      exact (t0_never_written h (trace st) r buffer Hfh Hokh Hbh Hwr). }
    assert (Hin : In item items) by (eapply held_submitted; eauto; now left).
    constructor; trace_events; auto.
    + destruct (Hitems item Hin) as [->|Hother]; [contradiction|].
      destruct (Hothers item Hother) as [Hdest _].
      unfold file_exists in *. cbn [existsb]. rewrite Hmissing, orb_false_r.
      apply String.eqb_neq. congruence.
    + apply set_worker_Forall; simpl; auto.
    + apply Forall_app. split; [assumption|]. repeat constructor. assumption.
    + apply Forall_app. split; [assumption|]. repeat constructor.
  - (* the file cannot be written: the item is [t0] *)
    pose proof (nth_error_Forall _ _ _ _ Hworkers Hw) as Hs. cbn [sound] in Hs.
    destruct Hs as [Hs0 Hs1].
    destruct (task_eq_dec item t0) as [->|Hne].
    + destruct (Hs0 eq_refl) as [h [r [Hfh [Hokh Hbh]]]].
      constructor; trace_events; auto.
      * apply set_worker_Forall; simpl; auto.
      * apply failed_t0; [|assumption]. exists e. split; [|reflexivity].
        now apply (fails_at_write world t0 e h (trace st) r buffer).
    + exfalso. rewrite (Hs1 Hne) in Hwr. discriminate.
Qed.

Lemma run_isolated items schedule :
  (forall item, In item items -> item = t0 \/ In item others) ->
  forall st, Accounted items st -> Isolated world t0 st ->
             Isolated world t0 (run world schedule st).
Proof.
  intros Hitems. induction schedule as [|w schedule IH]; intros st Hacc Hiso;
    [exact Hiso|].
  apply IH; [now apply step_accounted | now apply (step_isolated items)].
Qed.

Lemma failures_all_t0 t :
  Forall (failure_of world t0) t -> Forall (fun item => item = t0) (failures t).
Proof.
  unfold failures. induction 1 as [|e t He Ht IH]; [constructor|].
  destruct e; cbn [flat_map app]; auto. constructor; [apply He | exact IH].
Qed.

Lemma warnings_of_t0 t :
  Forall (failure_of world t0) t ->
  Forall (fun message => exists err, attempt_error world t0 err
                                     /\ message = failure_warning t0 err)
         (warnings t)
  /\ List.length (warnings t) = List.length (failures t).
Proof.
  unfold warnings, failures. induction 1 as [|e t He Ht [IH1 IH2]]; [split; [constructor|reflexivity]|].
  destruct e; cbn [flat_map app List.length]; auto. split.
  - constructor; [apply He | exact IH1].
  - now rewrite IH2.
Qed.

Lemma count_all_same (l : list DownloadTask) :
  Forall (fun item => item = t0) l -> count_occ task_eq_dec l t0 = List.length l.
Proof.
  induction 1 as [|x l Hx Hl IH]; [reflexivity|]. subst x.
  cbn [count_occ List.length]. destruct (task_eq_dec t0 t0); [now rewrite IH|contradiction].
Qed.

Lemma count_none (l : list DownloadTask) :
  Forall (fun item => item <> t0) l -> count_occ task_eq_dec l t0 = 0.
Proof.
  intros H. apply count_occ_not_In. intros Hin. rewrite Forall_forall in H.
  now apply (H t0 Hin).
Qed.

End IsolationFacts.

Section IsolationClaims.
Context {P : Platform}.
Variable world : World.


End IsolationClaims.

(* ================================================================== *)
(** * Names and paths *)
(* ================================================================== *)

Lemma append_assoc (a b c : string) : ((a ++ b) ++ c = a ++ (b ++ c))%string.
Proof. induction a as [|x a IH]; simpl; [reflexivity | now rewrite IH]. Qed.

Lemma append_empty (a : string) : (a ++ "" = a)%string.
Proof. induction a as [|x a IH]; simpl; [reflexivity | now rewrite IH]. Qed.

Lemma append_length (a b : string) :
  String.length (a ++ b) = String.length a + String.length b.
Proof. induction a as [|x a IH]; simpl; [reflexivity | now rewrite IH]. Qed.

Lemma all_chars_append test a b :
  all_chars test (a ++ b) = all_chars test a && all_chars test b.
Proof.
  induction a as [|x a IH]; simpl; [reflexivity|]. now rewrite IH, andb_assoc.
Qed.

Lemma all_chars_impl (p q : ascii -> bool) s :
  (forall c, p c = true -> q c = true) -> all_chars p s = true -> all_chars q s = true.
Proof.
  intros Hpq. induction s as [|c s IH]; simpl; [reflexivity|].
  intros H. apply andb_prop in H. destruct H as [Hc Hs].
  now rewrite (Hpq c Hc), IH.
Qed.

Lemma last_append {A} (l1 l2 : list A) d : l2 <> [] -> last (l1 ++ l2) d = last l2 d.
Proof.
  intros Hl2. induction l1 as [|x l1 IH]; [reflexivity|].
  simpl. destruct (l1 ++ l2) eqn:E; [|exact IH].
  apply app_eq_nil in E. destruct E as [_ E]. contradiction.
Qed.

Lemma split_on_nonempty is_sep s : split_on is_sep s <> [].
Proof.
  destruct s as [|c s]; simpl; [discriminate|].
  destruct (is_sep c); [discriminate|]. destruct (split_on is_sep s); discriminate.
Qed.

Lemma split_on_append is_sep a c b :
  is_sep c = true ->
  split_on is_sep (a ++ String c b) = split_on is_sep a ++ split_on is_sep b.
Proof.
  intros Hc. induction a as [|x a IH]; simpl.
  - now rewrite Hc.
  - rewrite IH. destruct (is_sep x); [reflexivity|].
    pose proof (split_on_nonempty is_sep a) as Ha.
    destruct (split_on is_sep a); [contradiction|reflexivity].
Qed.

Lemma split_on_whole is_sep s :
  all_chars (fun c => negb (is_sep c)) s = true -> split_on is_sep s = [s].
Proof.
  induction s as [|c s IH]; simpl; [reflexivity|].
  intros H. apply andb_prop in H. destruct H as [Hc Hs].
  apply negb_true_iff in Hc. now rewrite Hc, (IH Hs).
Qed.

Lemma split_pop_on_append is_sep a c b :
  is_sep c = true -> split_pop_on is_sep (a ++ String c b) = split_pop_on is_sep b.
Proof.
  intros Hc. unfold split_pop_on. rewrite (split_on_append is_sep a c b Hc).
  apply last_append, split_on_nonempty.
Qed.

Lemma split_pop_on_whole is_sep s :
  all_chars (fun c => negb (is_sep c)) s = true -> split_pop_on is_sep s = s.
Proof. intros H. unfold split_pop_on. now rewrite split_on_whole. Qed.

(** A string has no separator and is its own last segment, or it ends in
    a separator followed by its last segment, which has none. *)
Lemma split_pop_on_cases is_sep s :
  all_chars (fun c => negb (is_sep c)) (split_pop_on is_sep s) = true
  /\ ((all_chars (fun c => negb (is_sep c)) s = true /\ split_pop_on is_sep s = s)
      \/ exists front c, is_sep c = true
                         /\ s = (front ++ String c (split_pop_on is_sep s))%string).
Proof.
  induction s as [|x s [IHfree IH]].
  - split; [reflexivity|]. left. split; reflexivity.
  - destruct (is_sep x) eqn:Hx.
    + change (String x s) with ("" ++ String x s)%string.
      rewrite (split_pop_on_append is_sep "" x s Hx). split; [exact IHfree|].
      right. destruct IH as [[Hs Heq]|[front [c [Hc Heq]]]].
      * exists EmptyString, x. rewrite Heq. auto.
      * exists (String x front), c. split; [exact Hc|]. simpl. now rewrite <- Heq.
    + destruct IH as [[Hs Heq]|[front [c [Hc Heq]]]].
      * assert (Hwhole : all_chars (fun c => negb (is_sep c)) (String x s) = true)
          by (simpl; now rewrite Hx, Hs).
        rewrite (split_pop_on_whole is_sep _ Hwhole). split; [exact Hwhole|].
        left. split; [exact Hwhole | reflexivity].
      * assert (E : split_pop_on is_sep (String x s) = split_pop_on is_sep s).
        { rewrite Heq at 1. change (String x (front ++ String c (split_pop_on is_sep s))%string)
            with ((String x front) ++ String c (split_pop_on is_sep s))%string.
          rewrite (split_pop_on_append is_sep _ c _ Hc).
          now apply split_pop_on_whole. }
        rewrite E. split; [exact IHfree|].
        right. exists (String x front), c. split; [exact Hc|]. simpl. now rewrite <- Heq.
Qed.

Lemma split_pop_on_suffix is_sep a b :
  all_chars (fun c => negb (is_sep c)) b = true ->
  split_pop_on is_sep (a ++ b) = (split_pop_on is_sep a ++ b)%string.
Proof.
  intros Hb. destruct (split_pop_on_cases is_sep a) as [Hfree [[Ha Heq]|[front [c [Hc Heq]]]]].
  - rewrite Heq. apply split_pop_on_whole. now rewrite all_chars_append, Ha, Hb.
  - rewrite Heq at 1. rewrite append_assoc. simpl.
    rewrite (split_pop_on_append is_sep front c _ Hc).
    apply split_pop_on_whole. now rewrite all_chars_append, Hfree, Hb.
Qed.

Lemma lacks_is_char sep c : is_char sep c = true -> c = sep.
Proof. unfold is_char. apply Ascii.eqb_eq. Qed.

Lemma drop_prefix_append p s : drop_prefix p (p ++ s) = Some s.
Proof.
  induction p as [|c p IH]; simpl; [reflexivity|]. now rewrite Ascii.eqb_refl.
Qed.

Lemma drop_prefix_sound p s rest : drop_prefix p s = Some rest -> s = (p ++ rest)%string.
Proof.
  revert s. induction p as [|c p IH]; intros s; simpl.
  - now intros [= ->].
  - destruct s as [|d s]; [discriminate|].
    destruct (Ascii.eqb c d) eqn:E; [|discriminate].
    apply Ascii.eqb_eq in E. subst d. intros H. now rewrite (IH s H).
Qed.

Lemma span_segment_sound s :
  s = (fst (span_segment s) ++ snd (span_segment s))%string
  /\ lacks "/" (fst (span_segment s)) = true.
Proof.
  induction s as [|c s [IH1 IH2]]; [split; reflexivity|].
  simpl. destruct (is_char "/" c) eqn:E; [split; reflexivity|].
  destruct (span_segment s) as [segment rest]. simpl in *.
  split; [now rewrite <- IH1|]. unfold lacks in *. simpl. now rewrite E, IH2.
Qed.

Lemma span_segment_append segment rest :
  lacks "/" segment = true ->
  span_segment (segment ++ String "/" rest) = (segment, String "/" rest).
Proof.
  unfold lacks. induction segment as [|c segment IH]; simpl; [reflexivity|].
  intros H. apply andb_prop in H. destruct H as [Hc Hs].
  apply negb_true_iff in Hc. now rewrite Hc, (IH Hs).
Qed.

(** X1. The id of a document is the last segment of its name: it has no
    slash, and the name is the id or ends in a slash followed by it;
    reading the id off a name built as parent, slash, id gives the id
    back.  A document whose name is not a string makes [docId] throw. *)
Theorem docId_last_segment (props : list (string * JsValue)) :
  (forall s, lookup "name" props = Some (JStr s) ->
     exists id, docId (JObj props) = Ok id
       /\ lacks "/" id = true
       /\ ((lacks "/" s = true /\ id = s)
           \/ exists parent, s = (parent ++ String "/" id)%string))
  /\ (forall parent id, lacks "/" id = true ->
        lookup "name" props = Some (JStr (parent ++ String "/" id)) ->
        docId (JObj props) = Ok id)
  /\ (forall v, lookup "name" props = Some v -> is_string v = false ->
        exists e, docId (JObj props) = Throw e)
  /\ (lookup "name" props = None -> exists e, docId (JObj props) = Throw e).
Proof.
  unfold docId. cbn [get bind]. rewrite find_prop_lookup.
  split; [|split; [|split]].
  - intros s ->. exists (split_pop "/" s). split; [reflexivity|].
    destruct (split_pop_on_cases (is_char "/") s) as [Hfree Hcases].
    split; [exact Hfree|].
    destruct Hcases as [Hwhole|[front [c [Hc Heq]]]]; [left; exact Hwhole|].
    right. exists front. apply lacks_is_char in Hc. subst c. exact Heq.
  - intros parent id Hid ->. unfold split_pop.
    rewrite (split_pop_on_append (is_char "/") parent "/" id eq_refl).
    now rewrite split_pop_on_whole.
  - intros v -> Hv. destruct v; try discriminate; eauto.
  - intros ->. eauto.
Qed.

(** X2. [stripDocPrefix] removes the resource prefix
    [projects/<project>/databases/(default)/documents/] of a name, for
    every non-empty project id without a slash, and leaves a name that
    does not start with [projects/] as it is; the URL of the stripped
    name of a document of this project is the API address followed by the
    name. *)
Theorem stripDocPrefix_resource_name (project path : string) :
  (project <> "" -> lacks "/" project = true ->
     stripDocPrefix
       (JStr ("projects/" ++ project ++ "/databases/(default)/documents/" ++ path))
     = Ok path)
  /\ (forall name, drop_prefix "projects/" name = None ->
        stripDocPrefix (JStr name) = Ok name)
  /\ (forall name,
        name = ("projects/" ++ PROJECT_ID CONFIG
                  ++ "/databases/(default)/documents/" ++ path)%string ->
        exists stripped, stripDocPrefix (JStr name) = Ok stripped
          /\ firestoreUrl stripped
             = ("https://firestore.googleapis.com/v1/" ++ name)%string).
Proof.
  assert (Hstrip : forall project, project <> "" -> lacks "/" project = true ->
            strip_resource_prefix
              ("projects/" ++ project ++ "/databases/(default)/documents/" ++ path)
            = path).
  { intros pr Hne Hfree. unfold strip_resource_prefix.
    rewrite drop_prefix_append.
    change ("/databases/(default)/documents/" ++ path)%string
      with (String "/" ("databases/(default)/documents/" ++ path)).
    rewrite (span_segment_append pr _ Hfree).
    apply String.eqb_neq in Hne. rewrite Hne.
    change (String "/" ("databases/(default)/documents/" ++ path))
      with ("/databases/(default)/documents/" ++ path)%string.
    now rewrite drop_prefix_append. }
  split; [|split].
  - intros Hne Hfree. cbn [stripDocPrefix]. now rewrite Hstrip.
  - intros name Hname. cbn [stripDocPrefix]. unfold strip_resource_prefix.
    now rewrite Hname.
  - intros name ->. exists path. split; [|reflexivity].
    cbn [stripDocPrefix]. rewrite Hstrip; [reflexivity|discriminate|reflexivity].
Qed.

Lemma strip_resource_prefix_segment (name : string) :
  split_pop "/" (strip_resource_prefix name) = split_pop "/" name.
Proof.
  unfold strip_resource_prefix.
  destruct (drop_prefix "projects/" name) as [rest|] eqn:Hrest; [|reflexivity].
  destruct (span_segment rest) as [project rest'] eqn:Hspan.
  destruct (project =? "")%string; [reflexivity|].
  destruct (drop_prefix "/databases/(default)/documents/" rest') as [path|] eqn:Hpath;
    [|reflexivity].
  apply drop_prefix_sound in Hrest, Hpath.
  destruct (span_segment_sound rest) as [Hrest' _]. rewrite Hspan in Hrest'.
  cbn [fst snd] in Hrest'.
  assert (E : name = (("projects/" ++ project ++ "/databases/(default)/documents")
                        ++ String "/" path)%string).
  { rewrite Hrest, Hrest', Hpath. rewrite !append_assoc. reflexivity. }
  rewrite E. unfold split_pop.
  now rewrite (split_pop_on_append (is_char "/") _ "/" path eq_refl).
Qed.

(** X3. Stripping the resource prefix only takes from the front and
    never changes the last segment: what is left is an end of the name,
    and the id [docId] reads off a document is the last segment of the
    path [stripDocPrefix] makes of its name. *)
Theorem stripDocPrefix_keeps_id (name : string) :
  split_pop "/" (strip_resource_prefix name) = split_pop "/" name
  /\ (exists front, name = (front ++ strip_resource_prefix name)%string)
  /\ (forall props, lookup "name" props = Some (JStr name) ->
        exists id path,
          docId (JObj props) = Ok id
          /\ stripDocPrefix (JStr name) = Ok path
          /\ split_pop "/" path = id
          /\ lacks "/" id = true).
Proof.
  split; [apply strip_resource_prefix_segment|]. split.
  - unfold strip_resource_prefix.
    destruct (drop_prefix "projects/" name) as [rest|] eqn:Hrest; [|now exists ""].
    destruct (span_segment rest) as [project rest'] eqn:Hspan.
    destruct (project =? "")%string; [now exists ""|].
    destruct (drop_prefix "/databases/(default)/documents/" rest') as [path|] eqn:Hpath;
      [|now exists ""].
    apply drop_prefix_sound in Hrest, Hpath.
    destruct (span_segment_sound rest) as [Hrest' _]. rewrite Hspan in Hrest'.
    cbn [fst snd] in Hrest'.
    exists ("projects/" ++ project ++ "/databases/(default)/documents/")%string.
    rewrite Hrest, Hrest', Hpath. rewrite !append_assoc. reflexivity.
  - intros props Hname. exists (split_pop "/" name), (strip_resource_prefix name).
    split.
    { unfold docId. cbn [get bind]. now rewrite find_prop_lookup, Hname. }
    split; [reflexivity|]. split; [apply strip_resource_prefix_segment|].
    apply (proj1 (split_pop_on_cases (is_char "/") name)).
Qed.

(* ================================================================== *)
(** * File names *)
(* ================================================================== *)

Lemma slice_to_length n s : String.length (slice_to n s) = Nat.min n (String.length s).
Proof.
  revert s. induction n as [|n IH]; intros [|c s]; simpl; auto.
Qed.

Lemma slice_to_short n s : String.length s <= n -> slice_to n s = s.
Proof.
  revert s. induction n as [|n IH]; intros [|c s]; simpl; intros H; auto; try lia.
  rewrite IH; [reflexivity|lia].
Qed.

Lemma slice_to_append n a b : n <= String.length a -> slice_to n (a ++ b) = slice_to n a.
Proof.
  revert a. induction n as [|n IH]; intros a H.
  - now destruct a, b.
  - destruct a as [|c a]; simpl in *; [lia|]. rewrite IH; [reflexivity|lia].
Qed.

Lemma slice_to_all_chars test n s :
  all_chars test s = true -> all_chars test (slice_to n s) = true.
Proof.
  revert s. induction n as [|n IH]; intros [|c s]; simpl; auto.
  intros H. apply andb_prop in H. destruct H as [Hc Hs]. now rewrite Hc, IH.
Qed.

Lemma replace_forbidden_length s :
  String.length (replace_forbidden s) = String.length s.
Proof. induction s as [|c s IH]; simpl; auto. Qed.

Lemma replace_forbidden_allowed s : all_chars allowed (replace_forbidden s) = true.
Proof.
  induction s as [|c s IH]; simpl; [reflexivity|]. rewrite IH, andb_true_r.
  unfold allowed. destruct (forbidden c) eqn:E; [reflexivity | now rewrite E].
Qed.

Lemma replace_forbidden_keeps s :
  all_chars allowed s = true -> replace_forbidden s = s.
Proof.
  induction s as [|c s IH]; simpl; [reflexivity|].
  intros H. apply andb_prop in H. destruct H as [Hc Hs].
  unfold allowed in Hc. apply negb_true_iff in Hc. now rewrite Hc, IH.
Qed.

Lemma replace_forbidden_append a b :
  replace_forbidden (a ++ b) = (replace_forbidden a ++ replace_forbidden b)%string.
Proof. induction a as [|c a IH]; simpl; [reflexivity | now rewrite IH]. Qed.

(** X4. A sanitized name has at most 150 characters, the first 150 of
    the input or all of them, none of which is a character the file
    system refuses; sanitizing is idempotent, and a name that is already
    safe and short enough is returned as it is. *)
Theorem sanitize_safe (name : string) :
  String.length (sanitize name) = Nat.min 150 (String.length name)
  /\ all_chars allowed (sanitize name) = true
  /\ sanitize (sanitize name) = sanitize name
  /\ (all_chars allowed name = true -> String.length name <= 150 ->
      sanitize name = name).
Proof.
  unfold sanitize. split; [|split; [|split]].
  - now rewrite slice_to_length, replace_forbidden_length.
  - apply slice_to_all_chars, replace_forbidden_allowed.
  - rewrite (replace_forbidden_keeps (slice_to 150 (replace_forbidden name)))
      by apply slice_to_all_chars, replace_forbidden_allowed.
    apply slice_to_short. rewrite slice_to_length. lia.
  - intros Hsafe Hshort. rewrite (replace_forbidden_keeps name Hsafe).
    now apply slice_to_short.
Qed.

(** X5. The id that [exportKin] and [exportGroup] append to the name to
    tell folders apart is cut off when the name alone has 150 characters
    or more: two entities with such a name share one folder. *)
Theorem export_subfolder_long_names (name id1 id2 : string) :
  150 <= String.length name ->
  export_subfolder name id1 = export_subfolder name id2.
Proof.
  intros Hlong. unfold export_subfolder, sanitize.
  rewrite !replace_forbidden_append.
  rewrite !slice_to_append by (rewrite replace_forbidden_length; exact Hlong).
  reflexivity.
Qed.

Lemma before_last_none sep s : lacks sep s = true -> before_last sep s = None.
Proof.
  unfold lacks. induction s as [|c s IH]; simpl; [reflexivity|].
  intros H. apply andb_prop in H. destruct H as [Hc Hs].
  apply negb_true_iff in Hc. now rewrite (IH Hs), Hc.
Qed.

Lemma before_last_append sep front rest :
  lacks sep rest = true -> before_last sep (front ++ String sep rest) = Some front.
Proof.
  intros Hrest. induction front as [|c front IH]; simpl.
  - rewrite (before_last_none sep rest Hrest). unfold is_char.
    now rewrite Ascii.eqb_refl.
  - now rewrite IH.
Qed.

Lemma before_last_some sep s :
  before_last sep s = None -> lacks sep s = true.
Proof.
  unfold lacks. induction s as [|d s IH]; [reflexivity|].
  simpl. destruct (before_last sep s); [discriminate|].
  destruct (is_char sep d) eqn:Hd; [discriminate|]. intros _. now apply IH.
Qed.

Lemma before_last_split sep s front :
  before_last sep s = Some front ->
  exists rest, lacks sep rest = true /\ s = (front ++ String sep rest)%string.
Proof.
  revert front. induction s as [|c s IH]; intros front; simpl; [discriminate|].
  destruct (before_last sep s) as [front'|] eqn:E.
  - intros [= <-]. destruct (IH front' eq_refl) as [rest [Hrest Heq]].
    exists rest. split; [exact Hrest|]. simpl. now rewrite <- Heq.
  - destruct (is_char sep c) eqn:Hc; [|discriminate].
    intros [= <-]. apply lacks_is_char in Hc. subst c.
    exists s. split; [now apply before_last_some | reflexivity].
Qed.

Lemma before_last_sound sep s front :
  before_last sep s = Some front -> s = (front ++ String sep (split_pop sep s))%string.
Proof.
  intros H. destruct (before_last_split sep s front H) as [rest [Hrest Heq]].
  rewrite Heq at 2. unfold split_pop.
  rewrite split_pop_on_append by (unfold is_char; apply Ascii.eqb_refl).
  now rewrite (split_pop_on_whole _ rest Hrest).
Qed.

Lemma split_pop_on_keeps test is_sep s :
  all_chars test s = true -> all_chars test (split_pop_on is_sep s) = true.
Proof.
  intros Hs. destruct (split_pop_on_cases is_sep s) as [_ [[_ ->]|[front [c [_ Heq]]]]];
    [exact Hs|].
  rewrite Heq, all_chars_append in Hs. apply andb_prop in Hs. destruct Hs as [_ Hs].
  simpl in Hs. apply andb_prop in Hs. tauto.
Qed.

Lemma toLowerCase_keeps test ext :
  (forall c, is_alnum c = true -> test (lower c) = true) ->
  all_chars is_alnum ext = true -> all_chars test (toLowerCase ext) = true.
Proof.
  intros Htest. induction ext as [|c ext IH]; simpl; [reflexivity|].
  intros H. apply andb_prop in H. destruct H as [Hc Hext].
  now rewrite (Htest c Hc), IH.
Qed.

Lemma filename_of_path_keeps test decoded :
  test "."%char = true ->
  (forall c, is_alnum c = true -> test (lower c) = true) ->
  all_chars test (split_pop "\" (split_pop "/" decoded)) = true ->
  all_chars test (filename_of_path decoded) = true.
Proof.
  intros Hdot Hlower Hbase. unfold filename_of_path.
  set (base := split_pop "\" (split_pop "/" decoded)) in *.
  unfold match_extension.
  destruct (before_last "." base) as [front|] eqn:Hfront; [|exact Hbase].
  destruct (negb _ && negb _ && all_chars is_alnum (split_pop "." base)) eqn:Hmatch;
    [|exact Hbase].
  apply andb_prop in Hmatch. destruct Hmatch as [_ Halnum].
  apply before_last_sound in Hfront. rewrite Hfront, all_chars_append in Hbase.
  apply andb_prop in Hbase. destruct Hbase as [Hfr _].
  assert (Hstem : all_chars test (split_pop_on is_line_terminator front) = true)
    by now apply split_pop_on_keeps.
  rewrite all_chars_append. apply andb_true_intro. split.
  - destruct (includes _ "_"); [|exact Hstem]. now apply split_pop_on_keeps.
  - simpl. rewrite Hdot. now apply toLowerCase_keeps.
Qed.

Lemma lower_alnum_not sep c :
  is_alnum sep = false -> is_alnum c = true -> negb (is_char sep (lower c)) = true.
Proof.
  intros Hsep Hc. apply negb_true_iff. unfold is_char.
  apply Ascii.eqb_neq. intros E.
  assert (Hl : is_alnum (lower c) = true).
  { clear E. destruct c as [[] [] [] [] [] [] [] []]; try discriminate Hc; reflexivity. }
  rewrite E, Hsep in Hl. discriminate.
Qed.

Lemma alnum_is_not sep c :
  is_alnum sep = false -> is_alnum c = true -> negb (is_char sep c) = true.
Proof.
  intros Hsep Hc. apply negb_true_iff. unfold is_char.
  apply Ascii.eqb_neq. intros E. rewrite E, Hsep in Hc. discriminate.
Qed.

Lemma decimal_lacks sep (d : Decimal.uint) :
  is_alnum sep = false -> lacks sep (NilEmpty.string_of_uint d) = true.
Proof.
  intros Hsep. unfold lacks.
  induction d; cbn [NilEmpty.string_of_uint all_chars]; auto;
    rewrite IHd, andb_true_r; now apply alnum_is_not.
Qed.

(** X6. The file name [filenameFromUrl] returns never contains a slash
    or a backslash, whatever the URL and whether or not it parses: joined
    to a directory it names an entry of that directory. *)
Theorem filenameFromUrl_no_separator {U : UrlLibrary} (urlString : string) :
  lacks "/" (filenameFromUrl urlString) = true
  /\ lacks "\" (filenameFromUrl urlString) = true.
Proof.
  assert (Hpath : forall decoded,
            lacks "/" (filename_of_path decoded) = true
            /\ lacks "\" (filename_of_path decoded) = true).
  { intros decoded. split; apply filename_of_path_keeps; try reflexivity;
      try (intros c; now apply lower_alnum_not).
    - apply split_pop_on_keeps.
      apply (proj1 (split_pop_on_cases (is_char "/") decoded)).
    - apply (proj1 (split_pop_on_cases (is_char "\") (split_pop "/" decoded))). }
  assert (Hfallback : forall sep, is_alnum sep = false ->
            negb (is_char sep "_") = true -> negb (is_char sep ".") = true ->
            lacks sep ("download_" ++ String_of_nat Date_now ++ ".bin") = true).
  { intros sep Hsep Hu Hd.
    pose proof (decimal_lacks sep (Nat.to_uint Date_now) Hsep) as Hdigits.
    unfold lacks in *. rewrite !all_chars_append. unfold String_of_nat.
    rewrite Hdigits. cbn [all_chars]. rewrite Hu, Hd.
    rewrite !alnum_is_not by (auto; reflexivity). reflexivity. }
  unfold filenameFromUrl.
  destruct (URL_pathname urlString) as [pathname|e]; cbn [bind].
  - destruct (decodeURIComponent pathname) as [decoded|e]; cbn [bind].
    + apply Hpath.
    + split; apply Hfallback; reflexivity.
  - split; apply Hfallback; reflexivity.
Qed.

Lemma includes_append a c b : includes (a ++ String c b) (String c EmptyString) = true.
Proof.
  induction a as [|x a IH]; simpl.
  - destruct (ascii_dec c c); [now destruct b|contradiction].
  - rewrite IH. apply orb_true_r.
Qed.

Lemma append_nonempty a c b : (a ++ String c b =? "")%string = false.
Proof. destruct a; reflexivity. Qed.

Lemma alnum_lacks sep ext :
  is_alnum sep = false -> all_chars is_alnum ext = true -> lacks sep ext = true.
Proof.
  intros Hsep. apply all_chars_impl. intros c Hc. apply negb_true_iff.
  unfold is_char. apply Ascii.eqb_neq. intros E. rewrite E, Hsep in Hc. discriminate.
Qed.

(** X7. For a path whose last segment is [<label>_<id>.<ext>], where
    the label has no slash and no backslash, the id has no slash, no
    backslash, no underscore and no line terminator, and the extension is
    one or more letters and digits: the file name is [<id>.<ext>] with
    the extension in lower case.  It does not depend on the label or on
    the directories, so media that share id and extension share a
    destination. *)
Theorem filename_of_path_id_ext (dir label id ext : string) :
  lacks "/" label = true -> lacks "\" label = true ->
  lacks "/" id = true -> lacks "\" id = true -> lacks "_" id = true ->
  all_chars (fun c => negb (is_line_terminator c)) id = true ->
  ext <> "" -> all_chars is_alnum ext = true ->
  filename_of_path (dir ++ "/" ++ label ++ "_" ++ id ++ "." ++ ext)
  = (id ++ "." ++ toLowerCase ext)%string.
Proof.
  intros Hl1 Hl2 Hi1 Hi2 Hi3 Hi4 Hext Halnum.
  set (front := (label ++ String "_" id)%string).
  assert (Erest : (label ++ "_" ++ id ++ "." ++ ext = front ++ String "." ext)%string).
  { unfold front. rewrite append_assoc. reflexivity. }
  assert (Hfree : forall sep, is_alnum sep = false -> lacks sep label = true ->
                              lacks sep id = true -> negb (is_char sep "_") = true ->
                              negb (is_char sep ".") = true ->
                              lacks sep (front ++ String "." ext) = true).
  { intros sep Hsep Hl Hi Hu Hd. unfold lacks, front in *.
    rewrite !all_chars_append. cbn [all_chars].
    rewrite Hl, Hi, Hu, Hd. cbn [andb].
    apply (alnum_lacks sep ext Hsep Halnum). }
  assert (Ebase : split_pop "\" (split_pop "/"
                    (dir ++ "/" ++ label ++ "_" ++ id ++ "." ++ ext))
                  = (front ++ String "." ext)%string).
  { change (dir ++ "/" ++ label ++ "_" ++ id ++ "." ++ ext)%string
      with (dir ++ String "/" (label ++ "_" ++ id ++ "." ++ ext))%string.
    rewrite Erest. unfold split_pop.
    rewrite (split_pop_on_append (is_char "/") dir "/"%char _ eq_refl).
    rewrite (split_pop_on_whole (is_char "/")) by (apply (Hfree "/"%char); auto).
    apply split_pop_on_whole. apply (Hfree "\"%char); auto. }
  assert (Eext : split_pop "." (front ++ String "." ext) = ext).
  { unfold split_pop.
    rewrite (split_pop_on_append (is_char ".") front "."%char ext eq_refl).
    apply split_pop_on_whole. apply (alnum_lacks "."%char ext eq_refl Halnum). }
  assert (Estem : split_pop_on is_line_terminator front
                  = (split_pop_on is_line_terminator label ++ String "_" id)%string).
  { unfold front. apply split_pop_on_suffix. simpl. exact Hi4. }
  unfold filename_of_path. rewrite Ebase. unfold match_extension.
  rewrite (before_last_append "."%char front ext (alnum_lacks "."%char ext eq_refl Halnum)).
  rewrite Eext, Estem, append_nonempty.
  apply String.eqb_neq in Hext. rewrite Hext, Halnum. cbn [negb andb].
  rewrite includes_append. unfold split_pop.
  rewrite (split_pop_on_append (is_char "_") _ "_"%char id eq_refl).
  now rewrite (split_pop_on_whole _ id Hi3).
Qed.

(* ================================================================== *)
(** * Decoded fields and packed documents *)
(* ================================================================== *)

Section PackagingFacts.
Context {P : Platform}.

Lemma replace_prop_fresh k x out :
  ~ In k (map fst out) -> replace_prop k x out = None.
Proof.
  induction out as [|[k' y] out IH]; simpl; [reflexivity|].
  intros H. destruct (k' =? k)%string eqn:E.
  - apply String.eqb_eq in E. tauto.
  - rewrite IH; tauto.
Qed.

Lemma set_prop_fresh out k x :
  own_key k = true -> ~ In k (map fst out) -> set_prop out k x = out ++ [(k, x)].
Proof.
  unfold own_key, set_prop. intros Hk Hfresh. apply negb_true_iff in Hk.
  now rewrite Hk, replace_prop_fresh.
Qed.

Lemma set_prop_proto out k x : own_key k = false -> set_prop out k x = out.
Proof.
  unfold own_key, set_prop. intros Hk. apply negb_false_iff in Hk. now rewrite Hk.
Qed.

Lemma decodeFields_loop_object uid fs :
  forall acc d, decodeFields_loop uid acc fs = Ok d -> exists out, d = JObj out.
Proof.
  induction fs as [|[k v] fs IH]; intros acc d; cbn [decodeFields_loop].
  - intros [= <-]. eauto.
  - destruct (decodeValue uid v); [|discriminate]. cbn [bind]. apply IH.
Qed.

Lemma decodeFields_loop_entries uid fs :
  forall acc out,
    NoDup (map fst fs) ->
    (forall k, In k (map fst fs) -> ~ In k (map fst acc)) ->
    decodeFields_loop uid acc fs = Ok (JObj out) ->
    exists ds, out = acc ++ ds
               /\ Forall2 (decoded_from uid) (filter (fun kv => own_key (fst kv)) fs) ds.
Proof.
  induction fs as [|[k v] fs IH]; intros acc out Hnd Hdisj; cbn [decodeFields_loop].
  - intros [= <-]. exists []. rewrite app_nil_r. split; constructor.
  - destruct (decodeValue uid v) as [d|e] eqn:Ed; [|discriminate]. cbn [bind].
    cbn [map fst] in Hnd, Hdisj. inversion Hnd as [|k0 ks Hk Hks]; subst.
    cbn [filter fst]. destruct (own_key k) eqn:Ek.
    + rewrite set_prop_fresh by (auto; apply Hdisj; now left).
      intros H. apply IH in H; auto.
      * destruct H as [ds [-> HF]]. exists ((k, d) :: ds).
        split; [now rewrite <- app_assoc|]. constructor; [now split|exact HF].
      * intros k' Hk'. rewrite map_app, in_app_iff. cbn.
        intros [H1|[H2|[]]].
        -- apply (Hdisj k'); [now right | exact H1].
        -- cbn in H2. subst k'. contradiction.
    + rewrite set_prop_proto by exact Ek. intros H. apply IH in H; auto.
      intros k' Hk'. apply Hdisj. now right.
Qed.

Lemma decodeFields_object uid fs :
  decodeFields (JObj fs) uid = decodeFields_loop uid [] fs.
Proof. reflexivity. Qed.

(** X8. [decodeFields] decodes the fields one for one and in their
    order: the result is an object whose entries are the keys of the
    fields, each with the decoded value of its field, except a field named
    [__proto__], which leaves no entry.  A [mapValue] holding the same
    fields decodes to the same object. *)
Theorem decodeFields_entries (uid : string) (fs : list (string * JsValue))
  (decoded : JsValue) :
  NoDup (map fst fs) ->
  decodeFields (JObj fs) uid = Ok decoded ->
  (exists out,
     decoded = JObj out
     /\ Forall2 (decoded_from uid) (filter (fun kv => own_key (fst kv)) fs) out
     /\ map fst out = filter own_key (map fst fs))
  /\ (forall m rest, lookup "fields" m = Some (JObj fs) ->
        decodeValue uid (JObj (("mapValue", JObj m) :: rest)) = Ok decoded).
Proof.
  intros Hnd. rewrite decodeFields_object. intros H. split.
  - destruct (decodeFields_loop_object uid fs [] decoded H) as [out ->].
    destruct (decodeFields_loop_entries uid fs [] out Hnd) as [ds [-> HF]]; auto.
    exists ds. split; [reflexivity|]. split; [exact HF|].
    clear H Hnd. cbn [app] in *. revert ds HF.
    induction fs as [|[k v] fs IH]; intros ds HF; cbn [filter map fst] in *.
    + inversion HF. reflexivity.
    + destruct (own_key k).
      * inversion HF as [|? [k' d] ? ds' [Hk _] HF']; subst. cbn [map fst] in *.
        cbn in Hk. subst k'. f_equal. now apply IH.
      * now apply IH.
  - intros m rest Hm. now rewrite decodeValue_mapValue, Hm.
Qed.

Lemma decodeFields_loop_throws uid bad e k after :
  decodeValue uid bad = Throw e ->
  forall before acc,
    (forall k' v, In (k', v) before -> exists d, decodeValue uid v = Ok d) ->
    decodeFields_loop uid acc (before ++ (k, bad) :: after) = Throw e.
Proof.
  intros Hbad before. induction before as [|[k' v] before IH]; intros acc Hbefore;
    cbn [app decodeFields_loop].
  - now rewrite Hbad.
  - destruct (Hbefore k' v (or_introl eq_refl)) as [d ->]. cbn [bind].
    apply IH. intros k'' v' Hin. apply (Hbefore k'' v'). now right.
Qed.

Lemma map_decodeValue_throws uid bad e after :
  decodeValue uid bad = Throw e ->
  forall before,
    (forall v, In v before -> exists d, decodeValue uid v = Ok d) ->
    map_decodeValue uid (before ++ bad :: after) = Throw e.
Proof.
  intros Hbad before. induction before as [|v before IH]; intros Hbefore;
    cbn [app map_decodeValue].
  - now rewrite Hbad.
  - destruct (Hbefore v (or_introl eq_refl)) as [d ->]. cbn [bind].
    rewrite IH; [reflexivity|]. intros v' Hin. apply Hbefore. now right.
Qed.

(** What [packDoc] does with an object whose [name] is a string. *)
Lemma packDoc_object uid props name :
  lookup "name" props = Some (JStr name) ->
  packDoc uid (JObj props) =
  (data <- decodeFields (or_else (find_prop "fields" (fun x => x) JUndefined props)
                                 (JObj [])) uid ;;
   Ok (JObj [ ("id", JStr (split_pop "/" name));
              ("path", JStr (strip_resource_prefix name));
              ("createTime", find_prop "createTime" (fun x => x) JUndefined props);
              ("updateTime", find_prop "updateTime" (fun x => x) JUndefined props);
              ("data", data) ])).
Proof.
  intros Hname. unfold packDoc, docId. cbn [get bind].
  rewrite (find_prop_lookup "name"), Hname. cbn [bind stripDocPrefix]. reflexivity.
Qed.

Lemma packDocs_app uid pre packed rest :
  packDocs pre uid = Ok packed ->
  packDocs (pre ++ rest) uid = (others <- packDocs rest uid ;; Ok (packed ++ others)).
Proof.
  revert packed. induction pre as [|doc pre IH]; intros packed; cbn [packDocs app].
  - intros [= <-]. destruct (packDocs rest uid); reflexivity.
  - destruct (packDoc uid doc) as [p|e]; [|discriminate]. cbn [bind].
    destruct (packDocs pre uid) as [ps|e]; [|discriminate]. cbn [bind].
    intros [= <-]. rewrite (IH ps eq_refl).
    destruct (packDocs rest uid); reflexivity.
Qed.

(** X9. A map or array without its payload makes [decodeValue] throw,
    and a value that makes [decodeValue] throw aborts everything around
    it with the same error: the map or array that holds it, the fields of
    its document, and the packing of the whole collection, whatever the
    other documents are. *)
Theorem malformed_value_aborts_packing (uid : string) :
  (forall rest,
     decodeValue uid (JObj (("mapValue", JNull) :: rest))
     = Throw (TypeError "Cannot read properties of null (reading 'fields')")
     /\ decodeValue uid (JObj (("arrayValue", JNull) :: rest))
        = Throw (TypeError "Cannot read properties of null (reading 'values')"))
  /\ (forall bad e, decodeValue uid bad = Throw e ->
      (forall before k after,
         (forall k' v, In (k', v) before -> exists d, decodeValue uid v = Ok d) ->
         decodeFields (JObj (before ++ (k, bad) :: after)) uid = Throw e
         /\ (forall m rest,
               lookup "fields" m = Some (JObj (before ++ (k, bad) :: after)) ->
               decodeValue uid (JObj (("mapValue", JObj m) :: rest)) = Throw e)
         /\ (forall props name pre post,
               lookup "name" props = Some (JStr name) ->
               lookup "fields" props = Some (JObj (before ++ (k, bad) :: after)) ->
               (exists packed, packDocs pre uid = Ok packed) ->
               packDocs (pre ++ JObj props :: post) uid = Throw e))
      /\ (forall before after m rest,
            (forall v, In v before -> exists d, decodeValue uid v = Ok d) ->
            lookup "values" m = Some (JArr (before ++ bad :: after)) ->
            decodeValue uid (JObj (("arrayValue", JObj m) :: rest)) = Throw e)).
Proof.
  split; [intros rest; split; reflexivity|].
  intros bad e Hbad. split.
  - intros before k after Hbefore.
    assert (Hfields : decodeFields (JObj (before ++ (k, bad) :: after)) uid = Throw e).
    { rewrite decodeFields_object. now apply decodeFields_loop_throws. }
    split; [exact Hfields|]. split.
    + intros m rest Hm. rewrite decodeValue_mapValue, Hm.
      now apply decodeFields_loop_throws.
    + intros props name pre post Hname Hprops [packed Hpre].
      rewrite (packDocs_app uid pre packed _ Hpre). cbn [packDocs].
      rewrite (packDoc_object uid props name Hname).
      rewrite (find_prop_lookup "fields"), Hprops.
      change (or_else (JObj (before ++ (k, bad) :: after)) (JObj []))
        with (JObj (before ++ (k, bad) :: after)).
      rewrite Hfields. reflexivity.
  - intros before after m rest Hbefore Hm.
    rewrite decodeValue_arrayValue, Hm.
    now rewrite (map_decodeValue_throws uid bad e after Hbad before Hbefore).
Qed.

Lemma packDoc_packed_from uid doc packed :
  packDoc uid doc = Ok packed -> packed_from uid doc packed.
Proof.
  destruct doc as [| | | | | |props|];
    try (unfold packDoc, docId; cbn [get bind]; discriminate).
  destruct (lookup "name" props) as [name|] eqn:Hname.
  - destruct name as [| | | |name| | |];
      try (unfold packDoc, docId; cbn [get bind]; rewrite (find_prop_lookup "name"), Hname;
           cbn [bind]; discriminate).
    rewrite (packDoc_object uid props name Hname).
    set (fields := find_prop "fields" (fun x => x) JUndefined props).
    destruct (decodeFields (or_else fields (JObj [])) uid) as [data|e] eqn:Hdata;
      [|discriminate].
    cbn [bind]. intros [= <-].
    assert (Hobj : exists out, data = JObj out).
    { unfold decodeFields in Hdata. eapply decodeFields_loop_object. exact Hdata. }
    destruct Hobj as [out ->].
    split; [reflexivity|]. split; [reflexivity|]. split.
    + exists name. cbn [get]. rewrite (find_prop_lookup "name"), Hname.
      repeat split. apply strip_resource_prefix_segment.
    + exists fields, out. cbn [get]. split; [reflexivity|]. split; [exact Hdata|reflexivity].
  - unfold packDoc, docId. cbn [get bind]. rewrite (find_prop_lookup "name"), Hname.
    cbn [bind]. discriminate.
Qed.

Lemma packed_from_time uid doc packed :
  packed_from uid doc packed -> time_of packed = time_of doc.
Proof.
  intros [Hcreate _]. unfold time_of, createTime_ms. now rewrite Hcreate.
Qed.

Lemma sorted_by_time (docs packed : list JsValue) :
  map time_of packed = map time_of docs ->
  StronglySorted earlier_or_same docs -> StronglySorted earlier_or_same packed.
Proof.
  revert docs. induction packed as [|p packed IH]; intros [|d docs]; try discriminate;
    [constructor|].
  cbn [map]. intros [= Hp Hrest] Hsorted.
  apply StronglySorted_inv in Hsorted. destruct Hsorted as [Hdocs Hd].
  constructor; [now apply (IH docs)|].
  apply Forall_forall. intros q Hq. unfold earlier_or_same. rewrite Hp.
  apply (in_map time_of) in Hq. rewrite Hrest in Hq. apply in_map_iff in Hq.
  destruct Hq as [d' [<- Hd']]. rewrite Forall_forall in Hd. now apply Hd.
Qed.

Lemma packDocs_records uid docs :
  forall packed, packDocs docs uid = Ok packed -> Forall2 (packed_from uid) docs packed.
Proof.
  induction docs as [|doc docs IH]; intros packed; cbn [packDocs].
  - intros [= <-]. constructor.
  - destruct (packDoc uid doc) as [p|e] eqn:Hp; [|discriminate]. cbn [bind].
    destruct (packDocs docs uid) as [ps|e]; [|discriminate]. cbn [bind].
    intros [= <-]. constructor; [now apply packDoc_packed_from | now apply IH].
Qed.

Lemma packed_from_times uid docs packed :
  Forall2 (packed_from uid) docs packed -> map time_of packed = map time_of docs.
Proof.
  induction 1 as [|d p ds ps Hdp _ IH]; [reflexivity|].
  cbn [map]. now rewrite (packed_from_time uid d p Hdp), IH.
Qed.

(** X10. [packDocs] gives one record per document, in the order of the
    documents: each record keeps the two times of its document as they
    are, its [path] is the name without the resource prefix, its [id] is
    the last segment of the name and of the path alike, and its [data] is
    the object of the decoded fields.  So documents sorted by creation
    time are packed in that order. *)
Theorem packDocs_keeps_order (uid : string) (docs packed : list JsValue) :
  packDocs docs uid = Ok packed ->
  Forall2 (packed_from uid) docs packed
  /\ List.length packed = List.length docs
  /\ map time_of packed = map time_of docs
  /\ (StronglySorted earlier_or_same docs -> StronglySorted earlier_or_same packed).
Proof.
  intros H. pose proof (packDocs_records uid docs packed H) as HF.
  pose proof (packed_from_times uid docs packed HF) as Htimes.
  split; [exact HF|]. split; [|split].
  - symmetry. eapply Forall2_length; eauto.
  - exact Htimes.
  - now apply sorted_by_time.
Qed.

Lemma packDoc_wire uid doc :
  wire_document doc = true -> exists p, packDoc uid doc = Ok p.
Proof.
  intros Hdoc. destruct doc as [| | | | | |props|]; try discriminate.
  cbn [wire_document] in Hdoc. apply andb_prop in Hdoc. destruct Hdoc as [Hname Hfields].
  destruct (lookup "name" props) as [[| | | |name| | |]|] eqn:En; try discriminate.
  rewrite (packDoc_object uid props name En), (find_prop_lookup "fields").
  assert (Hdata : exists out,
            decodeFields (or_else match lookup "fields" props with
                                  | Some x => x
                                  | None => JUndefined
                                  end (JObj [])) uid = Ok (JObj out)).
  { destruct (lookup "fields" props) as [[| | | | | |fs|]|]; try discriminate.
    - change (or_else (JObj fs) (JObj [])) with (JObj fs). rewrite decodeFields_object.
      apply decodeFields_loop_total. intros k v Hin.
      rewrite forallb_forall in Hfields. specialize (Hfields (k, v) Hin).
      destruct (decodeValue_wire_sized uid (S (size v)) v) as [d [Hd _]]; eauto.
    - exists []. reflexivity. }
  destruct Hdata as [out ->]. cbn [bind]. eauto.
Qed.

(** X11. [packDocs] never throws on documents as Firestore sends them: it
    returns a record for each. *)
Theorem packDocs_total (uid : string) (docs : list JsValue) :
  forallb wire_document docs = true ->
  exists packed, packDocs docs uid = Ok packed
                 /\ List.length packed = List.length docs.
Proof.
  induction docs as [|doc docs IH]; cbn [forallb packDocs]; [eauto|].
  intros H. apply andb_prop in H. destruct H as [Hdoc Hdocs].
  destruct (IH Hdocs) as [ps [-> Hlen]].
  destruct (packDoc_wire uid doc Hdoc) as [p ->]. cbn [bind].
  eexists. split; [reflexivity|]. cbn [List.length]. now rewrite Hlen.
Qed.

End PackagingFacts.

(* ================================================================== *)
(** * Sorting again, refused queries and endless pagination *)
(* ================================================================== *)

Section SortingFacts.
Context {P : Platform}.

Lemma dated_all_defined docs :
  forallb dated docs = true ->
  filter (fun v => negb (is_undefined v)) docs = docs /\ filter is_undefined docs = [].
Proof.
  induction docs as [|d docs IH]; [split; reflexivity|].
  cbn [forallb]. intros H. apply andb_prop in H. destruct H as [Hd Hdocs].
  destruct (IH Hdocs) as [IH1 IH2]. cbn [filter].
  rewrite (dated_not_undefined d Hd). cbn [negb]. now rewrite IH1, IH2.
Qed.

Lemma sort_defined_sorted docs :
  forallb dated docs = true -> StronglySorted earlier_or_same docs ->
  sort_defined compare_createTime docs = Ok docs.
Proof.
  induction docs as [|x docs IH]; [reflexivity|].
  cbn [forallb]. intros H Hsorted. apply andb_prop in H. destruct H as [Hx Hdocs].
  apply StronglySorted_inv in Hsorted. destruct Hsorted as [Hrest Hfirst].
  cbn [sort_defined]. rewrite (IH Hdocs Hrest). cbn [bind].
  destruct docs as [|y docs]; [reflexivity|].
  cbn [forallb] in Hdocs. apply andb_prop in Hdocs. destruct Hdocs as [Hy _].
  cbn [sort_insert]. rewrite (compare_createTime_dated x y Hx Hy). cbn [bind sorts_after].
  apply Forall_inv in Hfirst. unfold earlier_or_same in Hfirst.
  replace (0 <? time_of x - time_of y)%Z with false; [reflexivity|].
  symmetry. apply Z.ltb_ge. lia.
Qed.

(** X12. Documents with readable creation times that are already in
    non-decreasing order come back from [sortByCreateTimeAsc] as they
    are; so sorting is idempotent: sorting what it returned changes
    nothing. *)
Theorem sortByCreateTimeAsc_idempotent (docs : list JsValue) :
  forallb dated docs = true ->
  (StronglySorted earlier_or_same docs -> sortByCreateTimeAsc docs = Ok docs)
  /\ (forall sorted, sortByCreateTimeAsc docs = Ok sorted ->
        sortByCreateTimeAsc sorted = Ok sorted).
Proof.
  assert (Hsame : forall l, forallb dated l = true -> StronglySorted earlier_or_same l ->
                            sortByCreateTimeAsc l = Ok l).
  { intros l Hl Hsorted. unfold sortByCreateTimeAsc, Array_sort.
    destruct (dated_all_defined l Hl) as [-> ->].
    rewrite (sort_defined_sorted l Hl Hsorted). cbn [bind]. now rewrite app_nil_r. }
  intros Hdated. split; [now apply Hsame|].
  intros sorted. unfold sortByCreateTimeAsc at 1. unfold Array_sort.
  destruct (dated_all_defined docs Hdated) as [-> ->].
  destruct (sort_defined_dated docs Hdated) as [r [-> [Hperm [Hsorted _]]]].
  cbn [bind]. rewrite app_nil_r. intros [= <-].
  apply Hsame; [|exact Hsorted].
  rewrite forallb_forall in *. intros d Hd. apply Hdated.
  apply (Permutation_in d (Permutation_sym Hperm) Hd).
Qed.

End SortingFacts.

Section FallbackFacts.
Context {P : Platform}.

Lemma prefix_append p a b : String.prefix p a = true -> String.prefix p (a ++ b) = true.
Proof.
  revert a. induction p as [|c p IH]; intros a; [now destruct (a ++ b)%string|].
  destruct a as [|d a]; [discriminate|]. simpl.
  destruct (ascii_dec c d); [apply IH|discriminate].
Qed.

Lemma includes_left a b p : includes a p = true -> includes (a ++ b) p = true.
Proof.
  induction a as [|c a IH].
  - simpl. rewrite orb_false_r. destruct p; [|discriminate]. intros _.
    destruct b; simpl; reflexivity.
  - cbn [includes]. intros H. apply orb_prop in H. destruct H as [H|H].
    + change ((String c a) ++ b)%string with (String c (a ++ b)).
      cbn [includes]. change (String c (a ++ b)) with ((String c a) ++ b)%string.
      now rewrite (prefix_append p (String c a) b H).
    + change ((String c a) ++ b)%string with (String c (a ++ b)).
      cbn [includes]. rewrite (IH H). apply orb_true_r.
Qed.

Lemma includes_right a b p : includes b p = true -> includes (a ++ b) p = true.
Proof.
  intros H. induction a as [|c a IH]; [exact H|].
  change ((String c a) ++ b)%string with (String c (a ++ b)).
  cbn [includes]. rewrite IH. apply orb_true_r.
Qed.

Lemma listAll_loop_listing (fetch fetch' : Fetch) :
  (forall u h, fetch (GET u h) = fetch' (GET u h)) ->
  forall fuel path headers clause documents token,
    listAll_loop fetch fuel path headers clause documents token
    = listAll_loop fetch' fuel path headers clause documents token.
Proof.
  intros Hget. induction fuel as [|fuel IH]; intros; [reflexivity|].
  cbn [listAll_loop]. unfold httpGET. rewrite Hget.
  destruct (_ <- _ ;; _) as [[documents' token']|e]; [|reflexivity].
  destruct (truthy token'); [apply IH | reflexivity].
Qed.

Lemma runQueryAll_refused status text listing fuel path collectionId headers field :
  1 <= fuel ->
  runQueryAll (refusing status text listing) fuel path collectionId headers field
  = Some (Throw (post_failure status text)).
Proof. destruct fuel as [|fuel]; [lia|]. reflexivity. Qed.

(** X13. When the store refuses the chat query, whatever the status,
    [exportKin] and [exportGroup] take the messages from the listing
    instead and get them all; the journal is taken from the listing only
    when the text of the error carries [PERMISSION_DENIED] or [403], and
    the error is rethrown otherwise.  The test reads the whole text: a
    status of 403 passes it, and so does any status whose body mentions
    either word. *)
Theorem refused_query_falls_back (status : nat) (text : string) (cap fuel : nat)
  (ds : list JsValue) (path collectionId : string) (headers : Headers) :
  1 <= cap -> List.length ds < fuel ->
  let fetch := refusing status text (list_backend cap ds) in
  export_chatDocs fetch fuel path headers = Some (Ok ds)
  /\ (is_permission_error (post_failure status text) = true ->
      fetchJournalAll fetch fuel path collectionId headers = Some (Ok ds))
  /\ (is_permission_error (post_failure status text) = false ->
      fetchJournalAll fetch fuel path collectionId headers
      = Some (Throw (post_failure status text)))
  /\ (status = 403 \/ includes text "PERMISSION_DENIED" = true
      \/ includes text "403" = true ->
      is_permission_error (post_failure status text) = true).
Proof.
  intros Hcap Hfuel fetch.
  assert (Hlist : forall collectionPath clause,
            listAll fetch fuel collectionPath headers clause = Some (Ok ds)).
  { intros collectionPath clause. unfold listAll.
    rewrite (listAll_loop_listing fetch (list_backend cap ds)) by reflexivity.
    apply (listAll_loop_complete cap ds collectionPath clause headers Hcap fuel 0 []).
    lia. }
  split; [|split; [|split]].
  - unfold export_chatDocs, fetch. rewrite runQueryAll_refused by lia. apply Hlist.
  - intros He. unfold fetchJournalAll, fetch. rewrite runQueryAll_refused by lia.
    rewrite He. apply Hlist.
  - intros He. unfold fetchJournalAll, fetch. rewrite runQueryAll_refused by lia.
    now rewrite He.
  - unfold is_permission_error, post_failure, newError, String_of_error.
    cbn [err_name err_message]. change ("Error" =? "")%string with false. cbv iota.
    set (message := ("HTTP POST failed: " ++ String_of_nat status ++ " " ++ text)%string).
    assert (Hmessage : (message =? "")%string = false) by reflexivity.
    rewrite Hmessage.
    intros [->|[H|H]]; apply orb_true_iff.
    + right. apply (includes_right "Error: "), (includes_right "HTTP POST failed: ").
      apply (includes_left "403"). reflexivity.
    + left. apply (includes_right "Error: "), (includes_right "HTTP POST failed: ").
      apply includes_right. now apply (includes_right " ").
    + right. apply (includes_right "Error: "), (includes_right "HTTP POST failed: ").
      apply includes_right. now apply (includes_right " ").
Qed.

Lemma valueForCursor_truthy doc field :
  truthy doc = true -> exists c, valueForCursor doc field = Ok c.
Proof.
  intros Hdoc. unfold valueForCursor.
  destruct (field =? "__name__")%string.
  - destruct doc; try discriminate; cbn [get bind]; eauto.
  - assert (Hfields : exists fields, get doc "fields" = Ok fields)
      by (destruct doc; try discriminate; cbn [get]; eauto).
    destruct Hfields as [fields ->]. cbn [bind].
    destruct fields; cbn [nullish get bind]; eauto.
Qed.

Lemma last_truthy (page : list JsValue) :
  page <> [] -> Forall (fun d => truthy d = true) page ->
  truthy (last page JUndefined) = true.
Proof.
  intros Hne Hall. rewrite Forall_forall in Hall. apply Hall.
  destruct page as [|d page]; [contradiction|].
  destruct (@exists_last _ (d :: page)) as [front [z E]]; [discriminate|].
  rewrite E, last_last. apply in_or_app. right. now left.
Qed.

(** X14. Neither loop has a bound of its own.  [listAll] goes on for as
    long as responses carry a continuation token, and [runQueryAll] for as
    long as pages are full: against a store that always answers so,
    neither returns, however long it runs. *)
Theorem pagination_unbounded (fetch : Fetch) (headers : Headers) :
  ((forall url, exists body docs token,
       httpGET fetch url headers = Ok body
       /\ get body "documents" = Ok docs
       /\ (truthy docs = false \/ exists page, docs = JArr page)
       /\ get body "nextPageToken" = Ok token
       /\ truthy token = true) ->
   forall fuel collectionPath orderByClause,
     listAll fetch fuel collectionPath headers orderByClause = None)
  /\ ((forall url query, exists rows ds,
         httpPOST fetch url headers query = Ok (JArr rows)
         /\ map_document rows = Ok ds
         /\ QUERY_PAGE_SIZE CONFIG <= List.length (filter truthy ds)) ->
      forall fuel parentDocPath collectionId orderField,
        runQueryAll fetch fuel parentDocPath collectionId headers orderField = None).
Proof.
  split.
  - intros Hmore fuel collectionPath orderByClause. unfold listAll.
    generalize (@nil JsValue) (JStr "").
    induction fuel as [|fuel IH]; intros documents pageToken; [reflexivity|].
    cbn [listAll_loop].
    destruct (Hmore (listAll_url collectionPath orderByClause pageToken))
      as [body [docs [token [Hbody [Hd [Hdocs [Hnext Htoken]]]]]]].
    rewrite Hbody. cbn [bind]. rewrite Hd. cbn [bind].
    destruct Hdocs as [Hdocs|[page ->]].
    + rewrite Hdocs. cbn [bind]. rewrite Hnext. cbn [bind]. unfold or_else.
      rewrite Htoken, Htoken. apply IH.
    + cbn [truthy spread bind]. rewrite Hnext. cbn [bind]. unfold or_else.
      rewrite Htoken, Htoken. apply IH.
  - intros Hfull fuel parentDocPath collectionId orderField. unfold runQueryAll.
    assert (Hstart : JNull = JNull \/ truthy JNull = true) by now left.
    revert Hstart. generalize (@nil JsValue). generalize JNull at 1 3 4.
    induction fuel as [|fuel IH]; intros lastDoc documents HlastDoc; [reflexivity|].
    cbn [runQueryAll_loop]. unfold runQueryAll_page.
    assert (Hquery : exists query,
              runQueryAll_query collectionId orderField lastDoc = Ok query).
    { unfold runQueryAll_query. destruct HlastDoc as [->|Htruthy]; [cbn; eauto|].
      rewrite Htruthy.
      destruct (valueForCursor_truthy lastDoc orderField Htruthy) as [c1 ->].
      destruct (valueForCursor_truthy lastDoc "__name__" Htruthy) as [c2 ->].
      cbn [bind]. eauto. }
    destruct Hquery as [query ->]. cbn [bind].
    destruct (Hfull (mkUrl (firestoreUrl parentDocPath ++ ":runQuery") []) query)
      as [rows [ds [Hrows [Hds Hlen]]]].
    rewrite Hrows. cbn [bind]. rewrite Hds. cbn [bind].
    assert (Hlimit : 1 <= QUERY_PAGE_SIZE CONFIG) by (cbn; lia).
    replace (Nat.eqb (List.length (filter truthy ds)) 0) with false
      by (symmetry; apply Nat.eqb_neq; lia).
    replace (Nat.ltb (List.length (filter truthy ds)) (QUERY_PAGE_SIZE CONFIG)) with false
      by (symmetry; apply Nat.ltb_ge; lia).
    apply IH. right. apply last_truthy.
    + intros E. rewrite E in Hlen. cbn in Hlen. lia.
    + apply Forall_forall. intros d Hd. now apply filter_In in Hd.
Qed.

End FallbackFacts.

(* ================================================================== *)
(** * The journal fallback *)
(* ================================================================== *)

Section JournalFacts.
Context {P : Platform}.

(** The listing strategy against a store that refuses queries. *)
Lemma listAll_refusing status text cap ds fuel path headers clause :
  1 <= cap -> List.length ds < fuel ->
  listAll (refusing status text (list_backend cap ds)) fuel path headers clause
  = Some (Ok ds).
Proof.
  intros Hcap Hfuel. unfold listAll.
  rewrite (listAll_loop_listing (refusing status text (list_backend cap ds))
             (list_backend cap ds)) by reflexivity.
  apply (listAll_loop_complete cap ds path clause headers Hcap fuel 0 []). lia.
Qed.

(** The text of a refused query passes the test of the [catch] clause
    when the status is 403 or the body mentions either word. *)
Lemma refused_text_passes status text :
  status = 403 \/ includes text "PERMISSION_DENIED" = true \/ includes text "403" = true ->
  is_permission_error (post_failure status text) = true.
Proof.
  unfold is_permission_error, post_failure, newError, String_of_error.
  cbn [err_name err_message]. change ("Error" =? "")%string with false. cbv iota.
  set (message := ("HTTP POST failed: " ++ String_of_nat status ++ " " ++ text)%string).
  assert (Hmessage : (message =? "")%string = false) by reflexivity.
  rewrite Hmessage.
  intros [->|[H|H]]; apply orb_true_iff.
  - right. apply (includes_right "Error: "), (includes_right "HTTP POST failed: ").
    apply (includes_left "403"). reflexivity.
  - left. apply (includes_right "Error: "), (includes_right "HTTP POST failed: ").
    apply includes_right. now apply (includes_right " ").
  - right. apply (includes_right "Error: "), (includes_right "HTTP POST failed: ").
    apply includes_right. now apply (includes_right " ").
Qed.

End JournalFacts.

Section JournalClaims.
Context {P : Platform}.
Variable fetch : Fetch.

(** C4. [fetchJournalAll] first runs the query strategy ordered by
    [created]; what that returns is returned.  When, and only when, it
    throws an error whose text carries [PERMISSION_DENIED] or [403], the
    listing strategy runs once over the same path with the order clause
    [created asc,__name__ asc], and its outcome, error included, is the
    outcome; any other error of the query is rethrown.  So against a
    store that refuses the query and serves listings, the journal is the
    whole collection when the error [httpPOST] throws passes that test, as
    it does for status 403 and for any body that mentions either word, and
    that error otherwise. *)
Theorem fetchJournalAll_fallback (fuel : nat) (parentDocPath collectionId : string)
  (headers : Headers) :
  let query := runQueryAll fetch fuel parentDocPath collectionId headers "created" in
  let listing := listAll fetch fuel (parentDocPath ++ "/" ++ collectionId) headers
                   (Some "created asc,__name__ asc") in
  let journal := fetchJournalAll fetch fuel parentDocPath collectionId headers in
  (forall documents, query = Some (Ok documents) -> journal = Some (Ok documents))
  /\ (forall e, query = Some (Throw e) -> is_permission_error e = true ->
        journal = listing)
  /\ (forall e, query = Some (Throw e) -> is_permission_error e = false ->
        journal = Some (Throw e))
  /\ (forall e e', query = Some (Throw e) -> is_permission_error e = true ->
        listing = Some (Throw e') -> journal = Some (Throw e'))
  /\ (forall lastDoc q, runQueryAll_query collectionId "created" lastDoc = Ok q ->
        orderBy q = query_order "created" /\ from q = [collectionId])
  /\ (forall pageToken,
        let u := listAll_url (parentDocPath ++ "/" ++ collectionId)
                   (Some "created asc,__name__ asc") pageToken in
        url_path u = firestoreUrl (parentDocPath ++ "/" ++ collectionId)
        /\ params_get (url_query u) "orderBy" = Some "created asc,__name__ asc")
  /\ (forall status text cap ds,
        1 <= cap -> List.length ds < fuel ->
        let store := refusing status text (list_backend cap ds) in
        runQueryAll store fuel parentDocPath collectionId headers "created"
        = Some (Throw (post_failure status text))
        /\ (is_permission_error (post_failure status text) = true ->
            fetchJournalAll store fuel parentDocPath collectionId headers = Some (Ok ds))
        /\ (is_permission_error (post_failure status text) = false ->
            fetchJournalAll store fuel parentDocPath collectionId headers
            = Some (Throw (post_failure status text))))
  /\ (forall status text,
        status = 403 \/ includes text "PERMISSION_DENIED" = true
        \/ includes text "403" = true ->
        is_permission_error (post_failure status text) = true).
Proof.
  intros query listing journal.
  assert (Hquery : forall lastDoc q,
            runQueryAll_query collectionId "created" lastDoc = Ok q ->
            orderBy q = query_order "created" /\ from q = [collectionId]).
  { intros lastDoc q H. unfold runQueryAll_query in H. destruct (truthy lastDoc).
    - destruct (valueForCursor lastDoc "created"); [|discriminate].
      cbn -[valueForCursor] in H.
      destruct (valueForCursor lastDoc "__name__"); [|discriminate].
      injection H as <-. split; reflexivity.
    - injection H as <-. split; reflexivity. }
  split; [|split; [|split; [|split; [|split; [exact Hquery|split; [|split]]]]]].
  - intros documents H. unfold journal, fetchJournalAll. fold query. now rewrite H.
  - intros e H He. unfold journal, fetchJournalAll. fold query. now rewrite H, He.
  - intros e H He. unfold journal, fetchJournalAll. fold query. now rewrite H, He.
  - intros e e' H He Hlisting. unfold journal, fetchJournalAll. fold query.
    rewrite H, He. exact Hlisting.
  - intros pageToken. unfold listAll_url. destruct (truthy pageToken); split; reflexivity.
  - intros status text cap ds Hcap Hfuel store.
    assert (Hrefused : runQueryAll store fuel parentDocPath collectionId headers "created"
                       = Some (Throw (post_failure status text)))
      by (apply runQueryAll_refused; lia).
    split; [exact Hrefused|]. unfold fetchJournalAll. rewrite Hrefused. split.
    + intros ->. now apply listAll_refusing.
    + intros ->. reflexivity.
  - apply refused_text_passes.
Qed.

End JournalClaims.

(* ================================================================== *)
(** * The files and the fetches of a download *)
(* ================================================================== *)

Section PoolBounds.
Context {P : Platform}.
Variable world : World.

Lemma step_contained items fs0 w st :
  Accounted items st -> Contained fs0 items st -> Contained fs0 items (step world w st).
Proof.
  intros Hacc Hcont.
  step_cases w st; intros p; cbn [files complete fail suspend]; try apply Hcont.
  unfold file_exists. cbn [existsb]. intros Hp. apply orb_prop in Hp.
  destruct Hp as [Hp|Hp]; [|now apply Hcont].
  apply String.eqb_eq in Hp. right. exists item. split; [|now symmetry].
  eapply held_submitted; eauto. now left.
Qed.

Lemma run_contained items fs0 schedule :
  forall st, Accounted items st -> Contained fs0 items st ->
             Contained fs0 items (run world schedule st).
Proof.
  induction schedule as [|w schedule IH]; intros st Hacc Hcont; [exact Hcont|].
  apply IH; [now apply step_accounted | now apply step_contained].
Qed.

Section Counting.
Variable m : list DownloadTask -> nat.
Hypothesis m_app : forall a b, m (a ++ b) = m a + m b.
Hypothesis m_perm : forall a b, Permutation a b -> m a = m b.

Lemma m_nil : m [] = 0.
Proof. pose proof (m_app [] []) as H. cbn [app] in H. lia. Qed.

Lemma set_worker_flat_map (f : Worker -> list DownloadTask) ws w old x :
  nth_error ws w = Some old ->
  Permutation (f old ++ flat_map f (set_worker ws w x)) (f x ++ flat_map f ws).
Proof.
  revert w. induction ws as [|y ws IH]; intros [|w]; simpl; try discriminate.
  - intros [= ->]. apply Permutation_app_swap_app.
  - intros Hw. rewrite Permutation_app_swap_app, (IH w Hw).
    apply Permutation_app_swap_app.
Qed.

Lemma m_set_worker (f : Worker -> list DownloadTask) ws w old x :
  nth_error ws w = Some old ->
  m (f old) + m (flat_map f (set_worker ws w x)) = m (f x) + m (flat_map f ws).
Proof.
  intros Hw. rewrite <- !m_app. apply m_perm. now apply set_worker_flat_map.
Qed.

Lemma step_fetch_bound w st : FetchBound m st -> FetchBound m (step world w st).
Proof.
  unfold FetchBound. intros H. pose proof m_nil as Hnil.
  step_cases w st; try exact H; trace_events;
    match goal with
    | |- context [set_worker (workers st) w ?x] =>
        pose proof (m_set_worker past_access (workers st) w _ x Hw) as E
    end;
    cbn [past_access] in E; rewrite ?m_app in *; lia.
Qed.

Lemma run_fetch_bound schedule :
  forall st, FetchBound m st -> FetchBound m (run world schedule st).
Proof.
  induction schedule as [|w schedule IH]; intros st Hst; [exact Hst|].
  apply IH. now apply step_fetch_bound.
Qed.

Lemma past_access_held ws : m (flat_map past_access ws) <= m (flat_map holding ws).
Proof.
  pose proof m_nil as Hnil.
  induction ws as [|x ws IH]; cbn [flat_map]; [lia|].
  rewrite !m_app. destruct x; cbn [past_access holding]; lia.
Qed.

Lemma fetches_bounded items st :
  Accounted items st -> FetchBound m st -> m (fetched (trace st)) <= m items.
Proof.
  intros Hacc Hbound. unfold FetchBound in Hbound.
  rewrite (m_perm _ _ (acc_items _ _ Hacc)), !m_app.
  pose proof (past_access_held (workers st)) as Hheld. unfold in_flight. lia.
Qed.

Lemma fetches_bounded_run n fs items schedule :
  m (fetched (trace (run world schedule (start n fs items)))) <= m items.
Proof.
  apply fetches_bounded.
  - apply run_accounted, start_accounted.
  - apply run_fetch_bound. unfold FetchBound. cbn [start trace fetched flat_map].
    rewrite m_nil. lia.
Qed.

End Counting.

(** X15. At every point of a download, whatever the number of workers
    and the order in which they are resumed: the destination of every item
    counted as succeeded is on disk; the files that were there at the
    start are still there, and every other file is the destination of a
    submitted item; and a fetch has been issued only for a submitted item
    whose destination was missing at the start. *)
Theorem downloaded_files_on_disk (n : nat) (fs : list string)
  (items : list DownloadTask) (schedule : list nat) :
  let st := run world schedule (start n fs items) in
  Forall (fun item => file_exists (files st) (dest item) = true) (succeeded (trace st))
  /\ (forall p, file_exists fs p = true -> file_exists (files st) p = true)
  /\ (forall p, file_exists (files st) p = true ->
        file_exists fs p = true \/ exists item, In item items /\ dest item = p)
  /\ Forall (fun item => In item items /\ file_exists fs (dest item) = false)
            (fetched (trace st)).
Proof.
  intros st.
  assert (Hneed : Needed fs items st).
  { apply run_needed; [apply start_accounted|].
    constructor; cbn [start files trace fetched flat_map]; auto. }
  split; [|split; [|split]].
  - apply run_kept. unfold Kept. cbn. constructor.
  - exact (need_files _ _ _ Hneed).
  - apply (run_contained items fs schedule); [apply start_accounted|].
    intros p Hp. now left.
  - exact (need_fetched _ _ _ Hneed).
Qed.

(** X16. At every point of a download no item has been fetched more
    often than it was submitted, so at most once when the items are
    distinct, and there are no more fetches than items; the items counted,
    those in the hands of a worker and those left in the array always add
    up to the items submitted, so that the progress shown is never more
    than the total. *)
Theorem download_fetches_once (n : nat) (fs : list string)
  (items : list DownloadTask) (schedule : list nat) :
  let st := run world schedule (start n fs items) in
  (forall item, count_occ task_eq_dec (fetched (trace st)) item
                <= count_occ task_eq_dec items item)
  /\ (NoDup items -> NoDup (fetched (trace st)))
  /\ List.length (fetched (trace st)) <= List.length items
  /\ completed st + failed st + List.length (in_flight st)
     + List.length (itemsToProcess st) = List.length items.
Proof.
  intros st.
  assert (Hcount : forall item, count_occ task_eq_dec (fetched (trace st)) item
                                <= count_occ task_eq_dec items item).
  { intros item.
    apply (fetches_bounded_run (fun l => count_occ task_eq_dec l item)).
    - intros a b. apply count_occ_app.
    - intros a b Hab. now apply Permutation_count_occ. }
  split; [exact Hcount|]. split; [|split].
  - intros Hnd. apply (NoDup_count_occ task_eq_dec). intros item.
    rewrite (NoDup_count_occ task_eq_dec) in Hnd. specialize (Hnd item).
    specialize (Hcount item). lia.
  - apply (fetches_bounded_run (@List.length DownloadTask)).
    + intros a b. apply length_app.
    + intros a b. apply Permutation_length.
  - assert (Hacc : Accounted items st) by apply run_accounted, start_accounted.
    rewrite (Permutation_length (acc_items _ _ Hacc)), !length_app, outcomes_length.
    rewrite (acc_completed _ _ Hacc), (acc_failed _ _ Hacc). lia.
Qed.

End PoolBounds.

(* ================================================================== *)
(** * Arrays and the first key *)
(* ================================================================== *)

Section DecoderShapes.
Context {P : Platform}.

Lemma map_decodeValue_elements uid l :
  forall ds, map_decodeValue uid l = Ok ds ->
             Forall2 (fun v d => decodeValue uid v = Ok d) l ds.
Proof.
  induction l as [|v l IH]; intros ds; cbn [map_decodeValue].
  - intros [= <-]. constructor.
  - destruct (decodeValue uid v) as [d|e] eqn:Hd; [|discriminate]. cbn [bind].
    destruct (map_decodeValue uid l) as [ds'|e]; [|discriminate]. cbn [bind].
    intros [= <-]. constructor; [exact Hd | now apply IH].
Qed.

(** X17. An [arrayValue] decodes to an array of the decoded elements,
    one for one and in their order; without [values] it decodes to the
    empty array. *)
Theorem decodeValue_array_elements (uid : string) (m rest : list (string * JsValue)) :
  (forall l decoded,
     lookup "values" m = Some (JArr l) ->
     decodeValue uid (JObj (("arrayValue", JObj m) :: rest)) = Ok decoded ->
     exists ds, decoded = JArr ds
                /\ Forall2 (fun v d => decodeValue uid v = Ok d) l ds
                /\ List.length ds = List.length l)
  /\ (lookup "values" m = None ->
      decodeValue uid (JObj (("arrayValue", JObj m) :: rest)) = Ok (JArr [])).
Proof.
  rewrite decodeValue_arrayValue. split.
  - intros l decoded ->.
    destruct (map_decodeValue uid l) as [ds|e] eqn:Hds; [|discriminate].
    cbn [bind]. intros [= <-]. exists ds.
    pose proof (map_decodeValue_elements uid l ds Hds) as HF.
    split; [reflexivity|]. split; [exact HF|].
    symmetry. eapply Forall2_length; eauto.
  - now intros ->.
Qed.

(** X18. Of a value object only the first key is looked at: under a key
    [decodeValue] interprets, whatever follows it changes nothing. *)
Theorem decodeValue_first_key_decides (uid key : string) (payload : JsValue)
  (rest : list (string * JsValue)) :
  recognized key = true ->
  decodeValue uid (JObj ((key, payload) :: rest))
  = decodeValue uid (JObj [(key, payload)]).
Proof.
  unfold recognized. cbn [existsb]. intros H.
  repeat (apply orb_prop in H; destruct H as [H|H];
          [apply String.eqb_eq in H; subst key; reflexivity|]).
  discriminate.
Qed.

End DecoderShapes.

(* ================================================================== *)
(** * The pinned messages as they are written *)
(* ================================================================== *)

Section PayloadFacts.
Context {P : Platform}.

Lemma forallb_permutation {A} (f : A -> bool) (l l' : list A) :
  Permutation l l' -> forallb f l = true -> forallb f l' = true.
Proof.
  intros Hperm Hl. rewrite forallb_forall in *. intros x Hx. apply Hl.
  apply (Permutation_in x (Permutation_sym Hperm) Hx).
Qed.

(** X19. The pinned messages of a Kin or a group, listed page by page
    from a store of well-formed documents with readable creation times,
    are written as one record per document, under the count of the
    documents, in non-decreasing creation time: the records are those of
    the sorted documents, in their order. *)
Theorem pinned_export_sorted (cap fuel : nat) (ds : list JsValue)
  (path : string) (headers : Headers) (uid : string) :
  1 <= cap -> List.length ds < fuel ->
  forallb dated ds = true -> forallb wire_document ds = true ->
  exists sorted items,
    export_pinned (list_backend cap ds) fuel path headers uid
    = Some (Ok (List.length ds, items))
    /\ sortByCreateTimeAsc ds = Ok sorted
    /\ Permutation ds sorted
    /\ Forall2 (packed_from uid) sorted items
    /\ List.length items = List.length ds
    /\ StronglySorted earlier_or_same items.
Proof.
  intros Hcap Hfuel Hdated Hwire.
  assert (Hlist : listAll (list_backend cap ds) fuel (path ++ "/PinnedMessages") headers None
                  = Some (Ok ds)).
  { unfold listAll.
    apply (listAll_loop_complete cap ds (path ++ "/PinnedMessages") None headers Hcap
             fuel 0 []). lia. }
  destruct (sort_defined_dated ds Hdated) as [sorted [Hs [Hperm [Hsorted _]]]].
  assert (Hsort : sortByCreateTimeAsc ds = Ok sorted).
  { unfold sortByCreateTimeAsc, Array_sort.
    destruct (dated_all_defined ds Hdated) as [-> ->]. rewrite Hs. cbn [bind].
    now rewrite app_nil_r. }
  assert (Hwire' : forallb wire_document sorted = true)
    by exact (forallb_permutation wire_document ds sorted Hperm Hwire).
  assert (Hpacked : exists items, packDocs sorted uid = Ok items).
  { clear Hs Hperm Hsorted Hsort. induction sorted as [|d sorted IH]; [cbn; eauto|].
    cbn [forallb] in Hwire'. apply andb_prop in Hwire'. destruct Hwire' as [Hd Hrest].
    cbn [packDocs]. destruct (packDoc_wire uid d Hd) as [p ->].
    destruct (IH Hrest) as [ps ->]. cbn [bind]. eauto. }
  destruct Hpacked as [items Hitems].
  pose proof (packDocs_records uid sorted items Hitems) as HF.
  exists sorted, items.
  split; [|split; [exact Hsort|split; [exact Hperm|split; [exact HF|split]]]].
  - unfold export_pinned, export_pinnedDocs. rewrite Hlist, Hsort.
    unfold json_payload. rewrite Hitems. cbn [bind].
    now rewrite (Permutation_length Hperm).
  - rewrite <- (Forall2_length HF). symmetry. apply (Permutation_length Hperm).
  - apply (sorted_by_time sorted items); [|exact Hsorted].
    now apply (packed_from_times uid).
Qed.

End PayloadFacts.

(* ================================================================== *)
(** * The properties at work on the sample platform *)
(* ================================================================== *)

#[local] Existing Instance Sample.platform.

Lemma strictly_sorted_sound {A} (before : A -> A -> bool) (l : list A) :
  strictly_sorted before l = true -> StronglySorted (fun a b => before a b = true) l.
Proof.
  induction l as [|x l IH]; intros H; [constructor|].
  simpl in H. apply andb_prop in H. destruct H as [Hx Hl].
  constructor; [now apply IH|].
  apply Forall_forall. now apply forallb_forall.
Qed.

Lemma sample_sorts_before_irrefl a : Sample.sorts_before a a = false.
Proof. apply Nat.ltb_irrefl. Qed.

Lemma sample_sorts_before_trans a b c :
  Sample.sorts_before a b = true -> Sample.sorts_before b c = true ->
  Sample.sorts_before a c = true.
Proof.
  unfold Sample.sorts_before. rewrite !Nat.ltb_lt. lia.
Qed.

Lemma sample_utf8_reads_marker_exactly :
  utf8_reads_marker_exactly (P := Sample.platform).
Proof.
  intros bs _. cbn [Buffer_toString_utf8 Sample.platform]. unfold bytes_eqb.
  destruct (list_eq_dec Byte.byte_eq_dec bs Salted__) as [->|Hne]; [reflexivity|].
  apply String.eqb_neq. intros H. apply Hne.
  rewrite <- (list_byte_of_string_of_list_byte bs), H. reflexivity.
Qed.

Lemma decodeValue_passes_non_objects_witness :
  decodeValue (P := Sample.platform) "uid" (JStr "plain") = Ok (JStr "plain").
Proof.
  apply (decodeValue_passes_non_objects "uid" (JStr "plain")).
  right. discriminate.
Defined.

Lemma decodeValue_decrypt_failure_keeps_text_witness :
  decodeValue (P := Sample.platform) "uid" (JObj [("stringValue", JStr "!enc:AAAA")])
  = Ok (JStr "!enc:AAAA").
Proof.
  apply (decodeValue_decrypt_failure_keeps_text "uid" "!enc:AAAA" []); reflexivity.
Defined.

Lemma decodeValue_total_witness :
  wire Sample.ada = true
  /\ exists d, decodeValue (P := Sample.platform) "uid" Sample.ada = Ok d
               /\ treated_as Sample.ada d = true.
Proof.
  split; [reflexivity|].
  apply (proj1 (decodeValue_total "uid") Sample.ada). reflexivity.
Defined.

Lemma decryptEncString_reference_witness :
  decryptEncString (P := Sample.platform) "Salted__12345678abcdefghijklmnop" "uid"
  = option_map Buffer_toString_utf8
      (spec_decrypt (Buffer_from_base64 "Salted__12345678abcdefghijklmnop")
                    (Buffer_from_utf8 "uid")).
Proof.
  apply (decryptEncString_reference "Salted__12345678abcdefghijklmnop" "uid").
  exact sample_utf8_reads_marker_exactly.
Defined.

Lemma fetchJournalAll_fallback_witness :
  fetchJournalAll (P := Sample.platform) Sample.unindexed 5 "Users/u" "J" Sample.headers
  = listAll Sample.unindexed 5 ("Users/u" ++ "/" ++ "J") Sample.headers
      (Some "created asc,__name__ asc").
Proof.
  apply (proj1 (proj2 (fetchJournalAll_fallback Sample.unindexed 5 "Users/u" "J"
                         Sample.headers))
           (newError "HTTP POST failed: 403 PERMISSION_DENIED"));
    vm_compute; reflexivity.
Defined.

Lemma pagination_complete_witness :
  runQueryAll
    (query_backend Sample.sorts_before (Sample.collection 250)) 251
    "Users/u" "J" Sample.headers "created"
  = Some (Ok (Sample.collection 250))
  /\ listAll (list_backend 7 (Sample.collection 250)) 251 "Users/u/J" Sample.headers
       (Some "created asc,__name__ asc")
     = Some (Ok (Sample.collection 250))
  /\ NoDup (Sample.collection 250).
Proof.
  destruct (pagination_complete Sample.sorts_before "created" (Sample.collection 250)
              7 251 "Users/u" "J" "Users/u/J" Sample.headers
              (Some "created asc,__name__ asc")) as [Hq [Hl [Hd _]]].
  - exact sample_sorts_before_irrefl.
  - exact sample_sorts_before_trans.
  - apply strictly_sorted_sound. vm_compute. reflexivity.
  - vm_compute. reflexivity.
  - lia.
  - vm_compute. lia.
  - auto.
Defined.

Lemma pinned_messages_sorted_witness :
  exists sorted,
    export_pinnedDocs (P := Sample.platform) (list_backend 2 Sample.pinned) 5
      "Users/u/AIs/k" Sample.headers = Some (Ok sorted)
    /\ sorted = [Sample.document 1; Sample.document 1; Sample.document 2; Sample.document 3].
Proof.
  destruct (pinned_messages_sorted (list_backend 2 Sample.pinned) 5 "Users/u/AIs/k"
              Sample.headers Sample.pinned) as [sorted [Hexport [Hsort _]]].
  - vm_compute. reflexivity.
  - vm_compute. reflexivity.
  - exists sorted. split; [exact Hexport|].
    assert (E : sortByCreateTimeAsc (P := Sample.platform) Sample.pinned
                = Ok [Sample.document 1; Sample.document 1; Sample.document 2;
                      Sample.document 3]) by (vm_compute; reflexivity).
    rewrite E in Hsort. now injection Hsort as <-.
Defined.

(** The test of the [catch] clause reads the text, not the class: an
    internal error whose body happens to hold [403] is recovered, and an
    index error, which the store reports as [FAILED_PRECONDITION] with
    status 400, is rethrown although listing would have served the
    journal. *)
Lemma fetchJournalAll_fallback_by_text_not_class :
  (spec_index_or_permission_error 500 "INTERNAL: trace 14035" = false
   /\ fetchJournalAll
        (refusing 500 "INTERNAL: trace 14035" (list_backend 2 (Sample.collection 3)))
        4 "Users/u" "JournalV3" Sample.headers
      = Some (Ok (Sample.collection 3)))
  /\ (spec_index_or_permission_error 400
        "FAILED_PRECONDITION: The query requires an index." = true
      /\ fetchJournalAll
           (refusing 400 "FAILED_PRECONDITION: The query requires an index."
              (list_backend 2 (Sample.collection 3)))
           4 "Users/u" "JournalV3" Sample.headers
         = Some (Throw (post_failure 400
                          "FAILED_PRECONDITION: The query requires an index."))).
Proof. repeat split; vm_compute; reflexivity. Qed.





Lemma sample_locked_fails : always_fails Sample.locked_disk Sample.locked.
Proof. intros h. right. intros h'. eexists. reflexivity. Qed.

Lemma sample_unlocked_downloads item :
  In item [Sample.selfie 1; Sample.selfie 2] ->
  dest item <> dest Sample.locked /\ downloads Sample.locked_disk item.
Proof.
  intros [<-|[<-|[]]]; (split; [vm_compute; discriminate|]);
    intros h; exists (mkMedia true 200 (Ok [x00])), [x00]; repeat split.
Qed.



Lemma docId_last_segment_witness :
  docId (JObj [("name", JStr "projects/kindroid-ai/databases/(default)/documents/Users/u/AIs/k1")])
  = Ok "k1".
Proof.
  apply (proj1 (proj2 (docId_last_segment
           [("name", JStr "projects/kindroid-ai/databases/(default)/documents/Users/u/AIs/k1")]))
           "projects/kindroid-ai/databases/(default)/documents/Users/u/AIs" "k1");
    reflexivity.
Defined.

Lemma stripDocPrefix_resource_name_witness :
  stripDocPrefix (JStr "projects/kindroid-ai/databases/(default)/documents/Users/u/AIs/k1")
  = Ok "Users/u/AIs/k1".
Proof.
  apply (proj1 (stripDocPrefix_resource_name "kindroid-ai" "Users/u/AIs/k1"));
    [discriminate | reflexivity].
Defined.

Lemma stripDocPrefix_keeps_id_witness :
  exists id path,
    docId (Sample.document 7) = Ok id
    /\ stripDocPrefix
         (JStr "projects/kindroid-ai/databases/(default)/documents/Users/u/J/doc-007")
       = Ok path
    /\ split_pop "/" path = id
    /\ lacks "/" id = true.
Proof.
  apply (proj2 (proj2 (stripDocPrefix_keeps_id
           "projects/kindroid-ai/databases/(default)/documents/Users/u/J/doc-007"))).
  reflexivity.
Defined.

Lemma sanitize_safe_witness : sanitize "Ada (k1)" = "Ada (k1)".
Proof.
  apply (proj2 (proj2 (proj2 (sanitize_safe "Ada (k1)")))); [reflexivity|].
  vm_compute. lia.
Defined.

Lemma export_subfolder_long_names_witness :
  export_subfolder (Sample.long_name 150) "k1" = export_subfolder (Sample.long_name 150) "k2".
Proof.
  apply (export_subfolder_long_names (Sample.long_name 150) "k1" "k2").
  vm_compute. lia.
Defined.

Lemma filename_of_path_id_ext_witness :
  filename_of_path "/v0/b/media/o/selfies/user_abc_123.JPEG" = "123.jpeg".
Proof.
  apply (filename_of_path_id_ext "/v0/b/media/o/selfies" "user_abc" "123" "JPEG");
    try reflexivity; discriminate.
Defined.

Lemma decodeFields_entries_witness :
  exists out,
    JObj [("note", JStr "hi"); ("gone", JNull)] = JObj out
    /\ Forall2 (decoded_from "u")
         (filter (fun kv => own_key (fst kv)) Sample.fields_with_proto) out
    /\ map fst out = filter own_key (map fst Sample.fields_with_proto).
Proof.
  apply (decodeFields_entries "u" Sample.fields_with_proto
           (JObj [("note", JStr "hi"); ("gone", JNull)])).
  - repeat constructor; simpl; intuition discriminate.
  - reflexivity.
Defined.

Lemma malformed_value_aborts_packing_witness :
  packDocs [Sample.broken_document] "u"
  = Throw (TypeError "Cannot read properties of null (reading 'fields')").
Proof.
  pose proof (malformed_value_aborts_packing "u") as [_ H].
  specialize (H (JObj [("mapValue", JNull)]) _ eq_refl).
  destruct H as [H _].
  destruct (H [("note", JObj [("stringValue", JStr "hi")])] "broken" []) as [_ [_ Hpack]].
  - intros k v [[= <- <-]|[]]. eexists. reflexivity.
  - apply (Hpack _ "projects/kindroid-ai/databases/(default)/documents/Users/u/AIs/k1"
             [] []); try reflexivity.
    exists []. reflexivity.
Defined.

Lemma packDocs_keeps_order_witness :
  List.length Sample.packed_documents = 2
  /\ map time_of Sample.packed_documents = map time_of Sample.wire_documents.
Proof.
  pose proof (packDocs_keeps_order "u" Sample.wire_documents Sample.packed_documents
                eq_refl) as [_ [Hlen [Htimes _]]].
  split; [exact Hlen | exact Htimes].
Defined.

Lemma packDocs_total_witness :
  exists packed, packDocs Sample.wire_documents "u" = Ok packed
                 /\ List.length packed = List.length Sample.wire_documents.
Proof. apply (packDocs_total "u" Sample.wire_documents). reflexivity. Defined.

Lemma sortByCreateTimeAsc_idempotent_witness :
  sortByCreateTimeAsc [Sample.document 1; Sample.document 2; Sample.document 2]
  = Ok [Sample.document 1; Sample.document 2; Sample.document 2].
Proof.
  apply (sortByCreateTimeAsc_idempotent
           [Sample.document 1; Sample.document 2; Sample.document 2]).
  - reflexivity.
  - repeat constructor; unfold earlier_or_same; vm_compute; discriminate.
Defined.

Lemma refused_query_falls_back_witness :
  export_chatDocs (refusing 500 "Internal" (list_backend 2 (Sample.collection 3))) 4
    "Users/u/AIs/k" Sample.headers
  = Some (Ok (Sample.collection 3))
  /\ fetchJournalAll (refusing 500 "Internal" (list_backend 2 (Sample.collection 3))) 4
       "Users/u/AIs/k" "JournalV3" Sample.headers
     = Some (Throw (post_failure 500 "Internal")).
Proof.
  destruct (refused_query_falls_back 500 "Internal" 2 4 (Sample.collection 3)
              "Users/u/AIs/k" "JournalV3" Sample.headers) as [Hchat [_ [Hjournal _]]].
  - lia.
  - vm_compute. lia.
  - split; [exact Hchat | apply Hjournal; reflexivity].
Defined.

Lemma pagination_unbounded_witness :
  listAll Sample.endless 1000 "Users/u/AIs/k/Selfies" Sample.headers None = None
  /\ runQueryAll Sample.endless 1000 "Users/u/AIs/k" "ChatMessages" Sample.headers
       "timestamp" = None.
Proof.
  pose proof (pagination_unbounded Sample.endless Sample.headers) as [Hlist Hquery].
  split.
  - apply Hlist. intros url.
    exists (JObj [("documents", JArr [Sample.document 1]); ("nextPageToken", JStr "more")]),
           (JArr [Sample.document 1]), (JStr "more").
    repeat split; try reflexivity. right. eexists. reflexivity.
  - apply Hquery. intros url query.
    exists (repeat (JObj [("document", Sample.document 1)]) 100),
           (repeat (Sample.document 1) 100).
    split; [reflexivity|]. split; [reflexivity|]. vm_compute. lia.
Defined.

Lemma decodeValue_array_elements_witness :
  exists ds,
    JArr [JStr "a"; JNull] = JArr ds
    /\ Forall2 (fun v d => decodeValue "u" v = Ok d)
         [JObj [("stringValue", JStr "a")]; JObj [("nullValue", JNull)]] ds
    /\ List.length ds = 2.
Proof.
  apply (proj1 (decodeValue_array_elements "u"
                  [("values", JArr [JObj [("stringValue", JStr "a")];
                                    JObj [("nullValue", JNull)]])] []));
    reflexivity.
Defined.

Lemma decodeValue_first_key_decides_witness :
  decodeValue "u" (JObj [("integerValue", JStr "37"); ("stringValue", JStr "x")])
  = decodeValue "u" (JObj [("integerValue", JStr "37")]).
Proof.
  apply (decodeValue_first_key_decides "u" "integerValue" (JStr "37")
           [("stringValue", JStr "x")]).
  reflexivity.
Defined.

Lemma pinned_export_sorted_witness :
  exists sorted items,
    export_pinned (list_backend 2 Sample.pinned) 5 "Users/u/AIs/k" Sample.headers "u"
    = Some (Ok (4, items))
    /\ sorted = [Sample.document 1; Sample.document 1; Sample.document 2; Sample.document 3]
    /\ Forall2 (packed_from "u") sorted items.
Proof.
  destruct (pinned_export_sorted 2 5 Sample.pinned "Users/u/AIs/k" Sample.headers "u")
    as [sorted [items [Hexport [Hsort [_ [Hrecords _]]]]]].
  - lia.
  - vm_compute. lia.
  - reflexivity.
  - reflexivity.
  - exists sorted, items. split; [exact Hexport|]. split; [|exact Hrecords].
    assert (E : sortByCreateTimeAsc Sample.pinned
                = Ok [Sample.document 1; Sample.document 1; Sample.document 2;
                      Sample.document 3]) by (vm_compute; reflexivity).
    rewrite E in Hsort. now injection Hsort as <-.
Defined.
